(** * vite-plugin-aws-lambda: configuration defaults and directory archiver

    A shallow embedding of [packages/plugin/src/index.ts].

    Definitions
    - [Config]: the plugin options, the [onLog] hook, [getConfigDefaults].
    - [Archiver]: [zipDir], written in a small state-and-exception monad
      over the host's [node:fs/promises] and [node:path]. [JSZip] is
      represented by the members handed to [zip.file], in order.
    - [PathSegments], [Posix], [Win32]: the two flavours of [node:path],
      modelled on path segments.
    - [Members]: what is expected of an archive member.
    - [Tree]: a static directory tree as the host's file system.
    - [Samples]: small hosts and inputs.
    - [Plugin]: the closure of the plugin factory and the hooks
      [config], [configResolved] and [closeBundle]; [PosixHost]: their
      host on a POSIX system; [Demo]: the configuration of the demo
      package; [Phases], [TreeMore], [Formats], [Scenarios]: vocabulary
      and inputs for the properties of the hooks.

    Properties
    - [ConfigProps], [ArchiverProps], [PathProps], [HostProps],
      [PosixProps], [TreeProps], [Examples].
    - [ArchiverMore], [PluginProps], [PosixHostProps], [BuildProps],
      [FormatProps], [MoreExamples]. *)

From Stdlib Require Import String Ascii List Bool ZArith Lia Permutation.
From Stdlib Require Import Init.Byte.
Import ListNotations.
Local Open Scope string_scope.
Local Open Scope list_scope.

(* ===================================================================== *)
(** ** Plugin options, [onLog] and [getConfigDefaults] *)
(* ===================================================================== *)

Module Config.

(** [const PLUGIN_NAME = 'vite-plugin-aws-lambda';] *)
Definition PLUGIN_NAME : string := "vite-plugin-aws-lambda".

(** [outFilename?: string | false] *)
Inductive OutFilename : Type :=
| OutPath (p : string)
| OutDisabled.

(** [AwsLambdaPluginOptions]; an absent property is [None]. *)
Record AwsLambdaPluginOptions : Type := {
  outFilename : option OutFilename;
  quiet : option bool
}.

(** The destructuring default [quiet = false] of the plugin factory. *)
Definition quiet_of (o : AwsLambdaPluginOptions) : bool :=
  match quiet o with
  | Some q => q
  | None => false
  end.

(** Rollup's log levels and the one property of a log [onLog] reads. *)
Inductive LogLevel : Type := LogInfo | LogWarn | LogDebug.

Record RollupLog : Type := {
  log_plugin : option string;
  log_message : string
}.

(** [log.plugin !== PLUGIN_NAME]: strict inequality of a possibly
    undefined property with a string. *)
Definition plugin_differs (p : option string) : bool :=
  match p with
  | Some n => negb (String.eqb n PLUGIN_NAME)
  | None => true
  end.

(** [onLog(level, log) { return log.plugin !== PLUGIN_NAME || !quiet; }] *)
Definition onLog (o : AwsLambdaPluginOptions) (level : LogLevel)
  (log : RollupLog) : bool :=
  plugin_differs (log_plugin log) || negb (quiet_of o).

(** Vite's [InputOption]: [string | string[] | { [alias]: string }]. *)
Inductive InputOption : Type :=
| EntryOne (p : string)
| EntryMany (ps : list string)
| EntryAliased (m : list (string * string)).

(** [fileName?: string | ((format, entryName) => string)] *)
Inductive FileName : Type :=
| FileNameStr (s : string)
| FileNameFn (f : string -> string -> string).

(** The properties of [LibraryOptions] that [getConfigDefaults] reads. *)
Record LibraryOptions : Type := {
  entry : InputOption;
  formats : option (list string);
  fileName : option FileName
}.

(** Rollup's [ExternalOption]. *)
Inductive Pattern : Type :=
| PatString (s : string)
| PatRegExp (source : string).

Inductive ExternalOption : Type :=
| ExternalOne (p : Pattern)
| ExternalMany (ps : list Pattern)
| ExternalFn (f : string -> option string -> bool -> option bool).

Record RollupOptions : Type := {
  external : option ExternalOption
}.

(** The object literal [getConfigDefaults] returns. *)
Record LibDefaults : Type := {
  lib_entry : InputOption;
  lib_formats : list string;
  lib_fileName : FileName
}.

Record ConfigDefaults : Type := {
  build_lib : LibDefaults;
  build_external : ExternalOption
}.

(** [a ?? b] *)
Definition nullish {A : Type} (a : option A) (b : A) : A :=
  match a with
  | Some x => x
  | None => b
  end.

(** [rollupOptions?.external] *)
Definition external_of (ro : option RollupOptions) : option ExternalOption :=
  match ro with
  | Some r => external r
  | None => None
  end.

(** The arrow function used when [lib.fileName] is unset. *)
Definition defaultFileName (format name : string) : string :=
  if String.eqb format "es" || String.eqb format "esm"
     || String.eqb format "module"
  then name ++ ".mjs"
  else name ++ ".js".

Section Defaults.

(** [module.isBuiltin] of the host runtime. *)
Variable isBuiltin : string -> bool.

(** [module.isBuiltin] used as Rollup's three-argument [external]
    function: the extra arguments are ignored. *)
Definition isBuiltin_external : string -> option string -> bool -> option bool :=
  fun source _ _ => Some (isBuiltin source).

Definition getConfigDefaults (lib : LibraryOptions)
  (rollupOptions : option RollupOptions) : ConfigDefaults :=
  {| build_lib :=
       {| lib_entry := entry lib;
          lib_formats := nullish (formats lib) ["es"];
          lib_fileName := nullish (fileName lib) (FileNameFn defaultFileName) |};
     build_external :=
       nullish (external_of rollupOptions) (ExternalFn isBuiltin_external) |}.

(** The [config] hook: no defaults when there is no library entry
    ([build?.lib === false || !build?.lib?.entry]). *)
Definition entry_truthy (e : InputOption) : bool :=
  match e with
  | EntryOne p => negb (String.eqb p "")
  | EntryMany _ => true
  | EntryAliased _ => true
  end.

Definition config (lib : option LibraryOptions)
  (rollupOptions : option RollupOptions) : option ConfigDefaults :=
  match lib with
  | Some l =>
      if entry_truthy (entry l)
      then Some (getConfigDefaults l rollupOptions)
      else None
  | None => None
  end.

End Defaults.

End Config.

(* ===================================================================== *)
(** ** The archiver: [zipDir] *)
(* ===================================================================== *)

Module Archiver.

(** A thrown JavaScript value; [code] is its [code] property when that is
    a string. *)
Record JsError : Type := {
  code : option string;
  message : string
}.

(** How an awaited operation ends. *)
Inductive Completion (A : Type) : Type :=
| Normal (a : A)
| Throw (e : JsError).
Arguments Normal {A} a.
Arguments Throw {A} e.

(** [fs.Stats]: the modification time, in milliseconds. *)
Record Stats : Type := { mtime : Z }.

(** What a [fs.Dirent] says about its kind. *)
Inductive DirentKind : Type :=
| KFile
| KDirectory
| KSymbolicLink
| KFIFO
| KSocket
| KBlockDevice
| KCharacterDevice
| KUnknown.

(** [fs.Dirent]; [parentPath] is absent on older runtimes, which only
    have [path]. *)
Record Dirent : Type := {
  parentPath : option string;
  path : string;
  name : string;
  kind : DirentKind
}.

Definition isDirectory (entry : Dirent) : bool :=
  match kind entry with
  | KDirectory => true
  | _ => false
  end.

Definition isFile (entry : Dirent) : bool :=
  match kind entry with
  | KFile => true
  | _ => false
  end.

(** An open [fs.Dir]: the entries its async iterator yields, the error
    the iterator throws after them (if any), and how the one call of
    [close()] in [zipDir] ends. *)
Record Dir : Type := {
  dir_entries : list Dirent;
  dir_read_error : option JsError;
  dir_close : option JsError
}.

(** One call [zip.file(name, data, { dir, date })]. *)
Record ZipObject : Type := {
  z_name : string;
  z_data : option (list byte);
  z_dir : bool;
  z_date : Z
}.

(** What [zip.generateNodeStream(options)] serialises. *)
Record Archive : Type := {
  members : list ZipObject;
  compression : string;
  level : Z
}.

(** Observable actions of a run, in the order they are started. *)
Inductive Event : Type :=
| EvStat (p : string)
| EvReadFile (p : string)
| EvOnFile (relativeFilename : string)
| EvClose
| EvMkdir (p : string)
| EvWriteFile (p : string) (a : Archive).

(** The host's [node:path]. *)
Record PathModule : Type := {
  resolve : string -> string -> string;
  relative : string -> string -> string;
  dirname : string -> string
}.

(** The host's [node:fs/promises]. [stat_settles_first] says which of
    the two promises given to [Promise.all] settles first. *)
Record FileSystem : Type := {
  opendir : string -> Completion Dir;
  stat : string -> Completion Stats;
  readFile : string -> Completion (list byte);
  stat_settles_first : string -> bool;
  mkdir : string -> option JsError;
  writeFile : string -> Archive -> option JsError
}.

(** The [JSZip] instance under construction and the actions so far. *)
Record State : Type := {
  zip : list ZipObject;
  log : list Event
}.

Definition M (A : Type) : Type := State -> Completion A * State.

Definition ret {A : Type} (a : A) : M A := fun s => (Normal a, s).

Definition throw {A : Type} (e : JsError) : M A := fun s => (Throw e, s).

Definition bind {A B : Type} (c : M A) (k : A -> M B) : M B :=
  fun s =>
    match c s with
    | (Normal a, s') => k a s'
    | (Throw e, s') => (Throw e, s')
    end.

Notation "x <- c ;; k" := (bind c (fun x => k))
  (at level 61, c at next level, right associativity).
Notation "c ;; k" := (bind c (fun _ => k))
  (at level 61, right associativity).

Definition await {A : Type} (c : Completion A) : M A := fun s => (c, s).

Definition rejects (r : option JsError) : M unit :=
  match r with
  | None => ret tt
  | Some e => throw e
  end.

Definition emit (ev : Event) : M unit :=
  fun s => (Normal tt, {| zip := zip s; log := log s ++ [ev] |}).

(** [const zip = new JSZip()] *)
Definition new_JSZip : M unit :=
  fun s => (Normal tt, {| zip := []; log := log s |}).

(** [zip.file(name, data, { dir, date })] *)
Definition zip_file (n : string) (data : option (list byte)) (dir : bool)
  (date : Z) : M unit :=
  fun s =>
    (Normal tt,
     {| zip := zip s ++ [{| z_name := n; z_data := data; z_dir := dir; z_date := date |}];
        log := log s |}).

(** [try { body } finally { fin }]: [fin] always runs, and an exception
    of [fin] replaces the outcome of [body]. *)
Definition try_finally (body fin : M unit) : M unit :=
  fun s =>
    let (r, s1) := body s in
    match fin s1 with
    | (Normal _, s2) => (r, s2)
    | (Throw e, s2) => (Throw e, s2)
    end.

(** [err?.code !== 'ERR_DIR_CLOSED'] *)
Definition not_ERR_DIR_CLOSED (err : JsError) : bool :=
  match code err with
  | Some c => negb (String.eqb c "ERR_DIR_CLOSED")
  | None => true
  end.

(** [for await (const entry of entries) body] *)
Fixpoint for_await (es : list Dirent) (read_error : option JsError)
  (body : Dirent -> M unit) : M unit :=
  match es with
  | [] => rejects read_error
  | entry :: rest => body entry ;; for_await rest read_error body
  end.

Section ZipDir.

Variable P : PathModule.
Variable FS : FileSystem.

Definition fs_stat (p : string) : M Stats :=
  emit (EvStat p) ;; await (stat FS p).

(** [Promise.all([fs.stat(p), fs.readFile(p)])]: both are started; the
    first rejection wins. *)
Definition race (p : string) : Completion (Stats * list byte) :=
  match stat FS p, readFile FS p with
  | Normal stats, Normal content => Normal (stats, content)
  | Throw e, Normal _ => Throw e
  | Normal _, Throw e => Throw e
  | Throw e1, Throw e2 => Throw (if stat_settles_first FS p then e1 else e2)
  end.

Definition fs_stat_and_readFile (p : string) : M (Stats * list byte) :=
  emit (EvStat p) ;; emit (EvReadFile p) ;; await (race p).

Definition fs_mkdir (p : string) : M unit :=
  emit (EvMkdir p) ;; rejects (mkdir FS p).

Definition fs_writeFile (p : string) (a : Archive) : M unit :=
  emit (EvWriteFile p a) ;; rejects (writeFile FS p a).

(** [entries.close().catch((err) => { if (err?.code !== 'ERR_DIR_CLOSED') throw err; })] *)
Definition close_entries (entries : Dir) : M unit :=
  emit EvClose ;;
  match dir_close entries with
  | None => ret tt
  | Some err => if not_ERR_DIR_CLOSED err then throw err else ret tt
  end.

(** [zip.generateNodeStream({ compression: 'DEFLATE', compressionOptions: { level: 9 } })] *)
Definition generateNodeStream : M Archive :=
  fun s => (Normal {| members := zip s; compression := "DEFLATE"; level := 9 |}, s).

Variable inDir : string.
Variable outFilename : string.
Variable onFile : string -> option JsError.

Definition call_onFile (relativeFilename : string) : M unit :=
  emit (EvOnFile relativeFilename) ;; rejects (onFile relativeFilename).

(** [path.resolve((entry as any).parentPath ?? entry.path, entry.name)] *)
Definition filename (entry : Dirent) : string :=
  let parent :=
    match parentPath entry with
    | Some p => p
    | None => path entry
    end in
  resolve P parent (name entry).

Definition relativeFilename (entry : Dirent) : string :=
  relative P inDir (filename entry).

(** The body of the loop. *)
Definition body (entry : Dirent) : M unit :=
  if String.eqb (filename entry) outFilename then
    ret tt
  else if isDirectory entry then
    stats <- fs_stat (filename entry) ;;
    zip_file (relativeFilename entry) None true (mtime stats)
  else if isFile entry then
    sc <- fs_stat_and_readFile (filename entry) ;;
    call_onFile (relativeFilename entry) ;;
    zip_file (relativeFilename entry) (Some (snd sc)) false (mtime (fst sc))
  else
    ret tt.

Definition zipDir : M unit :=
  entries <- await (opendir FS inDir) ;;
  new_JSZip ;;
  try_finally
    (for_await (dir_entries entries) (dir_read_error entries) body)
    (close_entries entries) ;;
  readable <- generateNodeStream ;;
  fs_mkdir (dirname P outFilename) ;;
  fs_writeFile outFilename readable.

Definition initial : State := {| zip := []; log := [] |}.

(** One run of [zipDir]: its completion, the final [JSZip] instance
    and the actions performed. *)
Definition run : Completion unit * State := zipDir initial.

End ZipDir.

(** *** Vocabulary for stating properties of a run *)

(** [s] followed by the members and actions of [d]. *)
Definition extend (s d : State) : State :=
  {| zip := zip s ++ zip d; log := log s ++ log d |}.

(** A computation is framed when it only appends to the state: run from
    [s] it does what it does from the empty state, after [s]. *)
Definition framed {A : Type} (c : M A) : Prop :=
  forall s, c s = (fst (c initial), extend s (snd (c initial))).

Section Vocabulary.

Variable P : PathModule.
Variable FS : FileSystem.
Variable inDir : string.
Variable outFilename : string.
Variable onFile : string -> option JsError.

(** The guard [filename === outFilename]. *)
Definition is_dest (entry : Dirent) : bool :=
  String.eqb (filename P entry) outFilename.

(** Neither [isDirectory()] nor [isFile()]. *)
Definition other_kind (entry : Dirent) : bool :=
  negb (isDirectory entry) && negb (isFile entry).

(** The two shapes of member [body] builds. *)
Definition dir_member (entry : Dirent) (stats : Stats) : ZipObject :=
  {| z_name := relativeFilename P inDir entry;
     z_data := None;
     z_dir := true;
     z_date := mtime stats |}.

Definition file_member (entry : Dirent) (stats : Stats)
  (content : list byte) : ZipObject :=
  {| z_name := relativeFilename P inDir entry;
     z_data := Some content;
     z_dir := false;
     z_date := mtime stats |}.

(** What one iteration on [entry] does, started from the empty state:
    its completion, the members added and the actions performed. *)
Definition step (entry : Dirent) : Completion unit * State :=
  body P FS inDir outFilename onFile entry initial.

Definition contribution (entry : Dirent) : list ZipObject :=
  zip (snd (step entry)).

Definition trace (entry : Dirent) : list Event :=
  log (snd (step entry)).

(** The seven ways one iteration can go. *)
Inductive Iteration (e : Dirent) : Completion unit * State -> Prop :=
| ItDest :
    is_dest e = true ->
    Iteration e (Normal tt, initial)
| ItOther :
    is_dest e = false -> other_kind e = true ->
    Iteration e (Normal tt, initial)
| ItDir stats :
    is_dest e = false -> isDirectory e = true ->
    stat FS (filename P e) = Normal stats ->
    Iteration e (Normal tt,
                 {| zip := [dir_member e stats];
                    log := [EvStat (filename P e)] |})
| ItDirFail err :
    is_dest e = false -> isDirectory e = true ->
    stat FS (filename P e) = Throw err ->
    Iteration e (Throw err, {| zip := []; log := [EvStat (filename P e)] |})
| ItFile stats content :
    is_dest e = false -> isDirectory e = false -> isFile e = true ->
    stat FS (filename P e) = Normal stats ->
    readFile FS (filename P e) = Normal content ->
    onFile (relativeFilename P inDir e) = None ->
    Iteration e (Normal tt,
                 {| zip := [file_member e stats content];
                    log := [EvStat (filename P e); EvReadFile (filename P e);
                            EvOnFile (relativeFilename P inDir e)] |})
| ItFileReadFail err :
    is_dest e = false -> isDirectory e = false -> isFile e = true ->
    race FS (filename P e) = Throw err ->
    Iteration e (Throw err,
                 {| zip := [];
                    log := [EvStat (filename P e); EvReadFile (filename P e)] |})
| ItFileCallbackFail stats content err :
    is_dest e = false -> isDirectory e = false -> isFile e = true ->
    stat FS (filename P e) = Normal stats ->
    readFile FS (filename P e) = Normal content ->
    onFile (relativeFilename P inDir e) = Some err ->
    Iteration e (Throw err,
                 {| zip := [];
                    log := [EvStat (filename P e); EvReadFile (filename P e);
                            EvOnFile (relativeFilename P inDir e)] |}).

(** The loop over the traversal [d], started from the empty state. *)
Definition loop (d : Dir) : Completion unit * State :=
  for_await (dir_entries d) (dir_read_error d)
    (body P FS inDir outFilename onFile) initial.

(** [close()] resolved, or rejected with the code the handler lets
    pass. *)
Definition close_quiet (d : Dir) : bool :=
  match dir_close d with
  | None => true
  | Some err => negb (not_ERR_DIR_CLOSED err)
  end.

(** What is serialised from the members [z]. *)
Definition archive_of (z : list ZipObject) : Archive :=
  {| members := z; compression := "DEFLATE"; level := 9 |}.

(** The six ways a run can go. *)
Inductive Outcome : Completion unit * State -> Prop :=
| OutOpenFail err :
    opendir FS inDir = Throw err ->
    Outcome (Throw err, initial)
| OutCloseFail d r s err :
    opendir FS inDir = Normal d -> loop d = (r, s) ->
    dir_close d = Some err -> not_ERR_DIR_CLOSED err = true ->
    Outcome (Throw err, {| zip := zip s; log := log s ++ [EvClose] |})
| OutLoopFail d s err :
    opendir FS inDir = Normal d -> loop d = (Throw err, s) ->
    close_quiet d = true ->
    Outcome (Throw err, {| zip := zip s; log := log s ++ [EvClose] |})
| OutMkdirFail d s err :
    opendir FS inDir = Normal d -> loop d = (Normal tt, s) ->
    close_quiet d = true ->
    mkdir FS (dirname P outFilename) = Some err ->
    Outcome (Throw err,
             {| zip := zip s;
                log := log s ++ [EvClose; EvMkdir (dirname P outFilename)] |})
| OutWriteFail d s err :
    opendir FS inDir = Normal d -> loop d = (Normal tt, s) ->
    close_quiet d = true ->
    mkdir FS (dirname P outFilename) = None ->
    writeFile FS outFilename (archive_of (zip s)) = Some err ->
    Outcome (Throw err,
             {| zip := zip s;
                log := log s ++ [EvClose; EvMkdir (dirname P outFilename);
                                 EvWriteFile outFilename (archive_of (zip s))] |})
| OutOk d s :
    opendir FS inDir = Normal d -> loop d = (Normal tt, s) ->
    close_quiet d = true ->
    mkdir FS (dirname P outFilename) = None ->
    writeFile FS outFilename (archive_of (zip s)) = None ->
    Outcome (Normal tt,
             {| zip := zip s;
                log := log s ++ [EvClose; EvMkdir (dirname P outFilename);
                                 EvWriteFile outFilename (archive_of (zip s))] |}).

(** The action [ev] ended without an exception. *)
Definition succeeded (ev : Event) : Prop :=
  match ev with
  | EvStat p => exists stats, stat FS p = Normal stats
  | EvReadFile p => exists content, readFile FS p = Normal content
  | EvOnFile f => onFile f = None
  | EvClose => True
  | EvMkdir p => mkdir FS p = None
  | EvWriteFile p a => writeFile FS p a = None
  end.

(** The file entries that are not the destination. *)
Definition archived_file (entry : Dirent) : bool :=
  negb (is_dest entry) && isFile entry.

(** The entries the traversal of [inDir] yields. *)
Definition listing : list Dirent :=
  match opendir FS inDir with
  | Normal d => dir_entries d
  | Throw _ => []
  end.

End Vocabulary.

(** The same file system with the traversal changed by [f]. *)
Definition map_dir (f : Dir -> Dir) (FS : FileSystem) : FileSystem :=
  {| opendir := fun p =>
       match opendir FS p with
       | Normal d => Normal (f d)
       | Throw e => Throw e
       end;
     stat := stat FS;
     readFile := readFile FS;
     stat_settles_first := stat_settles_first FS;
     mkdir := mkdir FS;
     writeFile := writeFile FS |}.

Definition set_entries (es : list Dirent) (d : Dir) : Dir :=
  {| dir_entries := es;
     dir_read_error := dir_read_error d;
     dir_close := dir_close d |}.

(** The traversal without the entries that satisfy [p]. *)
Definition without (p : Dirent -> bool) (FS : FileSystem) : FileSystem :=
  map_dir (fun d => set_entries (filter (fun e => negb (p e)) (dir_entries d)) d) FS.

(** The traversal yielding [es] instead. *)
Definition relisted (es : list Dirent) (FS : FileSystem) : FileSystem :=
  map_dir (set_entries es) FS.

(** The same file system whose [close()] ends as [c] says. *)
Definition closing (c : option JsError) (FS : FileSystem) : FileSystem :=
  map_dir (fun d =>
    {| dir_entries := dir_entries d;
       dir_read_error := dir_read_error d;
       dir_close := c |}) FS.

(** The archive written to disk, the callback invocations and the paths
    read, extracted from the log of a run. *)
Fixpoint written (l : list Event) : option Archive :=
  match l with
  | [] => None
  | EvWriteFile _ a :: _ => Some a
  | _ :: r => written r
  end.

Fixpoint calls (l : list Event) : list string :=
  match l with
  | [] => []
  | EvOnFile f :: r => f :: calls r
  | _ :: r => calls r
  end.

Definition is_close (ev : Event) : bool :=
  match ev with
  | EvClose => true
  | _ => false
  end.

Definition touches (p : string) (ev : Event) : bool :=
  match ev with
  | EvStat q => String.eqb p q
  | EvReadFile q => String.eqb p q
  | _ => false
  end.

Definition file_members (z : list ZipObject) : list ZipObject :=
  filter (fun m => negb (z_dir m)) z.

End Archiver.

(* ===================================================================== *)
(** ** [node:path] at the level of path segments *)
(* ===================================================================== *)

Module PathSegments.
Local Open Scope string_scope.

(** [s.split(sep)] for one-character separators. *)
Fixpoint split (is_sep : ascii -> bool) (s : string) : list string :=
  match s with
  | EmptyString => [EmptyString]
  | String c r =>
      if is_sep c then EmptyString :: split is_sep r
      else
        match split is_sep r with
        | [] => [String c EmptyString]
        | seg :: segs => String c seg :: segs
        end
  end.

(** [segs.join(sep)] *)
Fixpoint join (sep : string) (segs : list string) : string :=
  match segs with
  | [] => EmptyString
  | [seg] => seg
  | seg :: rest => seg ++ sep ++ join sep rest
  end.

(** Node's [normalizeString]: empty and ["."] segments vanish, [".."]
    removes the segment before it; above the root it is kept only when
    [allowAboveRoot]. [stack] holds the result so far, last segment
    first. *)
Fixpoint normalize (allowAboveRoot : bool) (stack : list string)
  (segs : list string) : list string :=
  match segs with
  | [] => rev stack
  | seg :: rest =>
      if String.eqb seg "" || String.eqb seg "." then
        normalize allowAboveRoot stack rest
      else if String.eqb seg ".." then
        match stack with
        | top :: below =>
            if String.eqb top ".."
            then normalize allowAboveRoot (".." :: stack) rest
            else normalize allowAboveRoot below rest
        | [] =>
            if allowAboveRoot
            then normalize allowAboveRoot [".."] rest
            else normalize allowAboveRoot [] rest
        end
      else normalize allowAboveRoot (seg :: stack) rest
  end.

(** The segments two paths do not share. *)
Fixpoint strip_common (from to : list string) : list string * list string :=
  match from, to with
  | f :: from', t :: to' =>
      if String.eqb f t then strip_common from' to' else (from, to)
  | _, _ => (from, to)
  end.

Definition nonempty (s : string) : bool := negb (String.eqb s "").

(** No character of [s] is a separator. *)
Fixpoint sep_free (is_sep : ascii -> bool) (s : string) : bool :=
  match s with
  | EmptyString => true
  | String c r => negb (is_sep c) && sep_free is_sep r
  end.

(** The last character of [s] is a separator. *)
Fixpoint ends_with_sep (is_sep : ascii -> bool) (s : string) : bool :=
  match s with
  | EmptyString => false
  | String c EmptyString => is_sep c
  | String _ r => ends_with_sep is_sep r
  end.

(** Where the directory part of a path ends, for [dirname]: the index
    of the last separator, at [offset] or later, that is followed by a
    character that is not one. [i] is the index of the first character
    of [s]. *)
Fixpoint dir_end (is_sep : ascii -> bool) (offset i : nat) (s : string)
  : option nat :=
  match s with
  | String c (String d _ as tl) =>
      match dir_end is_sep offset (S i) tl with
      | Some e => Some e
      | None =>
          if is_sep c && negb (is_sep d) && Nat.leb offset i
          then Some i else None
      end
  | _ => None
  end.

(** A segment that names something: not empty, not ["."], not [".."]. *)
Definition plain (s : string) : bool :=
  nonempty s && negb (String.eqb s ".") && negb (String.eqb s "..").

(** A segment list fit to be joined: every segment non-empty and free
    of separators. *)
Definition joinable (is_sep : ascii -> bool) (segs : list string) : Prop :=
  Forall (fun seg => nonempty seg = true /\ sep_free is_sep seg = true) segs.

(** [s] is made of non-empty segments joined by ['/'] and nothing else
    in it separates segments on the host. *)
Definition forward_slashed (is_sep : ascii -> bool) (s : string) : bool :=
  String.eqb (join "/" (filter nonempty (split is_sep s))) s.

End PathSegments.

(** [path.posix]. [cwd] is [process.cwd()], an absolute path. *)
Module Posix.
Import PathSegments.
Local Open Scope string_scope.

Definition is_sep (c : ascii) : bool := Ascii.eqb c "/".

(** A segment that names something on a POSIX host. *)
Definition named (seg : string) : Prop :=
  plain seg = true /\ sep_free is_sep seg = true.

Definition isAbsolute (p : string) : bool :=
  match p with
  | String c _ => is_sep c
  | EmptyString => false
  end.

Section Cwd.

Variable cwd : string.

(** The loop of [resolve], over the arguments from the last to the
    first and then [cwd]: empty arguments are skipped, the first
    absolute one ends the loop. *)
Fixpoint resolve_loop (args_rev : list string) (resolvedPath : string)
  : string * bool :=
  match args_rev with
  | [] =>
      if String.eqb cwd "" then (resolvedPath, false)
      else (cwd ++ "/" ++ resolvedPath, isAbsolute cwd)
  | p :: rest =>
      if String.eqb p "" then resolve_loop rest resolvedPath
      else if isAbsolute p then (p ++ "/" ++ resolvedPath, true)
      else resolve_loop rest (p ++ "/" ++ resolvedPath)
  end.

Definition resolve_args (args : list string) : string :=
  let (resolvedPath, resolvedAbsolute) := resolve_loop (rev args) "" in
  let n := join "/" (normalize (negb resolvedAbsolute) [] (split is_sep resolvedPath)) in
  if resolvedAbsolute then "/" ++ n
  else if String.eqb n "" then "." else n.

Definition resolve (a b : string) : string := resolve_args [a; b].

Definition segments (p : string) : list string :=
  filter nonempty (split is_sep p).

(** The segments an absolute path resolves to. *)
Definition absolute_segments (p : string) : list string :=
  normalize false [] (split is_sep p).

Definition relative (from to : string) : string :=
  if String.eqb from to then ""
  else
    let from' := resolve_args [from] in
    let to' := resolve_args [to] in
    if String.eqb from' to' then ""
    else
      let (up, down) := strip_common (segments from') (segments to') in
      join "/" ((repeat ".." (length up) ++ down)%list).

Definition dirname (p : string) : string :=
  if String.eqb p "" then "."
  else
    match dir_end is_sep 1 0 p with
    | None => if isAbsolute p then "/" else "."
    | Some e =>
        if isAbsolute p && Nat.eqb e 1 then "//" else substring 0 e p
    end.

Definition module : Archiver.PathModule :=
  {| Archiver.resolve := resolve;
     Archiver.relative := relative;
     Archiver.dirname := dirname |}.

End Cwd.

End Posix.

(** [path.win32] for drive-letter paths. Both ['/'] and ['\'] separate
    segments, the result is joined with ['\'], and drive letters compare
    without regard to case. UNC device names are not modelled: [cwd] is
    an absolute path with a drive letter. *)
Module Win32.
Import PathSegments.
Local Open Scope string_scope.

Definition backslash : ascii := ascii_of_nat 92.
Definition SEP : string := String backslash EmptyString.

Definition is_sep (c : ascii) : bool :=
  Ascii.eqb c "/" || Ascii.eqb c backslash.

Definition is_letter (c : ascii) : bool :=
  let n := nat_of_ascii c in
  (Nat.leb 65 n && Nat.leb n 90) || (Nat.leb 97 n && Nat.leb n 122).

Definition lower (c : ascii) : ascii :=
  let n := nat_of_ascii c in
  if Nat.leb 65 n && Nat.leb n 90 then ascii_of_nat (n + 32) else c.

Fixpoint toLowerCase (s : string) : string :=
  match s with
  | EmptyString => EmptyString
  | String c r => String (lower c) (toLowerCase r)
  end.

(** A path's drive (["C:"] or nothing) and what follows it. *)
Definition device (p : string) : string * string :=
  match p with
  | String c (String colon r) =>
      if is_letter c && Ascii.eqb colon ":"
      then (String c (String colon EmptyString), r)
      else (EmptyString, p)
  | _ => (EmptyString, p)
  end.

Definition rooted (tail : string) : bool :=
  match tail with
  | String c _ => is_sep c
  | EmptyString => false
  end.

Section Cwd.

Variable cwd : string.

(** One round of the loop of [resolve] on a non-empty [p]: a path on
    another drive than the one already found is ignored. *)
Definition resolve_step (p : string) (st : string * string * bool)
  : string * string * bool :=
  let '(dev, tail, abs) := st in
  let (d, t) := device p in
  if nonempty d && nonempty dev
     && negb (String.eqb (toLowerCase d) (toLowerCase dev))
  then st
  else
    let dev' := if nonempty dev then dev else d in
    if abs then (dev', tail, abs)
    else (dev', t ++ SEP ++ tail, rooted t).

Definition resolved (st : string * string * bool) : bool :=
  let '(dev, _, abs) := st in abs && nonempty dev.

Fixpoint resolve_loop (args_rev : list string) (st : string * string * bool)
  : string * string * bool :=
  match args_rev with
  | [] =>
      let '(dev, _, _) := st in
      let (d, _) := device cwd in
      if nonempty dev && negb (String.eqb (toLowerCase d) (toLowerCase dev))
      then resolve_step (dev ++ SEP) st
      else resolve_step cwd st
  | p :: rest =>
      if String.eqb p "" then resolve_loop rest st
      else
        let st' := resolve_step p st in
        if resolved st' then st' else resolve_loop rest st'
  end.

Definition resolve_args (args : list string) : string :=
  let '(dev, tail, abs) := resolve_loop (rev args) ("", "", false) in
  let n := join SEP (normalize (negb abs) [] (split is_sep tail)) in
  if abs then dev ++ SEP ++ n
  else if nonempty (dev ++ n) then dev ++ n else ".".

Definition resolve (a b : string) : string := resolve_args [a; b].

Definition segments (p : string) : list string :=
  filter nonempty (split is_sep p).

(** As [strip_common], comparing without regard to case. *)
Fixpoint strip_common_ci (from to : list string) : list string * list string :=
  match from, to with
  | f :: from', t :: to' =>
      if String.eqb (toLowerCase f) (toLowerCase t)
      then strip_common_ci from' to'
      else (from, to)
  | _, _ => (from, to)
  end.

Definition relative (from to : string) : string :=
  if String.eqb from to then ""
  else
    let fromOrig := resolve_args [from] in
    let toOrig := resolve_args [to] in
    if String.eqb (toLowerCase fromOrig) (toLowerCase toOrig) then ""
    else
      match segments fromOrig, segments toOrig with
      | fd :: _, td :: _ =>
          if String.eqb (toLowerCase fd) (toLowerCase td) then
            let (up, down) := strip_common_ci (segments fromOrig) (segments toOrig) in
            join SEP ((repeat ".." (length up) ++ down)%list)
          else toOrig
      | _, _ => toOrig
      end.

(** Where the root of a path ends: after ["C:\"], after ["C:"], after
    a leading separator, or nowhere. *)
Definition root_end (p : string) : option nat :=
  let (d, t) := device p in
  if nonempty d then Some (if rooted t then 3 else 2)
  else if rooted t then Some 1 else None.

Definition dirname (p : string) : string :=
  if String.eqb p "" then "."
  else
    let offset := match root_end p with Some r => r | None => 0 end in
    match dir_end is_sep offset 0 p with
    | Some e => substring 0 e p
    | None =>
        match root_end p with
        | Some r => substring 0 r p
        | None => "."
        end
    end.

Definition module : Archiver.PathModule :=
  {| Archiver.resolve := resolve;
     Archiver.relative := relative;
     Archiver.dirname := dirname |}.

End Cwd.

End Win32.

(** ** What is expected of every archive member *)

Module Members.
Import Archiver PathSegments.

Section Host.

(** The characters that separate path segments on the host. *)
Variable is_sep : ascii -> bool.
Variable P : PathModule.
Variable FS : FileSystem.
Variable inDir : string.

(** The name is a relative path written with forward slashes. *)
Definition well_named (m : ZipObject) : Prop :=
  forward_slashed is_sep (z_name m) = true.

(** A directory member has no content and no trailing separator. *)
Definition directory_shape (m : ZipObject) : Prop :=
  z_dir m = true ->
  z_data m = None /\ ends_with_sep is_sep (z_name m) = false.

(** The date is the modification time [stat] gave for the entry the
    member was made from. *)
Definition dated (m : ZipObject) : Prop :=
  exists e stats,
    In e (listing FS inDir) /\
    z_name m = relativeFilename P inDir e /\
    z_dir m = isDirectory e /\
    stat FS (filename P e) = Normal stats /\
    z_date m = mtime stats.

Definition member_invariant (m : ZipObject) : Prop :=
  well_named m /\ directory_shape m /\ dated m.

End Host.

End Members.

(* ===================================================================== *)
(** ** A directory tree as the host's file system *)
(* ===================================================================== *)

(** A static disk seen through [node:fs/promises] on a POSIX host: what
    [opendir] with [recursive: true], [stat] and [readFile] answer when
    nothing changes during the run. *)
Module Tree.
Import Archiver PathSegments.
Local Open Scope string_scope.

(** What is neither a regular file nor a directory. *)
Inductive Special : Type :=
| Symlink
| Fifo
| Socket
| BlockDevice
| CharDevice.

Inductive Node : Type :=
| File (content : list byte) (modified : Z)
| Directory (children : Children) (modified : Z)
| Other (k : Special) (modified : Z)
with Children : Type :=
| Empty
| Child (name : string) (n : Node) (rest : Children).

Scheme Node_mut := Induction for Node Sort Prop
  with Children_mut := Induction for Children Sort Prop.

Combined Scheme Node_Children_ind from Node_mut, Children_mut.

Definition modified_of (n : Node) : Z :=
  match n with
  | File _ t => t
  | Directory _ t => t
  | Other _ t => t
  end.

Definition kind_of (n : Node) : DirentKind :=
  match n with
  | File _ _ => KFile
  | Directory _ _ => KDirectory
  | Other Symlink _ => KSymbolicLink
  | Other Fifo _ => KFIFO
  | Other Socket _ => KSocket
  | Other BlockDevice _ => KBlockDevice
  | Other CharDevice _ => KCharacterDevice
  end.

Fixpoint find (nm : string) (cs : Children) : option Node :=
  match cs with
  | Empty => None
  | Child c n rest => if String.eqb nm c then Some n else find nm rest
  end.

(** The node reached from [n] along the segments [segs]. *)
Fixpoint lookup (n : Node) (segs : list string) : option Node :=
  match segs with
  | [] => Some n
  | seg :: rest =>
      match n with
      | Directory cs _ =>
          match find seg cs with
          | Some c => lookup c rest
          | None => None
          end
      | _ => None
      end
  end.

(** The same, starting from the children of a directory. *)
Definition lookup_in (cs : Children) (segs : list string) : option Node :=
  match segs with
  | [] => None
  | seg :: rest =>
      match find seg cs with
      | Some c => lookup c rest
      | None => None
      end
  end.

Definition under (c : string) (d : list string * Node) : list string * Node :=
  (c :: fst d, snd d).

(** Every node strictly below a directory, with its path relative to
    that directory: the full recursive listing. Links are not
    followed. *)
Fixpoint descendants (n : Node) : list (list string * Node) :=
  match n with
  | Directory cs _ => below cs
  | _ => []
  end
with below (cs : Children) : list (list string * Node) :=
  match cs with
  | Empty => []
  | Child c n rest => ([c], n) :: map (under c) (descendants n) ++ below rest
  end.

Fixpoint names (cs : Children) : list string :=
  match cs with
  | Empty => []
  | Child c _ rest => c :: names rest
  end.

(** A name a directory entry can have. *)
Definition valid_name (s : string) : bool :=
  nonempty s && sep_free Posix.is_sep s
  && negb (String.eqb s ".") && negb (String.eqb s "..").

(** Names are valid and differ between siblings. *)
Fixpoint wf (n : Node) : Prop :=
  match n with
  | Directory cs _ => wf_children cs
  | _ => True
  end
with wf_children (cs : Children) : Prop :=
  match cs with
  | Empty => True
  | Child c n rest =>
      valid_name c = true /\ ~ In c (names rest) /\ wf n /\ wf_children rest
  end.

Definition ENOENT : JsError :=
  {| code := Some "ENOENT"; message := "no such file or directory" |}.
Definition ENOTDIR : JsError :=
  {| code := Some "ENOTDIR"; message := "not a directory" |}.
Definition EISDIR : JsError :=
  {| code := Some "EISDIR"; message := "illegal operation on a directory" |}.
Definition EINVAL : JsError :=
  {| code := Some "EINVAL"; message := "invalid argument" |}.
Definition ERR_DIR_CLOSED : JsError :=
  {| code := Some "ERR_DIR_CLOSED"; message := "Directory handle was closed" |}.

(** The disk: the tree under ["/"], the order in which a recursive
    traversal yields what it finds, and how creating directories and
    writing a file end. *)
Record Disk : Type := {
  root : Node;
  order : list Dirent -> list Dirent;
  mkdir_result : string -> option JsError;
  writeFile_result : string -> Archive -> option JsError
}.

Section OnDisk.

Variable cwd : string.
Variable disk : Disk.

(** The node a path names. *)
Definition at_path (p : string) : option Node :=
  lookup (root disk) (Posix.segments (Posix.resolve_args cwd [p])).

(** The absolute path of the node at [rel] below the directory [dir]. *)
Definition path_below (dir : string) (rel : list string) : string :=
  match rel with
  | [] => dir
  | _ => dir ++ "/" ++ join "/" rel
  end.

(** The resolved path of what is at [rel] below [dir]. *)
Definition absolute_path (dir : string) (rel : list string) : string :=
  "/" ++ join "/" (Posix.absolute_segments dir ++ rel)%list.

(** The [Dirent] of a node found at [rel] below the opened [dir]. *)
Definition dirent (dir : string) (d : list string * Node) : Dirent :=
  {| parentPath := Some (path_below dir (removelast (fst d)));
     path := path_below dir (removelast (fst d));
     name := last (fst d) "";
     kind := kind_of (snd d) |}.

(** The iterator closes the handle when it is done, so that the
    explicit [close()] finds it closed. *)
Definition opendir (p : string) : Completion Dir :=
  match at_path p with
  | Some (Directory cs _) =>
      Normal {| dir_entries := order disk (map (dirent p) (below cs));
                dir_read_error := None;
                dir_close := Some ERR_DIR_CLOSED |}
  | Some _ => Throw ENOTDIR
  | None => Throw ENOENT
  end.

Definition stat (p : string) : Completion Stats :=
  match at_path p with
  | Some n => Normal {| mtime := modified_of n |}
  | None => Throw ENOENT
  end.

Definition readFile (p : string) : Completion (list byte) :=
  match at_path p with
  | Some (File content _) => Normal content
  | Some (Directory _ _) => Throw EISDIR
  | Some (Other _ _) => Throw EINVAL
  | None => Throw ENOENT
  end.

Definition fs : FileSystem :=
  {| Archiver.opendir := opendir;
     Archiver.stat := stat;
     Archiver.readFile := readFile;
     Archiver.stat_settles_first := fun _ => true;
     Archiver.mkdir := mkdir_result disk;
     Archiver.writeFile := writeFile_result disk |}.

End OnDisk.

(** The member expected for a node of the listing: a directory gives a
    member without content, a file a member with its bytes, anything
    else no member. *)
Definition expected_member (d : list string * Node) : list ZipObject :=
  match snd d with
  | File content t =>
      [{| z_name := join "/" (fst d); z_data := Some content;
          z_dir := false; z_date := t |}]
  | Directory _ t =>
      [{| z_name := join "/" (fst d); z_data := None;
          z_dir := true; z_date := t |}]
  | Other _ _ => []
  end.

(** Every node of the listing has a member under its relative path. *)
Definition lists_all (a : Archive) (cs : Children) : Prop :=
  forall d, In d (below cs) ->
    exists m, In m (members a) /\ z_name m = join "/" (fst d).

End Tree.

(* ===================================================================== *)
(** ** Sample hosts and inputs *)
(* ===================================================================== *)

Module Samples.
Import Archiver Tree.
Local Open Scope string_scope.

(** A fake table of built-in modules. *)
Definition fake_builtin (s : string) : bool :=
  String.eqb s "fs" || String.eqb s "node:fs" || String.eqb s "path".

Definition bytes (s : string) : list byte := list_byte_of_string s.

(** [dist/] holds [a.txt] and [b/c.txt]. *)
Definition dist : Children :=
  Child "a.txt" (File (bytes "hello") 1000)
    (Child "b" (Directory (Child "c.txt" (File (bytes "world") 3000) Empty) 2000)
       Empty).

(** The same with an archive of an earlier build left inside. *)
Definition dist_with_zip : Children :=
  Child "out.zip" (File (bytes "PK") 4000) dist.

(** The same with a symbolic link next to the files. *)
Definition dist_with_link : Children :=
  Child "latest" (Other Symlink 5000) dist.

Definition disk_of (cs : Children) : Disk :=
  {| root := Directory (Child "proj" (Directory (Child "dist" (Directory cs 900) Empty) 800) Empty) 700;
     order := fun l => l;
     mkdir_result := fun _ => None;
     writeFile_result := fun _ _ => None |}.

Definition never_throws (f : string) : option JsError := None.

Definition posix : PathModule := Posix.module "/proj".

Definition run_on (cs : Children) (out : string) : Completion unit * State :=
  run posix (fs "/proj" (disk_of cs)) "/proj/dist" out never_throws.

(** A Windows host whose traversal of [C:\proj\dist] yields the
    directory [b] and the file [b\c.txt]. *)
Definition windows : PathModule := Win32.module "C:\proj".

Definition windows_entries : list Dirent :=
  [ {| parentPath := Some "C:\proj\dist"; path := "C:\proj\dist";
       name := "b"; kind := KDirectory |};
    {| parentPath := Some "C:\proj\dist\b"; path := "C:\proj\dist\b";
       name := "c.txt"; kind := KFile |} ].

Definition windows_fs : FileSystem :=
  {| Archiver.opendir := fun _ =>
       Normal {| dir_entries := windows_entries;
                 dir_read_error := None;
                 dir_close := Some ERR_DIR_CLOSED |};
     Archiver.stat := fun _ => Normal {| mtime := 3000 |};
     Archiver.readFile := fun _ => Normal (bytes "world");
     Archiver.stat_settles_first := fun _ => true;
     Archiver.mkdir := fun _ => None;
     Archiver.writeFile := fun _ _ => None |}.

Definition windows_run : Completion unit * State :=
  run windows windows_fs "C:\proj\dist" "C:\proj\dist.zip" never_throws.

(** The disk of [dist] with a [close()] that ends as [c] says. *)
Definition closing_with (c : option JsError) : FileSystem :=
  closing c (fs "/proj" (disk_of dist)).

Definition dir_close_of_dist : option JsError :=
  match Archiver.opendir (fs "/proj" (disk_of dist)) "/proj/dist" with
  | Normal d => dir_close d
  | Throw _ => None
  end.

(** What a second run finds when the first one wrote its archive into
    the directory: the archive, and the same entries in another order. *)
Definition second_traversal : list Dirent :=
  {| parentPath := Some "/proj/dist"; path := "/proj/dist";
     name := "out.zip"; kind := KFile |}
  :: rev (listing (fs "/proj" (disk_of dist)) "/proj/dist").

Definition EIO : JsError :=
  {| code := Some "EIO"; message := "i/o error" |}.

End Samples.

(* ===================================================================== *)
(** ** The plugin: its closure and its hooks *)
(* ===================================================================== *)

Module Plugin.
Import Config Archiver.
Local Open Scope string_scope.

(** What the hooks need of the host besides what [zipDir] needs:
    [path.resolve] with three arguments, [path.basename], [fs.rm] with
    [{ force: true, recursive: true }], and [this.info] of the plugin
    context. *)
Record Host : Type := {
  host_path : PathModule;
  resolve3 : string -> string -> string -> string;
  basename : string -> string;
  host_fs : FileSystem;
  rm : string -> option JsError;
  info : string -> option JsError
}.

(** [let absOutFilename: string | false], not assigned at first. *)
Inductive Destination : Type :=
| Unassigned
| NoArchive
| ArchiveAt (p : string).

(** The variables the hooks close over. *)
Record Closure : Type := {
  enabled : bool;
  root : option string;
  absInDir : option string;
  absOutFilename : Destination
}.

Definition fresh : Closure :=
  {| enabled := true; root := None; absInDir := None;
     absOutFilename := Unassigned |}.

(** The properties of Vite's resolved configuration the hooks read;
    [build.emptyOutDir] is [boolean | null]. *)
Record ResolvedConfig : Type := {
  config_root : string;
  build_outDir : string;
  build_emptyOutDir : option bool
}.

(** What a hook does to the world. *)
Inductive Action : Type :=
| Rm (p : string)
| Info (message : string)
| Zip (inDir out : string) (r : Completion unit * State).

(** Reading [undefined] where a path is expected. *)
Definition ERR_INVALID_ARG_TYPE : JsError :=
  {| code := Some "ERR_INVALID_ARG_TYPE";
     message := "The path argument must be of type string" |}.

Definition quote : string := String (ascii_of_nat 34) EmptyString.

Definition zipping_message : string := "zipping output directory...".

(** The second message: [filename: ], the destination relative to the
    root, and the double quote the template of the source ends with. *)
Definition filename_message (rel : string) : string :=
  "filename: " ++ rel ++ quote.

Section Hooks.

Variable isBuiltin : string -> bool.
Variable H : Host.
Variable o : AwsLambdaPluginOptions.

Definition disable (c : Closure) : Closure :=
  {| enabled := false; root := root c; absInDir := absInDir c;
     absOutFilename := absOutFilename c |}.

(** [async config({ build })]; [lib] is [build?.lib], absent when it is
    [false] or [undefined]. *)
Definition config (c : Closure) (lib : option LibraryOptions)
  (rollupOptions : option RollupOptions)
  : Closure * option ConfigDefaults :=
  match lib with
  | Some l =>
      if entry_truthy (entry l)
      then (c, Some (getConfigDefaults isBuiltin l rollupOptions))
      else (disable c, None)
  | None => (disable c, None)
  end.

(** [outFilename ?? `../${path.basename(config.build.outDir)}.zip`] *)
Definition destination_name (given : option string) (cfg : ResolvedConfig)
  : string :=
  match given with
  | Some f => f
  | None => "../" ++ basename H (build_outDir cfg) ++ ".zip"
  end.

Definition located (cfg : ResolvedConfig) (d : Destination) (c : Closure)
  : Closure :=
  {| enabled := enabled c;
     root := Some (config_root cfg);
     absInDir := Some (resolve (host_path H) (config_root cfg) (build_outDir cfg));
     absOutFilename := d |}.

(** [async configResolved(config)] *)
Definition configResolved (c : Closure) (cfg : ResolvedConfig)
  : Completion unit * Closure * list Action :=
  if negb (enabled c) then (Normal tt, c, [])
  else
    let archive_at (given : option string) :=
      let out := resolve3 H (config_root cfg) (build_outDir cfg)
                   (destination_name given cfg) in
      match build_emptyOutDir cfg with
      | Some false => (Normal tt, located cfg (ArchiveAt out) c, [])
      | _ =>
          (match rm H out with Some e => Throw e | None => Normal tt end,
           located cfg (ArchiveAt out) c, [Rm out])
      end in
    match outFilename o with
    | Some OutDisabled => (Normal tt, located cfg NoArchive c, [])
    | Some (OutPath f) => archive_at (Some f)
    | None => archive_at None
    end.

(** [async closeBundle()] *)
Definition closeBundle (c : Closure) : Completion unit * list Action :=
  if negb (enabled c) then (Normal tt, [])
  else
    match absOutFilename c with
    | Unassigned => (Normal tt, [])
    | NoArchive => (Normal tt, [])
    | ArchiveAt out =>
        if String.eqb out "" then (Normal tt, [])
        else
          match info H zipping_message with
          | Some e => (Throw e, [Info zipping_message])
          | None =>
              match root c with
              | None => (Throw ERR_INVALID_ARG_TYPE, [Info zipping_message])
              | Some r =>
                  let m := filename_message (relative (host_path H) r out) in
                  match info H m with
                  | Some e => (Throw e, [Info zipping_message; Info m])
                  | None =>
                      match absInDir c with
                      | None =>
                          (Throw ERR_INVALID_ARG_TYPE,
                           [Info zipping_message; Info m])
                      | Some d =>
                          let z := run (host_path H) (host_fs H) d out (info H) in
                          (fst z, [Info zipping_message; Info m; Zip d out z])
                      end
                  end
              end
          end
    end.

(** A build as Vite drives it when a library entry is configured: the
    configuration is resolved, then the bundle is closed. *)
Definition build (cfg : ResolvedConfig) : Completion unit * list Action :=
  match configResolved fresh cfg with
  | (Normal _, c, acts) =>
      let (r, acts') := closeBundle c in (r, (acts ++ acts')%list)
  | (Throw e, _, acts) => (Throw e, acts)
  end.

(** The closures the hooks can produce, starting from [fresh]. *)
Inductive reachable : Closure -> Prop :=
| reach_fresh : reachable fresh
| reach_config c lib rollupOptions :
    reachable c -> reachable (fst (config c lib rollupOptions))
| reach_configResolved c cfg :
    reachable c -> reachable (snd (fst (configResolved c cfg))).

(** The three paths of a closure were computed from one resolved
    configuration. *)
Definition consistent (c : Closure) : Prop :=
  match absOutFilename c with
  | ArchiveAt out =>
      exists cfg given,
        root c = Some (config_root cfg) /\
        absInDir c
        = Some (resolve (host_path H) (config_root cfg) (build_outDir cfg)) /\
        out = resolve3 H (config_root cfg) (build_outDir cfg)
                (destination_name given cfg)
  | _ => True
  end.

End Hooks.

(** The messages a list of actions hands to [this.info], in order: the
    hook's own and those of the callback given to [zipDir]. *)
Fixpoint reported (acts : list Action) : list string :=
  match acts with
  | [] => []
  | Info m :: rest => m :: reported rest
  | Zip _ _ z :: rest => (calls (log (snd z)) ++ reported rest)%list
  | Rm _ :: rest => reported rest
  end.

(** The paths removed. *)
Fixpoint removed (acts : list Action) : list string :=
  match acts with
  | [] => []
  | Rm p :: rest => p :: removed rest
  | _ :: rest => removed rest
  end.

(** The archives written. *)
Fixpoint archives (acts : list Action) : list (string * Archive) :=
  match acts with
  | [] => []
  | Zip _ out z :: rest =>
      match written (log (snd z)) with
      | Some a => (out, a) :: archives rest
      | None => archives rest
      end
  | _ :: rest => archives rest
  end.

End Plugin.

(** The plugin's host on a POSIX system. *)
Module PosixHost.
Import Archiver PathSegments.
Local Open Scope string_scope.

(** [path.posix.basename(p)]: the last non-empty segment, or the empty
    string. *)
Definition basename (p : string) : string := last (Posix.segments p) "".

Definition host (cwd : string) (FS : FileSystem)
  (rm info : string -> option JsError) : Plugin.Host :=
  {| Plugin.host_path := Posix.module cwd;
     Plugin.resolve3 := fun a b c => Posix.resolve_args cwd [a; b; c];
     Plugin.basename := basename;
     Plugin.host_fs := FS;
     Plugin.rm := rm;
     Plugin.info := info |}.

(** The segments [path.resolve(a, b)] normalises when [a] is absolute. *)
Definition raw2 (a b : string) : list string :=
  if String.eqb b "" then split Posix.is_sep a
  else if Posix.isAbsolute b then split Posix.is_sep b
  else (split Posix.is_sep a ++ split Posix.is_sep b)%list.

End PosixHost.

(** The demo package: [lambda({ outFilename: 'foo.zip' })] with
    [emptyOutDir: false], [outDir: '../dist/lambda'] and the entry
    ['./index.ts'], built from the directory of its configuration. *)
Module Demo.
Import Config Archiver Tree Plugin.
Local Open Scope string_scope.

Definition options : AwsLambdaPluginOptions :=
  {| outFilename := Some (OutPath "foo.zip"); quiet := None |}.

Definition lib : LibraryOptions :=
  {| entry := EntryOne "./index.ts"; formats := None; fileName := None |}.

Definition cwd : string := "/repo/packages/demo/src".

Definition resolved : ResolvedConfig :=
  {| config_root := cwd;
     build_outDir := "../dist/lambda";
     build_emptyOutDir := Some false |}.

(** The output directory after a first build: the bundle and the
    archive of that build. *)
Definition lambda_dir : Children :=
  Child "index.mjs" (File (Samples.bytes "export const handler") 100)
    (Child "foo.zip" (File (Samples.bytes "PK") 200) Empty).

Definition disk : Disk :=
  {| Tree.root :=
       Directory
         (Child "repo"
            (Directory
               (Child "packages"
                  (Directory
                     (Child "demo"
                        (Directory
                           (Child "dist"
                              (Directory
                                 (Child "lambda" (Directory lambda_dir 50) Empty)
                                 40)
                              (Child "src" (Directory Empty 45) Empty))
                           30)
                        Empty)
                     20)
                  Empty)
               10)
            Empty)
         0;
     order := fun l => l;
     mkdir_result := fun _ => None;
     writeFile_result := fun _ _ => None |}.

Definition host : Host :=
  PosixHost.host cwd (Tree.fs cwd disk) (fun _ => None) (fun _ => None).

End Demo.

(** ** More vocabulary for runs of [zipDir] *)

Module Phases.
Import Archiver.

(** An action of the loop: a read of the disk or a callback. *)
Definition is_read (ev : Event) : bool :=
  match ev with
  | EvStat _ => true
  | EvReadFile _ => true
  | EvOnFile _ => true
  | _ => false
  end.

(** What leaves [try { ... } finally { await entries.close()... }]
    when the loop threw [err]: the rejection of [close()] when there is
    one and its code is not [ERR_DIR_CLOSED], else [err]. *)
Definition thrown_after_close (d : Dir) (err : JsError) : JsError :=
  match dir_close d with
  | Some ce => if not_ERR_DIR_CLOSED ce then ce else err
  | None => err
  end.

(** The entries the loop makes a member of. *)
Definition archived (P : PathModule) (outFilename : string) (entry : Dirent)
  : bool :=
  negb (is_dest P outFilename entry) && (isDirectory entry || isFile entry).

End Phases.

(** ** More vocabulary for trees *)

Module TreeMore.
Import Archiver PathSegments Tree.

(** The node is the child named [f] of the directory listed. *)
Definition is_child (f : string) (d : list string * Node) : bool :=
  match fst d with
  | [x] => String.eqb x f
  | _ => false
  end.

End TreeMore.

(** ** More vocabulary for the configuration defaults *)

Module Formats.

(** The formats the default file name rule gives the [.mjs] extension. *)
Definition module_format (format : string) : bool :=
  String.eqb format "es" || String.eqb format "esm"
  || String.eqb format "module".

End Formats.

(** ** More sample inputs *)

Module Scenarios.
Import Config Archiver Tree Plugin Samples.
Local Open Scope string_scope.

Definition default_options : AwsLambdaPluginOptions :=
  {| outFilename := None; quiet := None |}.

Definition no_zip_options : AwsLambdaPluginOptions :=
  {| outFilename := Some OutDisabled; quiet := None |}.

Definition ECB : JsError :=
  {| code := None; message := "callback failed" |}.

(** A callback that throws on [a.txt]. *)
Definition failing_callback (f : string) : option JsError :=
  if String.eqb f "a.txt" then Some ECB else None.

Definition link_fs : FileSystem := fs "/proj" (disk_of dist_with_link).

(** The traversal of [dist_with_link]. *)
Definition link_dir : Dir :=
  {| dir_entries := listing link_fs "/proj/dist";
     dir_read_error := None;
     dir_close := Some ERR_DIR_CLOSED |}.

Definition failing_run : Completion unit * State :=
  run posix link_fs "/proj/dist" "/proj/dist.zip" failing_callback.

(** The same traversal with a [close()] that rejects with [EIO], and
    the run on it. *)
Definition loud_dir : Dir :=
  {| dir_entries := dir_entries link_dir;
     dir_read_error := None;
     dir_close := Some EIO |}.

Definition loud_run : Completion unit * State :=
  run posix (closing (Some EIO) link_fs) "/proj/dist" "/proj/dist.zip"
    failing_callback.

Definition a_txt : Dirent :=
  {| parentPath := Some "/proj/dist"; path := "/proj/dist";
     name := "a.txt"; kind := KFile |}.

(** The closure of the demo package after [configResolved], and what
    [closeBundle] then does. *)
Definition demo_closure : Closure :=
  snd (fst (configResolved Demo.host Demo.options fresh Demo.resolved)).

Definition demo_acts : list Action :=
  snd (closeBundle Demo.host demo_closure).

Definition demo_archive : string := "/repo/packages/demo/dist/lambda/foo.zip".

End Scenarios.

(* ===================================================================== *)
(** ** Properties of the configuration defaults and of [onLog] *)
(* ===================================================================== *)

Module ConfigProps.
Import Config Samples.
Local Open Scope string_scope.

Lemma eqb_PLUGIN_NAME (n : string) :
  String.eqb n PLUGIN_NAME = true <-> n = PLUGIN_NAME.
Proof. apply String.eqb_eq. Qed.

Lemma plugin_differs_spec (p : option string) :
  plugin_differs p = true <-> p <> Some PLUGIN_NAME.
Proof.
  destruct p as [n|]; simpl.
  - rewrite negb_true_iff. split.
    + intros H E. inversion E; subst. rewrite String.eqb_refl in H. discriminate.
    + intros H. destruct (String.eqb_spec n PLUGIN_NAME); [subst; now elim H|reflexivity].
  - split; [discriminate|reflexivity].
Qed.

(** C10. [onLog] lets every log of another plugin (or of none) through
    whatever [quiet] is, and it filters a log exactly when the log comes
    from this plugin and [quiet] is true. *)
Theorem onLog_filters_only_own_logs (o : AwsLambdaPluginOptions)
  (level : LogLevel) (log : RollupLog) :
  (log_plugin log <> Some PLUGIN_NAME -> onLog o level log = true) /\
  (onLog o level log = false <->
     log_plugin log = Some PLUGIN_NAME /\ quiet o = Some true).
Proof.
  unfold onLog, quiet_of. split.
  - intros H. apply plugin_differs_spec in H. now rewrite H.
  - rewrite orb_false_iff, negb_false_iff. split.
    + intros [Hp Hq]. split.
      * destruct (log_plugin log) as [n|]; simpl in Hp; [|discriminate].
        apply negb_false_iff, String.eqb_eq in Hp. now subst.
      * destruct (quiet o) as [[|]|]; try discriminate; reflexivity.
    + intros [Hp Hq]. rewrite Hp, Hq. split; reflexivity.
Qed.

Lemma onLog_filters_only_own_logs_witness :
  onLog {| outFilename := None; quiet := Some true |} LogInfo
        {| log_plugin := Some "vite:reporter"; log_message := "built" |} = true.
Proof.
  apply (proj1 (onLog_filters_only_own_logs _ _ _)).
  simpl. intros E. inversion E.
Defined.

Lemma defaultFileName_module (format name : string) :
  format = "es" \/ format = "esm" \/ format = "module" ->
  defaultFileName format name = name ++ ".mjs".
Proof. intros [->| [->| ->]]; reflexivity. Qed.

Lemma defaultFileName_other (format name : string) :
  format <> "es" -> format <> "esm" -> format <> "module" ->
  defaultFileName format name = name ++ ".js".
Proof.
  intros H1 H2 H3. unfold defaultFileName.
  apply String.eqb_neq in H1, H2, H3. now rewrite H1, H2, H3.
Qed.

(** C4. With only [entry] set, [getConfigDefaults] returns the formats
    [["es"]], a file name rule giving [<name>.mjs] for the formats es,
    esm and module and [<name>.js] for every other format, and an
    external predicate that answers, for every specifier, what the
    runtime's [isBuiltin] answers. *)
Theorem getConfigDefaults_entry_only (isBuiltin : string -> bool)
  (e : InputOption) (rollupOptions : option RollupOptions)
  (Hext : external_of rollupOptions = None) :
  let r := getConfigDefaults isBuiltin
             {| entry := e; formats := None; fileName := None |} rollupOptions in
  lib_entry (build_lib r) = e /\
  lib_formats (build_lib r) = ["es"] /\
  (exists f, lib_fileName (build_lib r) = FileNameFn f /\
     (forall name, f "es" name = name ++ ".mjs"
                /\ f "esm" name = name ++ ".mjs"
                /\ f "module" name = name ++ ".mjs"
                /\ f "cjs" name = name ++ ".js") /\
     (forall format name,
        format <> "es" -> format <> "esm" -> format <> "module" ->
        f format name = name ++ ".js")) /\
  (exists g, build_external r = ExternalFn g /\
     forall source importer isResolved,
       g source importer isResolved = Some (isBuiltin source)).
Proof.
  simpl. unfold getConfigDefaults; simpl. rewrite Hext; simpl.
  repeat split.
  - exists defaultFileName. repeat split.
    apply defaultFileName_other.
  - exists (isBuiltin_external isBuiltin). split; reflexivity.
Qed.

Lemma getConfigDefaults_entry_only_witness :
  lib_formats (build_lib
    (getConfigDefaults fake_builtin
       {| entry := EntryOne "src/index.ts"; formats := None; fileName := None |}
       None)) = ["es"].
Proof.
  apply (getConfigDefaults_entry_only fake_builtin (EntryOne "src/index.ts") None).
  reflexivity.
Defined.

(** C5. Whatever the caller set is returned as it is: the entry always,
    the formats array, the file name rule and the external option when
    present. *)
Theorem getConfigDefaults_preserves_explicit (isBuiltin : string -> bool)
  (lib : LibraryOptions) (rollupOptions : option RollupOptions) :
  let r := getConfigDefaults isBuiltin lib rollupOptions in
  lib_entry (build_lib r) = entry lib /\
  (forall fs, formats lib = Some fs -> lib_formats (build_lib r) = fs) /\
  (forall fn, fileName lib = Some fn -> lib_fileName (build_lib r) = fn) /\
  (forall ro ext, rollupOptions = Some ro -> external ro = Some ext ->
     build_external r = ext).
Proof.
  simpl. unfold getConfigDefaults; simpl. repeat split.
  - intros fs ->. reflexivity.
  - intros fn ->. reflexivity.
  - intros ro ext -> H. simpl. now rewrite H.
Qed.

Lemma getConfigDefaults_preserves_explicit_witness :
  lib_formats (build_lib
    (getConfigDefaults fake_builtin
       {| entry := EntryOne "src/index.ts";
          formats := Some ["cjs"; "es"];
          fileName := Some (FileNameStr "handler") |}
       (Some {| external := Some (ExternalMany [PatString "aws-sdk"]) |})))
  = ["cjs"; "es"].
Proof.
  apply (proj1 (proj2 (getConfigDefaults_preserves_explicit fake_builtin _ _))).
  reflexivity.
Defined.

End ConfigProps.

(* ===================================================================== *)
(** ** Properties of [zipDir] on any host *)
(* ===================================================================== *)

Module ArchiverProps.
Import Archiver.

Lemma extend_initial_l (d : State) : extend initial d = d.
Proof. destruct d; reflexivity. Qed.

Lemma extend_initial_r (s : State) : extend s initial = s.
Proof. destruct s; unfold extend; simpl. now rewrite !app_nil_r. Qed.

Lemma extend_assoc (a b c : State) :
  extend (extend a b) c = extend a (extend b c).
Proof. unfold extend; simpl. now rewrite !app_assoc. Qed.

Lemma framed_ret {A : Type} (a : A) : framed (ret a).
Proof. intros s. unfold ret; simpl. now rewrite extend_initial_r. Qed.

Lemma framed_throw {A : Type} (e : JsError) : framed (@throw A e).
Proof. intros s. unfold throw; simpl. now rewrite extend_initial_r. Qed.

Lemma framed_await {A : Type} (c : Completion A) : framed (await c).
Proof. intros s. unfold await; simpl. now rewrite extend_initial_r. Qed.

Lemma framed_rejects (r : option JsError) : framed (rejects r).
Proof. destruct r; [apply framed_throw|apply framed_ret]. Qed.

Lemma framed_emit (ev : Event) : framed (emit ev).
Proof. intros s. unfold emit, extend; simpl. now rewrite app_nil_r. Qed.

Lemma framed_zip_file n data dir date : framed (zip_file n data dir date).
Proof. intros s. unfold zip_file, extend; simpl. now rewrite app_nil_r. Qed.

Lemma framed_bind {A B : Type} (c : M A) (k : A -> M B) :
  framed c -> (forall a, framed (k a)) -> framed (bind c k).
Proof.
  intros Hc Hk s. unfold bind. rewrite (Hc s).
  destruct (c initial) as [[a|e] d]; simpl.
  - rewrite (Hk a (extend s d)), (Hk a d), extend_assoc. reflexivity.
  - reflexivity.
Qed.

Lemma framed_try_finally (b f : M unit) :
  framed b -> framed f -> framed (try_finally b f).
Proof.
  intros Hb Hf s. unfold try_finally. rewrite (Hb s).
  destruct (b initial) as [r d]; simpl.
  rewrite (Hf (extend s d)), (Hf d).
  destruct (f initial) as [[u|e] d']; simpl; now rewrite extend_assoc.
Qed.

Lemma framed_for_await (es : list Dirent) (re : option JsError)
  (b : Dirent -> M unit) :
  (forall e, framed (b e)) -> framed (for_await es re b).
Proof.
  intros Hb. induction es as [|e es IH]; simpl.
  - apply framed_rejects.
  - apply framed_bind; [apply Hb|intros _; exact IH].
Qed.

Create HintDb framed.

#[local] Hint Resolve framed_ret framed_throw framed_await framed_rejects
  framed_emit framed_zip_file : framed.

Ltac framed_tac :=
  repeat first
    [ apply framed_bind; [|intros ?]
    | apply framed_try_finally
    | solve [auto with framed] ].

Section Run.

Variable P : PathModule.
Variable FS : FileSystem.
Variable inDir : string.
Variable outFilename : string.
Variable onFile : string -> option JsError.

Local Abbreviation Body := (body P FS inDir outFilename onFile).
Local Abbreviation Step := (step P FS inDir outFilename onFile).
Local Abbreviation Filename := (filename P).
Local Abbreviation Rel := (relativeFilename P inDir).
Local Abbreviation IsDest := (is_dest P outFilename).

Lemma framed_body (e : Dirent) : framed (Body e).
Proof.
  unfold body.
  destruct (String.eqb (Filename e) outFilename); [auto with framed|].
  destruct (isDirectory e).
  { unfold fs_stat. framed_tac. }
  destruct (isFile e); [|auto with framed].
  unfold fs_stat_and_readFile, call_onFile. framed_tac.
Qed.

Lemma framed_close (d : Dir) : framed (close_entries d).
Proof.
  unfold close_entries. framed_tac.
  destruct (dir_close d) as [err|]; [|auto with framed].
  destruct (not_ERR_DIR_CLOSED err); auto with framed.
Qed.

Lemma step_cases (e : Dirent) : Iteration P FS inDir outFilename onFile e (Step e).
Proof.
  unfold step, body.
  destruct (String.eqb (Filename e) outFilename) eqn:Hd.
  { now apply ItDest. }
  destruct (isDirectory e) eqn:Hdir.
  { unfold fs_stat, bind, emit, await, zip_file; simpl.
    destruct (stat FS (Filename e)) as [st|err] eqn:Hs.
    - now apply ItDir.
    - now apply ItDirFail. }
  destruct (isFile e) eqn:Hf.
  2:{ apply ItOther; [exact Hd|]. unfold other_kind. now rewrite Hdir, Hf. }
  unfold fs_stat_and_readFile, call_onFile, bind, emit, await, zip_file; simpl.
  destruct (race FS (Filename e)) as [[st c]|err] eqn:Hr.
  - unfold race in Hr.
    destruct (stat FS (Filename e)) as [st'|e1] eqn:Hs;
      destruct (readFile FS (Filename e)) as [c'|e2] eqn:Hc; try discriminate.
    inversion Hr; subst st' c'.
    unfold rejects. destruct (onFile (Rel e)) as [err|] eqn:Ho; unfold throw, ret; simpl.
    + now apply (ItFileCallbackFail _ _ _ _ _ e st c err).
    + now apply (ItFile _ _ _ _ _ e st c).
  - now apply ItFileReadFail.
Qed.

Local Abbreviation Loop := (loop P FS inDir outFilename onFile).
Local Abbreviation Contribution := (contribution P FS inDir outFilename onFile).
Local Abbreviation Trace := (trace P FS inDir outFilename onFile).

Lemma loop_nil (re ce : option JsError) :
  Loop {| dir_entries := []; dir_read_error := re; dir_close := ce |}
  = (match re with Some e => Throw e | None => Normal tt end, initial).
Proof. unfold loop; simpl. destruct re; reflexivity. Qed.

Lemma loop_cons (e : Dirent) (es : list Dirent) (re ce : option JsError) :
  Loop {| dir_entries := e :: es; dir_read_error := re; dir_close := ce |}
  = match Step e with
    | (Normal _, d) =>
        let rest := Loop {| dir_entries := es; dir_read_error := re; dir_close := ce |} in
        (fst rest, extend d (snd rest))
    | (Throw x, d) => (Throw x, d)
    end.
Proof.
  unfold loop, step; simpl. unfold bind at 1.
  destruct (Body e initial) as [[u|x] d]; [|reflexivity].
  apply (framed_for_await es re Body framed_body d).
Qed.

(** A run of the loop processes a prefix of the traversal, all of it
    when it completes normally. *)
Lemma loop_prefix (es : list Dirent) (re ce : option JsError) r s :
  Loop {| dir_entries := es; dir_read_error := re; dir_close := ce |} = (r, s) ->
  exists n,
    zip s = flat_map Contribution (firstn n es) /\
    log s = flat_map Trace (firstn n es) /\
    (r = Normal tt ->
       firstn n es = es /\ re = None /\
       Forall (fun e => fst (Step e) = Normal tt) es).
Proof.
  revert r s. induction es as [|e es IH]; intros r s H.
  - rewrite loop_nil in H. inversion H; subst. exists 0. repeat split.
    + destruct re; [discriminate|reflexivity].
    + constructor.
  - rewrite loop_cons in H.
    unfold contribution, trace.
    destruct (Step e) as [[u|x] d] eqn:Hstep.
    + destruct (Loop {| dir_entries := es; dir_read_error := re; dir_close := ce |})
        as [r' s'] eqn:Hrest.
      simpl in H. inversion H; subst r s.
      destruct (IH _ _ eq_refl) as (n & Hz & Hl & Hn).
      exists (S n). simpl. rewrite Hstep; simpl. rewrite Hz, Hl.
      repeat split; try reflexivity.
      * f_equal. now apply Hn.
      * now apply Hn.
      * constructor; [now rewrite Hstep; destruct u|now apply Hn].
    + inversion H; subst r s. exists 1. simpl. rewrite Hstep; simpl.
      rewrite !app_nil_r. repeat split; discriminate.
Qed.

(** When every iteration completes normally and the iterator does not
    throw, so does the loop. *)
Lemma loop_total (es : list Dirent) (ce : option JsError) :
  Forall (fun e => fst (Step e) = Normal tt) es ->
  Loop {| dir_entries := es; dir_read_error := None; dir_close := ce |}
  = (Normal tt, {| zip := flat_map Contribution es; log := flat_map Trace es |}).
Proof.
  induction 1 as [|e es He _ IH].
  - now rewrite loop_nil.
  - rewrite loop_cons, IH. unfold contribution, trace. simpl.
    destruct (Step e) as [[u|x] d]; simpl in *; [reflexivity|discriminate].
Qed.

Lemma close_entries_eq (d : Dir) (s : State) :
  close_entries d s =
  (match dir_close d with
   | Some err => if not_ERR_DIR_CLOSED err then Throw err else Normal tt
   | None => Normal tt
   end,
   {| zip := zip s; log := log s ++ [EvClose] |}).
Proof.
  unfold close_entries, bind, emit.
  destruct (dir_close d) as [err|]; [|reflexivity].
  destruct (not_ERR_DIR_CLOSED err); reflexivity.
Qed.

Lemma after_loop_eq (s : State) :
  (readable <- generateNodeStream ;;
   fs_mkdir FS (dirname P outFilename) ;;
   fs_writeFile FS outFilename readable)
    {| zip := zip s; log := log s ++ [EvClose] |}
  = match mkdir FS (dirname P outFilename) with
    | Some err =>
        (Throw err,
         {| zip := zip s;
            log := log s ++ [EvClose; EvMkdir (dirname P outFilename)] |})
    | None =>
        (match writeFile FS outFilename (archive_of (zip s)) with
         | Some err => Throw err
         | None => Normal tt
         end,
         {| zip := zip s;
            log := log s ++ [EvClose; EvMkdir (dirname P outFilename);
                             EvWriteFile outFilename (archive_of (zip s))] |})
    end.
Proof.
  unfold bind, generateNodeStream, fs_mkdir, fs_writeFile, bind, emit, rejects; simpl.
  fold (archive_of (zip s)).
  destruct (mkdir FS (dirname P outFilename)) as [e|]; simpl.
  - now rewrite <- app_assoc.
  - rewrite <- !app_assoc; simpl.
    destruct (writeFile FS outFilename (archive_of (zip s))); reflexivity.
Qed.

Lemma run_cases :
  Outcome P FS inDir outFilename onFile (run P FS inDir outFilename onFile).
Proof.
  unfold run, zipDir. unfold bind at 1, await.
  destruct (opendir FS inDir) as [d|err] eqn:Hopen; [|now apply OutOpenFail].
  unfold bind at 1, new_JSZip. simpl. fold initial.
  unfold bind at 1, try_finally.
  fold (Loop d). destruct (Loop d) as [r s] eqn:Hloop.
  rewrite close_entries_eq.
  assert (Hq : close_quiet d =
               match dir_close d with
               | Some err => negb (not_ERR_DIR_CLOSED err)
               | None => true
               end) by reflexivity.
  destruct (dir_close d) as [err|] eqn:Hclose.
  - destruct (not_ERR_DIR_CLOSED err) eqn:Hcode; simpl in Hq.
    + eapply OutCloseFail; eauto.
    + destruct r as [[]|e]; [|eapply OutLoopFail; eauto].
      rewrite after_loop_eq.
      destruct (mkdir FS (dirname P outFilename)) as [e|] eqn:Hmk.
      { eapply OutMkdirFail; eauto. }
      destruct (writeFile FS outFilename _) as [e|] eqn:Hwr.
      { eapply OutWriteFail; eauto. }
      eapply OutOk; eauto.
  - destruct r as [[]|e]; [|eapply OutLoopFail; eauto].
    rewrite after_loop_eq.
    destruct (mkdir FS (dirname P outFilename)) as [e|] eqn:Hmk.
    { eapply OutMkdirFail; eauto. }
    destruct (writeFile FS outFilename _) as [e|] eqn:Hwr.
    { eapply OutWriteFail; eauto. }
    eapply OutOk; eauto.
Qed.

(** *** Entries on which the iteration does nothing *)

Lemma body_dest (e : Dirent) (s : State) :
  Filename e = outFilename -> Body e s = (Normal tt, s).
Proof.
  intros H. unfold body. rewrite H, String.eqb_refl. reflexivity.
Qed.

Lemma body_other_kind (e : Dirent) (s : State) :
  isDirectory e = false -> isFile e = false -> Body e s = (Normal tt, s).
Proof.
  intros Hd Hf. unfold body. rewrite Hd, Hf.
  destruct (String.eqb (Filename e) outFilename); reflexivity.
Qed.

Lemma for_await_skip (p : Dirent -> bool) :
  (forall e s, p e = true -> Body e s = (Normal tt, s)) ->
  forall es re s,
    for_await (filter (fun e => negb (p e)) es) re Body s
    = for_await es re Body s.
Proof.
  intros Hp es re. induction es as [|e es IH]; intros s; simpl; [reflexivity|].
  destruct (p e) eqn:He; simpl.
  - unfold bind. rewrite (Hp e s He). apply IH.
  - unfold bind. destruct (Body e s) as [[u|x] s']; [apply IH|reflexivity].
Qed.

(** Dropping such entries from the traversal changes nothing in the
    run. *)
Lemma run_without (p : Dirent -> bool) :
  (forall e s, p e = true -> Body e s = (Normal tt, s)) ->
  run P (without p FS) inDir outFilename onFile
  = run P FS inDir outFilename onFile.
Proof.
  intros Hp. unfold run, zipDir, without.
  unfold bind at 1 5, await. cbn [opendir map_dir].
  destruct (opendir FS inDir) as [d|err]; [|reflexivity].
  unfold bind at 1 5, new_JSZip. cbn [fst snd].
  unfold bind at 1 4, try_finally.
  cbn [set_entries dir_entries dir_read_error].
  change (body P (map_dir _ FS) inDir outFilename onFile) with Body.
  rewrite for_await_skip by exact Hp.
  reflexivity.
Qed.

(** *** Reading the log *)

Lemma calls_app (l1 l2 : list Event) :
  calls (l1 ++ l2) = calls l1 ++ calls l2.
Proof.
  induction l1 as [|ev l1 IH]; simpl; [reflexivity|].
  destruct ev; simpl; now rewrite IH.
Qed.

Lemma written_app (l1 l2 : list Event) :
  written (l1 ++ l2)
  = match written l1 with Some a => Some a | None => written l2 end.
Proof.
  induction l1 as [|ev l1 IH]; simpl; [reflexivity|].
  destruct ev; auto.
Qed.

Lemma calls_flat_map (f : Dirent -> list Event) (es : list Dirent) :
  calls (flat_map f es) = flat_map (fun e => calls (f e)) es.
Proof.
  induction es as [|e es IH]; simpl; [reflexivity|].
  now rewrite calls_app, IH.
Qed.

Lemma written_trace (e : Dirent) : written (Trace e) = None.
Proof.
  unfold trace. destruct (step_cases e); reflexivity.
Qed.

Lemma written_traces (es : list Dirent) : written (flat_map Trace es) = None.
Proof.
  induction es as [|e es IH]; simpl; [reflexivity|].
  now rewrite written_app, written_trace.
Qed.

Lemma no_close_trace (e : Dirent) : filter is_close (Trace e) = [].
Proof.
  unfold trace. destruct (step_cases e); reflexivity.
Qed.

Lemma no_close_traces (es : list Dirent) :
  filter is_close (flat_map Trace es) = [].
Proof.
  induction es as [|e es IH]; simpl; [reflexivity|].
  now rewrite filter_app, no_close_trace, IH.
Qed.

(** *** Where members and callback invocations come from *)

Lemma contribution_cases (e : Dirent) (m : ZipObject) :
  In m (Contribution e) ->
  IsDest e = false /\
  exists stats, stat FS (Filename e) = Normal stats /\
    ((isDirectory e = true /\ m = dir_member P inDir e stats) \/
     (isDirectory e = false /\ isFile e = true /\ onFile (Rel e) = None /\
      exists content, readFile FS (Filename e) = Normal content /\
                      m = file_member P inDir e stats content)).
Proof.
  unfold contribution. destruct (step_cases e); simpl; try tauto.
  - intros [<-|[]]. split; [assumption|]. exists stats. tauto.
  - intros [<-|[]]. split; [assumption|]. exists stats. split; [assumption|].
    right. repeat split; try assumption. now exists content.
Qed.

Lemma trace_calls (e : Dirent) (c : string) :
  In c (calls (Trace e)) ->
  IsDest e = false /\ isDirectory e = false /\ isFile e = true /\ c = Rel e.
Proof.
  unfold trace. destruct (step_cases e); simpl; try tauto.
  - intros [<-|[]]. tauto.
  - intros [<-|[]]. tauto.
Qed.

Lemma is_dest_false (e : Dirent) :
  IsDest e = false <-> Filename e <> outFilename.
Proof. unfold is_dest. apply String.eqb_neq. Qed.

Lemma in_firstn {A : Type} (n : nat) (l : list A) (x : A) :
  In x (firstn n l) -> In x l.
Proof.
  revert l. induction n as [|n IH]; intros [|a l]; simpl; try tauto.
  intros [->|H]; [now left|right; now apply IH].
Qed.

(** The state a run ends in: the members and the actions of a prefix
    of the traversal, and then the actions after the loop. *)
Lemma run_shape r s :
  run P FS inDir outFilename onFile = (r, s) ->
  exists n tail,
    zip s = flat_map Contribution (firstn n (listing FS inDir)) /\
    log s = flat_map Trace (firstn n (listing FS inDir)) ++ tail /\
    calls tail = [] /\
    (r = Normal tt ->
       firstn n (listing FS inDir) = listing FS inDir /\
       Forall (fun e => fst (Step e) = Normal tt) (listing FS inDir) /\
       tail = [EvClose; EvMkdir (dirname P outFilename);
               EvWriteFile outFilename (archive_of (zip s))]).
Proof.
  intros Hrun. pose proof run_cases as Hc. rewrite Hrun in Hc.
  unfold listing.
  inversion Hc as
    [ err Ho
    | d r' s' err Ho Hl Hcl Hcode
    | d s' err Ho Hl Hq
    | d s' err Ho Hl Hq Hmk
    | d s' err Ho Hl Hq Hmk Hwr
    | d s' Ho Hl Hq Hmk Hwr ]; subst; rewrite Ho;
    try (destruct d as [es re ce]; apply loop_prefix in Hl;
         destruct Hl as (n & Hz & Hlg & Hn); simpl in *).
  - exists 0, []. repeat split; discriminate.
  - exists n, [EvClose]. repeat split; try assumption; try discriminate.
    now rewrite Hlg.
  - exists n, [EvClose]. repeat split; try assumption; try discriminate.
    now rewrite Hlg.
  - exists n, [EvClose; EvMkdir (dirname P outFilename)].
    repeat split; try assumption; try discriminate.
    now rewrite Hlg.
  - exists n, [EvClose; EvMkdir (dirname P outFilename);
               EvWriteFile outFilename (archive_of (zip s'))].
    repeat split; try assumption; try discriminate.
    now rewrite Hlg.
  - exists n, [EvClose; EvMkdir (dirname P outFilename);
               EvWriteFile outFilename (archive_of (zip s'))].
    destruct (Hn eq_refl) as (H1 & H2 & H3).
    repeat split; try assumption.
    now rewrite Hlg.
Qed.

Lemma zip_provenance r s m :
  run P FS inDir outFilename onFile = (r, s) ->
  In m (zip s) ->
  exists e, In e (listing FS inDir) /\ In m (Contribution e).
Proof.
  intros Hrun Hm. destruct (run_shape _ _ Hrun) as (n & tail & Hz & _).
  rewrite Hz in Hm. apply in_flat_map in Hm. destruct Hm as (e & He & Hm).
  exists e. split; [now apply in_firstn in He|assumption].
Qed.

Lemma calls_provenance r s c :
  run P FS inDir outFilename onFile = (r, s) ->
  In c (calls (log s)) ->
  exists e, In e (listing FS inDir) /\ In c (calls (Trace e)).
Proof.
  intros Hrun Hc. destruct (run_shape _ _ Hrun) as (n & tail & _ & Hl & Ht & _).
  rewrite Hl, calls_app, Ht, app_nil_r, calls_flat_map in Hc.
  apply in_flat_map in Hc. destruct Hc as (e & He & Hc).
  exists e. split; [now apply in_firstn in He|assumption].
Qed.

(** What is written is the [JSZip] instance as the loop left it. *)
Lemma written_run r s a :
  run P FS inDir outFilename onFile = (r, s) ->
  written (log s) = Some a ->
  a = archive_of (zip s).
Proof.
  intros Hrun Hw. pose proof run_cases as Hc. rewrite Hrun in Hc.
  inversion Hc as
    [ err Ho
    | d r' s' err Ho Hl Hcl Hcode
    | d s' err Ho Hl Hq
    | d s' err Ho Hl Hq Hmk
    | d s' err Ho Hl Hq Hmk Hwr
    | d s' Ho Hl Hq Hmk Hwr ]; subst; simpl in Hw;
    try discriminate;
    destruct d as [es re ce]; apply loop_prefix in Hl;
    destruct Hl as (n & Hz & Hlg & Hn);
    rewrite Hlg, written_app, written_traces in Hw; simpl in Hw;
    try discriminate; now inversion Hw.
Qed.

(** *** The self-reference guard *)

(** C1. An entry whose resolved path is the destination is skipped: the
    iteration on it changes nothing, the run is the run on the traversal
    without such entries, and every member of the archive, in progress
    or written, and every callback invocation comes from an entry whose
    resolved path differs from the destination. *)
Theorem zipDir_skips_destination r s :
  run P FS inDir outFilename onFile = (r, s) ->
  (forall e s0, Filename e = outFilename -> Body e s0 = (Normal tt, s0)) /\
  run P (without IsDest FS) inDir outFilename onFile = (r, s) /\
  (forall m, In m (zip s) ->
     exists e, In e (listing FS inDir) /\ Filename e <> outFilename /\
               z_name m = Rel e) /\
  (forall a m, written (log s) = Some a -> In m (members a) ->
     exists e, In e (listing FS inDir) /\ Filename e <> outFilename /\
               z_name m = Rel e) /\
  (forall c, In c (calls (log s)) ->
     exists e, In e (listing FS inDir) /\ Filename e <> outFilename /\
               c = Rel e).
Proof.
  intros Hrun.
  assert (Hzip : forall m, In m (zip s) ->
            exists e, In e (listing FS inDir) /\ Filename e <> outFilename /\
                      z_name m = Rel e).
  { intros m Hm. destruct (zip_provenance _ _ _ Hrun Hm) as (e & He & Hc).
    apply contribution_cases in Hc.
    destruct Hc as (Hd & st & _ & [[_ ->]|(_ & _ & _ & c & _ & ->)]);
      exists e; (split; [assumption|split; [now apply is_dest_false|reflexivity]]). }
  split; [exact body_dest|]. split; [|split; [exact Hzip|split]].
  - rewrite <- Hrun. apply run_without.
    intros e s0 He. apply body_dest. now apply String.eqb_eq.
  - intros a m Hw Hm. apply (written_run _ _ _ Hrun) in Hw. subst a.
    now apply Hzip.
  - intros c Hc. destruct (calls_provenance _ _ _ Hrun Hc) as (e & He & Ht).
    apply trace_calls in Ht. destruct Ht as (Hd & _ & _ & ->).
    exists e. split; [assumption|split; [now apply is_dest_false|reflexivity]].
Qed.

(** *** Entries that are neither files nor directories *)

(** C9. An entry that is neither a regular file nor a directory is
    omitted: the iteration on it adds no member and performs no action
    (no [stat], no [readFile], no callback), and the run is the run on
    the traversal without such entries. *)
Theorem zipDir_omits_other_kinds r s :
  run P FS inDir outFilename onFile = (r, s) ->
  (forall e s0, isDirectory e = false -> isFile e = false ->
     Body e s0 = (Normal tt, s0)) /\
  (forall e, isDirectory e = false -> isFile e = false ->
     Contribution e = [] /\ Trace e = []) /\
  run P (without other_kind FS) inDir outFilename onFile = (r, s).
Proof.
  intros Hrun. split; [exact body_other_kind|]. split.
  - intros e Hd Hf. unfold contribution, trace, step.
    now rewrite (body_other_kind e initial Hd Hf).
  - rewrite <- Hrun. apply run_without.
    intros e s0 He. unfold other_kind in He.
    apply andb_true_iff in He. destruct He as [Hd Hf].
    apply negb_true_iff in Hd, Hf. now apply body_other_kind.
Qed.

(** *** The progress callback *)

Lemma normal_step_calls (e : Dirent) :
  fst (Step e) = Normal tt ->
  calls (Trace e) = map z_name (file_members (Contribution e)) /\
  calls (Trace e) = map Rel (filter (archived_file P outFilename) [e]).
Proof.
  unfold trace, contribution, archived_file. simpl.
  destruct (step_cases e) as
    [Hd|Hd Ho|st Hd Hdir Hs|err Hd Hdir Hs|st c Hd Hdir Hf Hs Hr Hcb
    |err Hd Hdir Hf Hr|st c err Hd Hdir Hf Hs Hr Hcb];
    simpl; intros Hn; try discriminate; rewrite Hd; simpl.
  - split; reflexivity.
  - unfold other_kind in Ho. apply andb_true_iff in Ho.
    destruct Ho as [_ Ho]. apply negb_true_iff in Ho. now rewrite Ho.
  - unfold isDirectory in Hdir. unfold isFile.
    destruct (kind e); try discriminate. split; reflexivity.
  - rewrite Hf. split; reflexivity.
Qed.

Lemma file_members_app (z1 z2 : list ZipObject) :
  file_members (z1 ++ z2) = file_members z1 ++ file_members z2.
Proof. apply filter_app. Qed.

Lemma normal_steps_calls (es : list Dirent) :
  Forall (fun e => fst (Step e) = Normal tt) es ->
  calls (flat_map Trace es) = map z_name (file_members (flat_map Contribution es)) /\
  calls (flat_map Trace es) = map Rel (filter (archived_file P outFilename) es).
Proof.
  induction 1 as [|e es He _ [IH1 IH2]]; simpl; [split; reflexivity|].
  destruct (normal_step_calls e He) as [H1 H2].
  rewrite calls_app, file_members_app, map_app, <- H1, <- IH1.
  split; [reflexivity|].
  rewrite IH2, H2. simpl.
  destruct (archived_file P outFilename e); reflexivity.
Qed.


(** *** Closing the traversal *)

Lemma not_ERR_DIR_CLOSED_spec (err : JsError) :
  not_ERR_DIR_CLOSED err = true <-> code err <> Some "ERR_DIR_CLOSED"%string.
Proof.
  unfold not_ERR_DIR_CLOSED. destruct (code err) as [c|].
  - rewrite negb_true_iff, String.eqb_neq. split; congruence.
  - split; [discriminate|reflexivity].
Qed.

(** The run, one step at a time. *)
Lemma run_unfold :
  run P FS inDir outFilename onFile =
  match opendir FS inDir with
  | Throw e => (Throw e, initial)
  | Normal d =>
      let (r, s1) := Loop d in
      let (c, s2) := close_entries d s1 in
      match c, r with
      | Throw e, _ => (Throw e, s2)
      | Normal _, Throw e => (Throw e, s2)
      | Normal _, Normal _ =>
          (readable <- generateNodeStream ;;
           fs_mkdir FS (dirname P outFilename) ;;
           fs_writeFile FS outFilename readable) s2
      end
  end.
Proof.
  unfold run, zipDir. unfold bind at 1, await.
  destruct (opendir FS inDir) as [d|err]; [|reflexivity].
  unfold bind at 1, new_JSZip. cbn [fst snd].
  unfold bind at 1, try_finally.
  change (for_await (dir_entries d) (dir_read_error d) Body _) with (Loop d).
  destruct (Loop d) as [r s1]. destruct (close_entries d s1) as [[u|e] s2].
  - destruct r; reflexivity.
  - reflexivity.
Qed.

Lemma close_entries_quiet (d : Dir) (s : State) :
  close_quiet d = true ->
  close_entries d s = (Normal tt, {| zip := zip s; log := log s ++ [EvClose] |}).
Proof.
  intros Hq. rewrite close_entries_eq. unfold close_quiet in Hq.
  destruct (dir_close d) as [err|]; [|reflexivity].
  apply negb_true_iff in Hq. now rewrite Hq.
Qed.

Lemma run_closing (d : Dir) :
  opendir FS inDir = Normal d -> close_quiet d = true ->
  run P (closing None FS) inDir outFilename onFile
  = run P FS inDir outFilename onFile.
Proof.
  intros Ho Hq. unfold run, zipDir, closing.
  unfold bind at 1 6, await. cbn [opendir map_dir]. rewrite Ho.
  unfold bind at 1 5, new_JSZip. cbn [fst snd].
  unfold bind at 1 4, try_finally.
  cbn [dir_entries dir_read_error].
  change (body P (map_dir _ FS) inDir outFilename onFile) with Body.
  destruct (for_await (dir_entries d) (dir_read_error d) Body _) as [r s].
  rewrite (close_entries_quiet d s Hq).
  rewrite close_entries_eq. cbn [dir_close].
  reflexivity.
Qed.

Lemma normal_step_succeeds (e : Dirent) :
  fst (Step e) = Normal tt -> Forall (succeeded FS onFile) (Trace e).
Proof.
  unfold trace.
  destruct (step_cases e) as
    [Hd|Hd Ho|st Hd Hdir Hs|err Hd Hdir Hs|st c Hd Hdir Hf Hs Hr Hcb
    |err Hd Hdir Hf Hr|st c err Hd Hdir Hf Hs Hr Hcb];
    simpl; intros Hn; try discriminate; repeat constructor; simpl; eauto.
Qed.

Lemma normal_steps_succeed (es : list Dirent) :
  Forall (fun e => fst (Step e) = Normal tt) es ->
  Forall (succeeded FS onFile) (flat_map Trace es).
Proof.
  induction 1 as [|e es He _ IH]; simpl; [constructor|].
  apply Forall_app. split; [now apply normal_step_succeeds|exact IH].
Qed.

(** C6. Once the traversal is open, every run calls [close()] exactly
    once, after the loop, however the loop ended. A rejection of
    [close()] whose code is not [ERR_DIR_CLOSED] is what the run throws;
    one whose code is [ERR_DIR_CLOSED] leaves the run as it is when
    [close()] resolves. Nothing else is swallowed: in a run that
    completes normally the iterator did not throw and every action
    performed succeeded. *)
Theorem zipDir_closes_traversal d r s :
  opendir FS inDir = Normal d ->
  run P FS inDir outFilename onFile = (r, s) ->
  (exists n tail,
     log s = flat_map Trace (firstn n (dir_entries d)) ++ EvClose :: tail /\
     filter is_close (log s) = [EvClose]) /\
  (forall err, dir_close d = Some err ->
     code err <> Some "ERR_DIR_CLOSED"%string -> r = Throw err) /\
  (forall err, dir_close d = Some err ->
     code err = Some "ERR_DIR_CLOSED"%string ->
     run P (closing None FS) inDir outFilename onFile = (r, s)) /\
  (r = Normal tt ->
     dir_read_error d = None /\ close_quiet d = true /\
     Forall (succeeded FS onFile) (log s)).
Proof.
  intros Ho Hrun. pose proof run_cases as Hc. rewrite Hrun in Hc.
  assert (Hquiet : forall err, dir_close d = Some err ->
            code err = Some "ERR_DIR_CLOSED"%string -> close_quiet d = true).
  { intros err Hcl Hcode. unfold close_quiet. rewrite Hcl.
    apply negb_true_iff. destruct (not_ERR_DIR_CLOSED err) eqn:E; [|reflexivity].
    apply not_ERR_DIR_CLOSED_spec in E. contradiction. }
  assert (Hloud : forall err, dir_close d = Some err ->
            code err <> Some "ERR_DIR_CLOSED"%string -> close_quiet d = false).
  { intros err Hcl Hcode. unfold close_quiet. rewrite Hcl.
    apply negb_false_iff. now apply not_ERR_DIR_CLOSED_spec. }
  split; [|split; [|split]].
  - inversion Hc as
      [ err Ho'
      | d' r' s' err Ho' Hl Hcl Hcode
      | d' s' err Ho' Hl Hq
      | d' s' err Ho' Hl Hq Hmk
      | d' s' err Ho' Hl Hq Hmk Hwr
      | d' s' Ho' Hl Hq Hmk Hwr ]; subst; rewrite Ho in Ho';
      try discriminate; inversion Ho'; subst d';
      destruct d as [es re ce]; apply loop_prefix in Hl;
      destruct Hl as (n & Hz & Hlg & Hn); simpl;
      exists n; eexists; rewrite Hlg;
      (split; [reflexivity|]);
      rewrite filter_app, no_close_traces; reflexivity.
  - intros err Hcl Hcode. specialize (Hloud err Hcl Hcode).
    inversion Hc as
      [ err' Ho'
      | d' r' s' err' Ho' Hl Hcl' Hcode'
      | d' s' err' Ho' Hl Hq
      | d' s' err' Ho' Hl Hq Hmk
      | d' s' err' Ho' Hl Hq Hmk Hwr
      | d' s' Ho' Hl Hq Hmk Hwr ]; subst; rewrite Ho in Ho';
      try discriminate; inversion Ho'; subst d'; try congruence.
  - intros err Hcl Hcode. rewrite <- Hrun.
    apply (run_closing d Ho). now apply (Hquiet err).
  - intros ->.
    inversion Hc as
      [ | | | | | d' s' Ho' Hl Hq Hmk Hwr ]; subst; rewrite Ho in Ho';
      inversion Ho'; subst d'.
    destruct d as [es re ce]. apply loop_prefix in Hl.
    destruct Hl as (n & Hz & Hlg & Hn). simpl in *.
    destruct (Hn eq_refl) as (Hall & Hre & Hok).
    split; [assumption|split; [assumption|]].
    rewrite Hlg, Hall. apply Forall_app. split.
    + now apply normal_steps_succeed.
    + repeat constructor; assumption.
Qed.

(** *** Archiving twice *)

Lemma contribution_dest (e : Dirent) : IsDest e = true -> Contribution e = [].
Proof.
  intros H. unfold contribution, step.
  rewrite (body_dest e initial); [reflexivity|now apply String.eqb_eq].
Qed.

Lemma flat_map_contribution_filter (es : list Dirent) :
  flat_map Contribution (filter (fun e => negb (IsDest e)) es)
  = flat_map Contribution es.
Proof.
  induction es as [|e es IH]; simpl; [reflexivity|].
  destruct (IsDest e) eqn:He; simpl.
  - now rewrite IH, contribution_dest.
  - now rewrite IH.
Qed.

(** A run that completes has written the archive. *)
Lemma written_normal s :
  run P FS inDir outFilename onFile = (Normal tt, s) ->
  written (log s) = Some (archive_of (zip s)).
Proof.
  intros Hrun. destruct (run_shape _ _ Hrun) as (n & tail & Hz & Hl & Ht & Hn).
  destruct (Hn eq_refl) as (Hall & Hok & Htail).
  rewrite Hl, written_app, written_traces, Htail. reflexivity.
Qed.

(** *** Shape and date of a member, on any host *)

Lemma member_dated r s m :
  run P FS inDir outFilename onFile = (r, s) -> In m (zip s) ->
  Members.dated P FS inDir m /\ (z_dir m = true -> z_data m = None).
Proof.
  intros Hrun Hm. destruct (zip_provenance _ _ _ Hrun Hm) as (e & He & Hc).
  apply contribution_cases in Hc.
  destruct Hc as (Hd & st & Hs & [[Hdir ->]|(Hdir & _ & _ & c & _ & ->)]).
  - split; [|reflexivity]. exists e, st. simpl. now rewrite Hdir.
  - split; [|discriminate]. exists e, st. simpl. now rewrite Hdir.
Qed.

(** *** Runs that complete *)

Lemma run_total (d : Dir) :
  opendir FS inDir = Normal d ->
  dir_read_error d = None ->
  close_quiet d = true ->
  Forall (fun e => fst (Step e) = Normal tt) (dir_entries d) ->
  mkdir FS (dirname P outFilename) = None ->
  writeFile FS outFilename
    (archive_of (flat_map Contribution (dir_entries d))) = None ->
  exists s,
    run P FS inDir outFilename onFile = (Normal tt, s) /\
    zip s = flat_map Contribution (dir_entries d) /\
    written (log s) = Some (archive_of (zip s)).
Proof.
  intros Ho Hre Hq Hok Hmk Hwr.
  rewrite run_unfold, Ho. destruct d as [es re ce]. simpl in *. subst re.
  rewrite (loop_total es ce Hok).
  rewrite close_entries_quiet by exact Hq.
  rewrite after_loop_eq. cbn [zip log]. rewrite Hmk, Hwr.
  eexists. split; [reflexivity|]. split; [reflexivity|].
  cbn [zip log]. now rewrite written_app, written_traces.
Qed.

End Run.

Section Twice.

Variable P : PathModule.
Variable FS : FileSystem.
Variable inDir : string.
Variable outFilename : string.
Variable onFile : string -> option JsError.

Local Abbreviation IsDest := (is_dest P outFilename).

Lemma listing_relisted (es : list Dirent) (d : Dir) :
  opendir FS inDir = Normal d -> listing (relisted es FS) inDir = es.
Proof. intros Ho. unfold listing, relisted; simpl. now rewrite Ho. Qed.

Lemma written_members r s a :
  run P FS inDir outFilename onFile = (r, s) ->
  r = Normal tt ->
  written (log s) = Some a ->
  members a = flat_map (contribution P FS inDir outFilename onFile)
                (filter (fun e => negb (IsDest e)) (listing FS inDir)) /\
  compression a = "DEFLATE"%string /\ level a = 9%Z.
Proof.
  intros Hrun -> Hw. rewrite (written_run _ _ _ _ _ _ _ _ Hrun Hw).
  destruct (run_shape _ _ _ _ _ _ _ Hrun) as (n & t & Hz & _ & _ & Hn).
  destruct (Hn eq_refl) as (Hall & _ & _). rewrite Hall in Hz.
  simpl. now rewrite flat_map_contribution_filter.
Qed.

(** C8. Two runs with the same destination on the same unchanged
    content, whose traversals yield the same entries in any order, up
    to entries for the destination itself, write archives with the same
    members: the same names with the same kinds, contents and dates,
    compressed the same way. *)
Theorem zipDir_twice_same_members (es : list Dirent) s1 s2 :
  Permutation (filter (fun e => negb (IsDest e)) (listing FS inDir))
              (filter (fun e => negb (IsDest e)) es) ->
  run P FS inDir outFilename onFile = (Normal tt, s1) ->
  run P (relisted es FS) inDir outFilename onFile = (Normal tt, s2) ->
  exists a1 a2,
    written (log s1) = Some a1 /\ written (log s2) = Some a2 /\
    Permutation (members a1) (members a2) /\
    compression a1 = compression a2 /\ level a1 = level a2.
Proof.
  intros Hperm H1 H2.
  pose proof (written_normal _ _ _ _ _ _ H1) as Hw1.
  pose proof (written_normal _ _ _ _ _ _ H2) as Hw2.
  eexists; eexists. split; [exact Hw1|split; [exact Hw2|]].
  destruct (written_members _ _ _ H1 eq_refl Hw1) as (M1 & C1 & L1).
  assert (Ho : exists d, opendir FS inDir = Normal d).
  { pose proof (run_cases P FS inDir outFilename onFile) as Hc.
    rewrite H1 in Hc. inversion Hc; eauto. }
  destruct Ho as [d Ho].
  destruct (run_shape _ _ _ _ _ _ _ H2) as (n & t & Hz & _ & _ & Hn).
  destruct (Hn eq_refl) as (Hall & _ & _). rewrite Hall in Hz.
  rewrite (listing_relisted es d Ho) in Hz.
  change (contribution P (relisted es FS) inDir outFilename onFile)
    with (contribution P FS inDir outFilename onFile) in Hz.
  rewrite <- flat_map_contribution_filter in Hz.
  simpl in M1 |- *. rewrite M1, Hz.
  repeat split. now apply Permutation_flat_map.
Qed.

End Twice.

End ArchiverProps.

(* ===================================================================== *)
(** ** Properties of the path models *)
(* ===================================================================== *)

Module PathProps.
Import PathSegments.
Local Open Scope string_scope.

Section Split.

Variable is_sep : ascii -> bool.

Lemma split_not_nil (s : string) : split is_sep s <> [].
Proof.
  destruct s as [|c r]; simpl; [discriminate|].
  destruct (is_sep c); [discriminate|].
  destruct (split is_sep r); discriminate.
Qed.

Lemma split_app_sep (a b : string) (c : ascii) :
  is_sep c = true ->
  split is_sep (a ++ String c b) = (split is_sep a ++ split is_sep b)%list.
Proof.
  intros Hc. induction a as [|x a IH]; simpl.
  - now rewrite Hc.
  - destruct (is_sep x).
    + now rewrite IH.
    + rewrite IH. pose proof (split_not_nil a) as Hn.
      destruct (split is_sep a) as [|seg segs]; [now elim Hn|reflexivity].
Qed.

Lemma split_sep_free (s : string) :
  sep_free is_sep s = true -> split is_sep s = [s].
Proof.
  induction s as [|c r IH]; simpl; [reflexivity|].
  intros H. apply andb_true_iff in H. destruct H as [Hc Hr].
  apply negb_true_iff in Hc. rewrite Hc, (IH Hr). reflexivity.
Qed.

Lemma split_pieces (s : string) :
  Forall (fun seg => sep_free is_sep seg = true) (split is_sep s).
Proof.
  induction s as [|c r IH]; simpl.
  - repeat constructor.
  - destruct (is_sep c) eqn:Hc.
    + constructor; [reflexivity|exact IH].
    + pose proof (split_not_nil r) as Hn.
      destruct (split is_sep r) as [|seg segs]; [now elim Hn|].
      inversion IH; subst. constructor; [|assumption].
      simpl. now rewrite Hc.
Qed.

Lemma sep_free_app (a b : string) :
  sep_free is_sep (a ++ b) = sep_free is_sep a && sep_free is_sep b.
Proof.
  induction a as [|c a IH]; simpl; [reflexivity|].
  now rewrite IH, andb_assoc.
Qed.

Lemma ends_with_sep_free (s : string) :
  sep_free is_sep s = true -> ends_with_sep is_sep s = false.
Proof.
  induction s as [|c r IH]; simpl; [reflexivity|].
  intros H. apply andb_true_iff in H. destruct H as [Hc Hr].
  destruct r; [now apply negb_true_iff|now apply IH].
Qed.

Lemma ends_with_sep_cons (c : ascii) (s : string) :
  s <> "" -> ends_with_sep is_sep (String c s) = ends_with_sep is_sep s.
Proof. destruct s; [intros H; now elim H|reflexivity]. Qed.

Lemma ends_with_sep_app (a b : string) :
  b <> "" -> ends_with_sep is_sep (a ++ b) = ends_with_sep is_sep b.
Proof.
  intros Hb. induction a as [|c a IH]; simpl; [reflexivity|].
  destruct (a ++ b) eqn:E; [|exact IH].
  destruct a; simpl in E; [now elim Hb|discriminate].
Qed.

End Split.

Lemma nonempty_spec (s : string) : nonempty s = true <-> s <> "".
Proof. unfold nonempty. rewrite negb_true_iff. apply String.eqb_neq. Qed.

Lemma plain_nonempty (s : string) : plain s = true -> nonempty s = true.
Proof.
  unfold plain. intros H. apply andb_true_iff in H. destruct H as [H _].
  apply andb_true_iff in H. tauto.
Qed.

Lemma join_cons (sep seg : string) (segs : list string) :
  segs <> [] -> join sep (seg :: segs) = seg ++ sep ++ join sep segs.
Proof. destruct segs; [intros H; now elim H|reflexivity]. Qed.

Section Join.

Variable is_sep : ascii -> bool.
Hypothesis slash_is_sep : is_sep "/" = true.

Lemma join_nonempty (segs : list string) :
  joinable is_sep segs -> segs <> [] -> join "/" segs <> "".
Proof.
  intros Hj Hn. destruct segs as [|seg rest]; [now elim Hn|].
  inversion Hj as [|? ? [Hne _] _]; subst. apply nonempty_spec in Hne.
  destruct rest; simpl; [assumption|].
  destruct seg; [now elim Hne|discriminate].
Qed.

Lemma split_join (segs : list string) :
  joinable is_sep segs -> segs <> [] -> split is_sep (join "/" segs) = segs.
Proof.
  induction segs as [|seg rest IH]; intros Hj Hn; [now elim Hn|].
  inversion Hj as [|? ? [Hne Hsf] Hrest]; subst.
  destruct rest as [|s2 rest].
  - simpl. now apply split_sep_free.
  - rewrite join_cons by discriminate.
    change (seg ++ "/" ++ join "/" (s2 :: rest))
      with (seg ++ String "/" (join "/" (s2 :: rest))).
    rewrite split_app_sep by exact slash_is_sep.
    rewrite (split_sep_free _ _ Hsf), IH; [reflexivity|assumption|discriminate].
Qed.

Lemma filter_nonempty_joinable (segs : list string) :
  joinable is_sep segs -> filter nonempty segs = segs.
Proof.
  induction 1 as [|seg rest [Hne _] _ IH]; simpl; [reflexivity|].
  now rewrite Hne, IH.
Qed.

Lemma segments_join (segs : list string) :
  joinable is_sep segs ->
  filter nonempty (split is_sep (join "/" segs)) = segs.
Proof.
  intros Hj. destruct segs as [|seg rest]; [reflexivity|].
  rewrite split_join by (assumption || discriminate).
  now apply filter_nonempty_joinable.
Qed.

Lemma forward_slashed_join (segs : list string) :
  joinable is_sep segs -> forward_slashed is_sep (join "/" segs) = true.
Proof.
  intros Hj. unfold forward_slashed.
  rewrite segments_join by assumption. apply String.eqb_refl.
Qed.

Lemma join_no_trailing_sep (segs : list string) :
  joinable is_sep segs -> ends_with_sep is_sep (join "/" segs) = false.
Proof.
  induction segs as [|seg rest IH]; intros Hj; [reflexivity|].
  inversion Hj as [|? ? [Hne Hsf] Hrest]; subst.
  destruct rest as [|s2 rest].
  - simpl. now apply ends_with_sep_free.
  - rewrite join_cons by discriminate.
    rewrite ends_with_sep_app by discriminate.
    change ("/" ++ join "/" (s2 :: rest)) with (String "/" (join "/" (s2 :: rest))).
    rewrite ends_with_sep_cons; [now apply IH|].
    apply join_nonempty; [assumption|discriminate].
Qed.

Lemma join_inj (a b : list string) :
  joinable is_sep a -> joinable is_sep b ->
  join "/" a = join "/" b -> a = b.
Proof.
  intros Ha Hb E.
  rewrite <- (segments_join a Ha), <- (segments_join b Hb). now rewrite E.
Qed.

Lemma joinable_segments (s : string) :
  joinable is_sep (filter nonempty (split is_sep s)).
Proof.
  unfold joinable. pose proof (split_pieces is_sep s) as H.
  induction H as [|seg rest Hsf _ IH]; simpl; [constructor|].
  destruct (nonempty seg) eqn:E; [constructor; [split|]; assumption|exact IH].
Qed.

Lemma joinable_app (a b : list string) :
  joinable is_sep (a ++ b) <-> joinable is_sep a /\ joinable is_sep b.
Proof. apply Forall_app. Qed.

End Join.

Lemma strip_common_suffix (a b : list string) :
  exists pre, b = (pre ++ snd (strip_common a b))%list.
Proof.
  revert b. induction a as [|x a IH]; intros b.
  - exists []. destruct b; reflexivity.
  - destruct b as [|y b]; [exists []; reflexivity|]. simpl.
    destruct (String.eqb x y).
    + destruct (IH b) as [pre Hpre]. exists (y :: pre). simpl. now f_equal.
    + exists []. reflexivity.
Qed.

Lemma strip_common_prefix (a p : list string) :
  strip_common a (a ++ p) = ([], p).
Proof.
  induction a as [|x a IH]; simpl.
  - destruct p; reflexivity.
  - now rewrite String.eqb_refl.
Qed.

End PathProps.

(* ===================================================================== *)
(** ** Members on a POSIX host and on a Windows host *)
(* ===================================================================== *)

Module HostProps.
Import Archiver PathSegments PathProps Members Samples.
Local Open Scope string_scope.

Lemma joinable_dots (n : nat) : joinable Posix.is_sep (repeat ".." n).
Proof. induction n; simpl; constructor; [split; reflexivity|assumption]. Qed.

(** [path.posix.relative] always answers with non-empty segments joined
    by slashes. *)
Lemma posix_relative_joinable (cwd from to : string) :
  exists segs,
    Posix.relative cwd from to = join "/" segs /\ joinable Posix.is_sep segs.
Proof.
  unfold Posix.relative.
  destruct (String.eqb from to); [exists []; split; [reflexivity|constructor]|].
  destruct (String.eqb _ _); [exists []; split; [reflexivity|constructor]|].
  destruct (strip_common _ _) as [up down] eqn:E.
  exists (repeat ".." (length up) ++ down)%list. split; [reflexivity|].
  apply joinable_app. split; [apply joinable_dots|].
  pose proof (strip_common_suffix
                (Posix.segments (Posix.resolve_args cwd [from]))
                (Posix.segments (Posix.resolve_args cwd [to]))) as [pre Hpre].
  rewrite E in Hpre. simpl in Hpre.
  pose proof (joinable_segments Posix.is_sep (Posix.resolve_args cwd [to])) as Hj.
  unfold Posix.segments in Hpre. rewrite Hpre in Hj.
  now apply joinable_app in Hj.
Qed.

(** The names on a POSIX host: non-empty segments joined by slashes,
    so no trailing slash. *)
Lemma posix_relative_named (cwd from to : string) :
  forward_slashed Posix.is_sep (Posix.relative cwd from to) = true /\
  ends_with_sep Posix.is_sep (Posix.relative cwd from to) = false.
Proof.
  destruct (posix_relative_joinable cwd from to) as (segs & -> & Hj).
  split; [now apply forward_slashed_join|now apply join_no_trailing_sep].
Qed.

(** *** [path.win32] never answers with a forward slash *)

Lemma win32_sep_free_slash (s : string) :
  sep_free Win32.is_sep s = true -> sep_free Posix.is_sep s = true.
Proof.
  induction s as [|c r IH]; simpl; [reflexivity|].
  intros H. apply andb_true_iff in H. destruct H as [Hc Hr].
  rewrite (IH Hr), andb_true_r.
  apply negb_true_iff in Hc. unfold Win32.is_sep in Hc.
  apply orb_false_iff in Hc. destruct Hc as [Hc _].
  unfold Posix.is_sep. now rewrite Hc.
Qed.

Lemma slash_free_join (segs : list string) :
  Forall (fun seg => sep_free Posix.is_sep seg = true) segs ->
  sep_free Posix.is_sep (join Win32.SEP segs) = true.
Proof.
  induction 1 as [|seg rest Hs _ IH]; [reflexivity|].
  destruct rest as [|s2 rest]; [exact Hs|].
  rewrite join_cons by discriminate.
  rewrite !sep_free_app, Hs, IH. reflexivity.
Qed.

Lemma normalize_Forall (Q : string -> Prop) (b : bool)
  (stack segs : list string) :
  Q ".." -> Forall Q stack -> Forall Q segs ->
  Forall Q (normalize b stack segs).
Proof.
  intros Hdd Hs H. revert stack Hs.
  induction H as [|seg segs Hq _ IH]; intros stack Hs; simpl.
  - now apply Forall_rev.
  - destruct (String.eqb seg "" || String.eqb seg "."); [now apply IH|].
    destruct (String.eqb seg "..").
    + destruct stack as [|top below].
      * destruct b; apply IH; repeat constructor; assumption.
      * destruct (String.eqb top "..").
        -- apply IH. now constructor.
        -- apply IH. now inversion Hs.
    + apply IH. now constructor.
Qed.

Lemma device_slash_free (p : string) :
  sep_free Posix.is_sep (fst (Win32.device p)) = true.
Proof.
  unfold Win32.device. destruct p as [|c [|colon r]]; try reflexivity.
  destruct (Win32.is_letter c) eqn:Hl; [|reflexivity].
  destruct (Ascii.eqb_spec colon ":") as [->|Hc]; [|reflexivity].
  cbn [andb fst sep_free].
  destruct (Ascii.eqb_spec c "/") as [->|Hn]; [vm_compute in Hl; discriminate|].
  apply Ascii.eqb_neq in Hn. unfold Posix.is_sep. rewrite Hn. reflexivity.
Qed.

Lemma resolve_step_dev (p : string) (st : string * string * bool) :
  sep_free Posix.is_sep (fst (fst st)) = true ->
  sep_free Posix.is_sep (fst (fst (Win32.resolve_step p st))) = true.
Proof.
  destruct st as [[dev tail] abs]. unfold Win32.resolve_step.
  pose proof (device_slash_free p) as Hd.
  destruct (Win32.device p) as [d t]. cbn [fst] in Hd |- *. intros H.
  destruct (_ && _ && _); [exact H|].
  destruct abs; cbn [fst]; destruct (nonempty dev); assumption.
Qed.

Lemma resolve_loop_dev (cwd : string) (args : list string)
  (st : string * string * bool) :
  sep_free Posix.is_sep (fst (fst st)) = true ->
  sep_free Posix.is_sep (fst (fst (Win32.resolve_loop cwd args st))) = true.
Proof.
  revert st. induction args as [|p rest IH]; intros st H; simpl.
  - destruct st as [[dev tail] abs]. destruct (Win32.device cwd) as [d t].
    destruct (_ && _); now apply resolve_step_dev.
  - destruct (String.eqb p ""); [now apply IH|].
    destruct (Win32.resolved _); [|apply IH]; now apply resolve_step_dev.
Qed.

Lemma win32_resolve_slash_free (cwd : string) (args : list string) :
  sep_free Posix.is_sep (Win32.resolve_args cwd args) = true.
Proof.
  unfold Win32.resolve_args.
  pose proof (resolve_loop_dev cwd (rev args) ("", "", false) eq_refl) as H.
  destruct (Win32.resolve_loop cwd (rev args) _) as [[dev tail] abs].
  cbn [fst] in H.
  assert (Hn : sep_free Posix.is_sep
                 (join Win32.SEP
                    (normalize (negb abs) [] (split Win32.is_sep tail))) = true).
  { apply slash_free_join.
    apply normalize_Forall; [reflexivity|constructor|].
    eapply Forall_impl; [|apply (split_pieces Win32.is_sep)].
    intros seg Hseg. now apply win32_sep_free_slash. }
  destruct abs.
  - rewrite !sep_free_app, H, Hn. reflexivity.
  - destruct (nonempty _); [|reflexivity].
    rewrite sep_free_app, H, Hn. reflexivity.
Qed.

Lemma strip_common_ci_Forall (Q : string -> Prop) (from to : list string) :
  Forall Q to -> Forall Q (snd (Win32.strip_common_ci from to)).
Proof.
  revert to. induction from as [|f from IH]; intros to H; simpl.
  - exact H.
  - destruct to as [|t to]; [exact H|].
    destruct (String.eqb _ _); [|exact H].
    apply IH. now inversion H.
Qed.

Lemma win32_relative_slash_free (cwd from to : string) :
  sep_free Posix.is_sep (Win32.relative cwd from to) = true.
Proof.
  unfold Win32.relative.
  destruct (String.eqb from to); [reflexivity|].
  destruct (String.eqb _ _); [reflexivity|].
  pose proof (win32_resolve_slash_free cwd [to]) as Hto.
  assert (Hseg : Forall (fun seg => sep_free Posix.is_sep seg = true)
                   (Win32.segments (Win32.resolve_args cwd [to]))).
  { apply Forall_forall. intros seg Hin. unfold Win32.segments in Hin.
    apply filter_In in Hin. destruct Hin as [Hin _].
    pose proof (split_pieces Win32.is_sep (Win32.resolve_args cwd [to])) as Hp.
    rewrite Forall_forall in Hp. now apply win32_sep_free_slash, Hp. }
  pose proof (strip_common_ci_Forall _
                (Win32.segments (Win32.resolve_args cwd [from])) _ Hseg) as Hdown.
  destruct (Win32.segments (Win32.resolve_args cwd [from])) as [|fd fs];
    [exact Hto|].
  destruct (Win32.segments (Win32.resolve_args cwd [to])) as [|td ts];
    [exact Hto|].
  destruct (String.eqb _ _); [|exact Hto].
  destruct (Win32.strip_common_ci (fd :: fs) (td :: ts)) as [up down].
  cbn [snd] in Hdown.
  apply slash_free_join. apply Forall_app. split; [|exact Hdown].
  apply Forall_forall. intros seg Hin. apply repeat_spec in Hin. now subst.
Qed.

(** C7, host by host. On every host, a directory member has no content,
    the date of a member is the modification time [stat] gave for its
    entry, and its name is the host's [path.relative] of the entry,
    unchanged. On a POSIX host the name is made of non-empty segments
    joined by forward slashes and has no trailing slash. On a Windows
    host the name holds no forward slash at all, so none at its end:
    what separates its segments is the backslash. *)
Theorem member_invariant_on_hosts (P : PathModule) (FS : FileSystem)
  (inDir outFilename : string) (onFile : string -> option JsError) r s m :
  run P FS inDir outFilename onFile = (r, s) ->
  In m (zip s) ->
  dated P FS inDir m /\
  (z_dir m = true -> z_data m = None) /\
  (forall cwd, P = Posix.module cwd ->
     well_named Posix.is_sep m /\
     ends_with_sep Posix.is_sep (z_name m) = false) /\
  (forall cwd, P = Win32.module cwd ->
     sep_free Posix.is_sep (z_name m) = true /\
     ends_with_sep Posix.is_sep (z_name m) = false).
Proof.
  intros Hrun Hm.
  destruct (ArchiverProps.member_dated _ _ _ _ _ _ _ _ Hrun Hm) as [Hd Hnull].
  split; [exact Hd|]. split; [exact Hnull|].
  destruct Hd as (e & st & _ & Hname & _).
  split; intros cwd ->; unfold well_named; rewrite !Hname.
  - exact (posix_relative_named cwd inDir (filename (Posix.module cwd) e)).
  - assert (Hf : sep_free Posix.is_sep
                   (relativeFilename (Win32.module cwd) inDir e) = true)
      by apply win32_relative_slash_free.
    split; [exact Hf|]. now apply ends_with_sep_free.
Qed.

End HostProps.

(* ===================================================================== *)
(** ** Resolving paths on a POSIX host *)
(* ===================================================================== *)

Module PosixProps.
Import PathSegments PathProps.
Local Open Scope string_scope.

Lemma normalize_app (b : bool) (stack l1 l2 : list string) :
  normalize b stack (l1 ++ l2)%list
  = normalize b (rev (normalize b stack l1)) l2.
Proof.
  revert stack. induction l1 as [|seg l1 IH]; intros stack; simpl.
  - now rewrite rev_involutive.
  - destruct (String.eqb seg "" || String.eqb seg "."); [apply IH|].
    destruct (String.eqb seg "..").
    + destruct stack as [|top below].
      * destruct b; apply IH.
      * destruct (String.eqb top ".."); apply IH.
    + apply IH.
Qed.

Lemma plain_spec (seg : string) :
  plain seg = true ->
  String.eqb seg "" = false /\ String.eqb seg "." = false /\
  String.eqb seg ".." = false.
Proof.
  unfold plain, nonempty. intros H.
  apply andb_true_iff in H. destruct H as [H H3].
  apply andb_true_iff in H. destruct H as [H1 H2].
  apply negb_true_iff in H1, H2, H3. tauto.
Qed.

Lemma normalize_plain (b : bool) (stack segs : list string) :
  Forall (fun seg => plain seg = true) segs ->
  normalize b stack segs = (rev stack ++ segs)%list.
Proof.
  intros H. revert stack. induction H as [|seg segs Hp _ IH]; intros stack; simpl.
  - now rewrite app_nil_r.
  - destruct (plain_spec seg Hp) as (E1 & E2 & E3). rewrite E1, E2, E3. simpl.
    rewrite IH. simpl. now rewrite <- app_assoc.
Qed.

(** Below the root, what [normalize] keeps is what it was given: plain
    segments. *)
Lemma normalize_keeps (Q : string -> Prop) (stack segs : list string) :
  (forall seg, Q seg -> plain seg = true) ->
  Forall Q stack ->
  Forall (fun seg => plain seg = true -> Q seg) segs ->
  Forall Q (normalize false stack segs).
Proof.
  intros HQ Hs H. revert stack Hs.
  induction H as [|seg segs Hq _ IH]; intros stack Hs; simpl.
  - now apply Forall_rev.
  - destruct (String.eqb seg "") eqn:E1; [now apply IH|].
    destruct (String.eqb seg ".") eqn:E2; [now apply IH|]. simpl.
    destruct (String.eqb seg "..") eqn:E3.
    + destruct stack as [|top below]; [now apply IH|].
      inversion Hs as [|? ? Htop Hbelow]; subst.
      destruct (plain_spec top (HQ top Htop)) as (_ & _ & E). rewrite E.
      now apply IH.
    + apply IH. constructor; [|assumption]. apply Hq.
      unfold plain, nonempty. now rewrite E1, E2, E3.
Qed.

Lemma absolute_segments_named (p : string) :
  Forall Posix.named (Posix.absolute_segments p).
Proof.
  unfold Posix.absolute_segments.
  apply normalize_keeps; [now intros seg [Hp _]|constructor|].
  pose proof (split_pieces Posix.is_sep p) as H.
  induction H; constructor; [intros Hp; split; assumption|assumption].
Qed.

Lemma named_joinable (segs : list string) :
  Forall Posix.named segs -> joinable Posix.is_sep segs.
Proof.
  induction 1 as [|seg segs [Hp Hs] _ IH]; constructor; [|assumption].
  split; [now apply plain_nonempty|assumption].
Qed.

Lemma named_plain (segs : list string) :
  Forall Posix.named segs -> Forall (fun seg => plain seg = true) segs.
Proof. induction 1 as [|seg segs [Hp _] _ IH]; constructor; assumption. Qed.

Lemma split_trailing (p : string) :
  split Posix.is_sep (p ++ "/") = (split Posix.is_sep p ++ [""])%list.
Proof. now rewrite split_app_sep. Qed.

Lemma normalize_trailing (stack segs : list string) :
  normalize false stack (segs ++ [""])%list = normalize false stack segs.
Proof. rewrite normalize_app. simpl. apply rev_involutive. Qed.

Section Cwd.

Variable cwd : string.

Lemma isAbsolute_nonempty (p : string) :
  Posix.isAbsolute p = true -> String.eqb p "" = false.
Proof. destruct p; [discriminate|reflexivity]. Qed.

(** An absolute path resolves to its own segments, whatever [cwd]. *)
Lemma resolve_args_absolute (p : string) :
  Posix.isAbsolute p = true ->
  Posix.resolve_args cwd [p] = "/" ++ join "/" (Posix.absolute_segments p).
Proof.
  intros Ha. unfold Posix.resolve_args. simpl.
  rewrite (isAbsolute_nonempty p Ha), Ha. simpl negb. cbv iota.
  change (p ++ "/" ++ "") with (p ++ "/").
  rewrite split_trailing, normalize_trailing. reflexivity.
Qed.

(** A relative name resolved against an absolute directory. *)
Lemma resolve_name (parent nm : string) :
  Posix.isAbsolute parent = true -> Posix.named nm ->
  Posix.resolve cwd parent nm
  = "/" ++ join "/" (Posix.absolute_segments parent ++ [nm])%list.
Proof.
  intros Ha [Hp Hs]. unfold Posix.resolve, Posix.resolve_args. simpl.
  destruct (plain_spec nm Hp) as (E1 & _ & _). rewrite E1.
  assert (Hrel : Posix.isAbsolute nm = false).
  { destruct nm as [|c r]; [reflexivity|]. simpl in *.
    apply andb_true_iff in Hs. destruct Hs as [Hc _].
    now apply negb_true_iff in Hc. }
  rewrite Hrel, (isAbsolute_nonempty parent Ha), Ha. simpl negb. cbv iota.
  change (parent ++ "/" ++ nm ++ "/" ++ "") with (parent ++ String "/" (nm ++ "/")).
  rewrite split_app_sep by reflexivity.
  rewrite split_trailing, (split_sep_free _ _ Hs).
  rewrite normalize_app. fold (Posix.absolute_segments parent).
  rewrite normalize_trailing.
  rewrite normalize_plain by (repeat constructor; assumption).
  now rewrite rev_involutive.
Qed.

(** The path of something below an absolute directory resolves to the
    segments of the directory followed by those of the way down. *)
Lemma absolute_segments_below (dir : string) (rel : list string) :
  Forall Posix.named rel -> rel <> [] ->
  Posix.absolute_segments (dir ++ "/" ++ join "/" rel)
  = (Posix.absolute_segments dir ++ rel)%list.
Proof.
  intros Hn Hne. unfold Posix.absolute_segments.
  change (dir ++ "/" ++ join "/" rel) with (dir ++ String "/" (join "/" rel)).
  rewrite split_app_sep by reflexivity.
  rewrite split_join by (try reflexivity; try assumption; now apply named_joinable).
  rewrite normalize_app, normalize_plain by now apply named_plain.
  now rewrite rev_involutive.
Qed.

Lemma absolute_segments_joined (segs : list string) :
  Forall Posix.named segs ->
  Posix.absolute_segments ("/" ++ join "/" segs) = segs.
Proof.
  intros Hn. unfold Posix.absolute_segments.
  change ("/" ++ join "/" segs) with (String "/" (join "/" segs)).
  simpl split. simpl normalize.
  destruct segs as [|seg rest]; [reflexivity|].
  rewrite split_join by (try reflexivity; try discriminate; now apply named_joinable).
  now rewrite normalize_plain by now apply named_plain.
Qed.

Lemma segments_joined (segs : list string) :
  Forall Posix.named segs -> Posix.segments ("/" ++ join "/" segs) = segs.
Proof.
  intros Hn. unfold Posix.segments.
  change ("/" ++ join "/" segs) with (String "/" (join "/" segs)).
  simpl. apply segments_join; [reflexivity|now apply named_joinable].
Qed.

(** The way down resolved against the directory. *)
Lemma resolve_below (dir : string) (rel : list string) :
  Posix.isAbsolute dir = true -> Forall Posix.named rel -> rel <> [] ->
  Posix.resolve cwd dir (join "/" rel)
  = "/" ++ join "/" (Posix.absolute_segments dir ++ rel)%list.
Proof.
  intros Ha Hn Hne.
  pose proof (named_joinable rel Hn) as Hj.
  assert (Hrel : Posix.isAbsolute (join "/" rel) = false).
  { destruct rel as [|seg rest]; [now elim Hne|].
    inversion Hj as [|? ? [Hne' Hsf] _]; subst.
    destruct seg as [|c r]; [discriminate|].
    simpl in Hsf. apply andb_true_iff in Hsf. destruct Hsf as [Hc _].
    apply negb_true_iff in Hc.
    destruct rest; simpl; exact Hc. }
  assert (Hnz : String.eqb (join "/" rel) "" = false).
  { apply String.eqb_neq. now apply (join_nonempty Posix.is_sep). }
  unfold Posix.resolve, Posix.resolve_args. simpl.
  rewrite Hnz, Hrel, (isAbsolute_nonempty dir Ha), Ha. simpl negb. cbv iota.
  change (dir ++ "/" ++ join "/" rel ++ "/" ++ "")
    with (dir ++ String "/" (join "/" rel ++ "/")).
  rewrite split_app_sep by reflexivity.
  rewrite split_trailing, split_join by (reflexivity || assumption).
  rewrite app_assoc, normalize_trailing, normalize_app.
  fold (Posix.absolute_segments dir).
  rewrite normalize_plain by now apply named_plain.
  now rewrite rev_involutive.
Qed.

(** From a directory to something below it, [relative] is the way
    down. *)
Lemma relative_below (dir : string) (rel : list string) :
  Posix.isAbsolute dir = true -> Forall Posix.named rel -> rel <> [] ->
  Posix.relative cwd dir
    ("/" ++ join "/" (Posix.absolute_segments dir ++ rel)%list)
  = join "/" rel.
Proof.
  intros Ha Hn Hne.
  pose proof (absolute_segments_named dir) as Hbase.
  assert (Hall : Forall Posix.named (Posix.absolute_segments dir ++ rel)%list)
    by (apply Forall_app; now split).
  assert (Hneq : Posix.absolute_segments dir
                 <> (Posix.absolute_segments dir ++ rel)%list).
  { intros E. apply (f_equal (@length string)) in E.
    rewrite length_app in E. destruct rel; [now elim Hne|simpl in E; lia]. }
  unfold Posix.relative.
  destruct (String.eqb_spec dir ("/" ++ join "/" (Posix.absolute_segments dir ++ rel)%list))
    as [E|_].
  { exfalso. apply Hneq. rewrite E at 1. now apply absolute_segments_joined. }
  rewrite (resolve_args_absolute dir Ha).
  rewrite (resolve_args_absolute
             ("/" ++ join "/" (Posix.absolute_segments dir ++ rel)%list) eq_refl).
  rewrite (absolute_segments_joined _ Hall).
  destruct (String.eqb_spec ("/" ++ join "/" (Posix.absolute_segments dir))
              ("/" ++ join "/" (Posix.absolute_segments dir ++ rel)%list)) as [E|_].
  { exfalso. apply Hneq. inversion E as [E'].
    apply (join_inj Posix.is_sep eq_refl); [now apply named_joinable..|exact E']. }
  rewrite (segments_joined _ Hbase), (segments_joined _ Hall).
  now rewrite strip_common_prefix.
Qed.

End Cwd.

End PosixProps.

(* ===================================================================== *)
(** ** Archiving a directory tree *)
(* ===================================================================== *)

Module TreeProps.
Import Archiver PathSegments PathProps PosixProps Tree.
Local Open Scope string_scope.

Lemma valid_name_named (c : string) : valid_name c = true -> Posix.named c.
Proof.
  unfold valid_name, Posix.named, plain. intros H.
  apply andb_true_iff in H. destruct H as [H H4].
  apply andb_true_iff in H. destruct H as [H H3].
  apply andb_true_iff in H. destruct H as [H1 H2].
  now rewrite H1, H2, H3, H4.
Qed.

Lemma find_names (nm : string) (cs : Children) (n : Node) :
  find nm cs = Some n -> In nm (names cs).
Proof.
  induction cs as [|c x rest IH]; simpl; [discriminate|].
  destruct (String.eqb_spec nm c) as [->|_]; [now left|].
  intros H. right. now apply IH.
Qed.

Lemma lookup_directory (cs : Children) (t : Z) (p : list string) :
  p <> [] -> lookup (Directory cs t) p = lookup_in cs p.
Proof. destruct p; [intros H; now elim H|reflexivity]. Qed.

Lemma lookup_app (n : Node) (a b : list string) :
  lookup n (a ++ b) =
  match lookup n a with
  | Some m => lookup m b
  | None => None
  end.
Proof.
  revert n. induction a as [|seg a IH]; intros n; simpl; [reflexivity|].
  destruct n as [c t|cs t|k t]; try reflexivity.
  destruct (find seg cs); [apply IH|reflexivity].
Qed.

(** Every node of the listing sits in the tree at its path, and its
    path is made of names. *)
Lemma listing_sound :
  (forall n, wf n -> forall p x, In (p, x) (descendants n) ->
     p <> [] /\ Forall Posix.named p /\ lookup n p = Some x) /\
  (forall cs, wf_children cs -> forall p x, In (p, x) (below cs) ->
     p <> [] /\ Forall Posix.named p /\ lookup_in cs p = Some x /\
     In (hd "" p) (names cs)).
Proof.
  apply Node_Children_ind.
  - intros c t _ p x [].
  - intros cs IH t Hwf p x Hin. simpl in Hin, Hwf.
    destruct (IH Hwf p x Hin) as (Hne & Hn & Hl & _).
    repeat split; try assumption. now rewrite lookup_directory.
  - intros k t _ p x [].
  - intros _ p x [].
  - intros c n IHn rest IHrest (Hv & Hfresh & Hwn & Hwr) p x Hin.
    simpl in Hin. destruct Hin as [E|Hin].
    + inversion E; subst. split; [discriminate|]. split.
      * constructor; [now apply valid_name_named|constructor].
      * simpl. rewrite String.eqb_refl. split; [reflexivity|now left].
    + apply in_app_or in Hin. destruct Hin as [Hin|Hin].
      * apply in_map_iff in Hin. destruct Hin as ([p' x'] & E & Hin).
        unfold under in E. simpl in E. inversion E; subst.
        destruct (IHn Hwn p' x Hin) as (Hne & Hn & Hl).
        split; [discriminate|]. split.
        { constructor; [now apply valid_name_named|assumption]. }
        simpl. rewrite String.eqb_refl. split; [assumption|now left].
      * destruct (IHrest Hwr p x Hin) as (Hne & Hn & Hl & Hhd).
        split; [assumption|]. split; [assumption|].
        destruct p as [|seg p]; [now elim Hne|]. simpl in *.
        destruct (String.eqb_spec seg c) as [->|_]; [contradiction|].
        split; [assumption|now right].
Qed.

Lemma under_injective (c : string) (l : list (list string)) :
  NoDup l -> NoDup (map (cons c) l).
Proof.
  induction 1 as [|p l Hp _ IH]; simpl; constructor; [|assumption].
  intros Hin. apply in_map_iff in Hin. destruct Hin as (q & E & Hq).
  inversion E; subst. contradiction.
Qed.

Lemma map_fst_under (c : string) (l : list (list string * Node)) :
  map fst (map (under c) l) = map (cons c) (map fst l).
Proof. rewrite !map_map. reflexivity. Qed.

(** No two nodes of the listing have the same path. *)
Lemma listing_nodup :
  (forall n, wf n -> NoDup (map fst (descendants n))) /\
  (forall cs, wf_children cs -> NoDup (map fst (below cs))).
Proof.
  apply Node_Children_ind.
  - intros c t _. constructor.
  - intros cs IH t Hwf. now apply IH.
  - intros k t _. constructor.
  - intros _. constructor.
  - intros c n IHn rest IHrest (Hv & Hfresh & Hwn & Hwr). simpl.
    rewrite map_app, map_fst_under. constructor.
    + intros Hin. apply in_app_or in Hin. destruct Hin as [Hin|Hin].
      * apply in_map_iff in Hin. destruct Hin as (p' & E & Hin).
        inversion E; subst. apply in_map_iff in Hin.
        destruct Hin as ([p x] & E' & Hin). simpl in E'. subst p.
        destruct (proj1 listing_sound n Hwn [] x Hin) as (Hne & _).
        now elim Hne.
      * apply in_map_iff in Hin. destruct Hin as ([p x] & E & Hin).
        simpl in E. subst p.
        destruct (proj2 listing_sound rest Hwr [c] x Hin) as (_ & _ & _ & Hhd).
        simpl in Hhd. contradiction.
    + apply NoDup_app.
      * apply under_injective. now apply IHn.
      * now apply IHrest.
      * intros p Hin1 Hin2.
        apply in_map_iff in Hin1. destruct Hin1 as (p' & E & _). subst p.
        apply in_map_iff in Hin2. destruct Hin2 as ([p x] & E & Hin).
        simpl in E. subst p.
        destruct (proj2 listing_sound rest Hwr (c :: p') x Hin) as (_ & _ & _ & Hhd).
        simpl in Hhd. contradiction.
Qed.

Lemma flat_map_map {A B C : Type} (g : A -> B) (f : B -> list C) (l : list A) :
  flat_map f (map g l) = flat_map (fun a => f (g a)) l.
Proof. induction l as [|a l IH]; simpl; [reflexivity|now rewrite IH]. Qed.

Lemma flat_map_ext_in {A B : Type} (f g : A -> list B) (l : list A) :
  (forall a, In a l -> f a = g a) -> flat_map f l = flat_map g l.
Proof.
  induction l as [|a l IH]; intros H; simpl; [reflexivity|].
  rewrite (H a (or_introl eq_refl)), IH; [reflexivity|].
  intros b Hb. apply H. now right.
Qed.

Lemma flat_map_unless {A B : Type} (f : A -> bool) (g : A -> list B)
  (l : list A) :
  flat_map (fun a => if f a then [] else g a) l
  = flat_map g (filter (fun a => negb (f a)) l).
Proof.
  induction l as [|a l IH]; [reflexivity|]. cbn [flat_map filter].
  destruct (f a); cbn [negb flat_map app]; now rewrite IH.
Qed.

Lemma NoDup_map_filter {A B : Type} (h : A -> B) (f : A -> bool) (l : list A) :
  NoDup (map h l) -> NoDup (map h (filter f l)).
Proof.
  induction l as [|a l IH]; intros Hnd; [constructor|]. cbn [filter].
  inversion Hnd as [|? ? Hfresh Hrest]; subst.
  destruct (f a); [|now apply IH]. cbn [map].
  constructor; [|now apply IH].
  intros Hin. apply Hfresh. apply in_map_iff in Hin.
  destruct Hin as (a' & E & Ha'). apply filter_In in Ha'.
  rewrite <- E. apply in_map. tauto.
Qed.

Lemma filter_all {A : Type} (f : A -> bool) (l : list A) :
  (forall a, In a l -> f a = true) -> filter f l = l.
Proof.
  induction l as [|a l IH]; intros H; simpl; [reflexivity|].
  rewrite (H a (or_introl eq_refl)). f_equal.
  apply IH. intros b Hb. apply H. now right.
Qed.

Section OnDisk.

Variable cwd : string.
Variable disk : Disk.
Variable inDir : string.
Variable outFilename : string.
Variable onFile : string -> option JsError.
Variable cs : Children.
Variable t : Z.

Hypothesis inDir_absolute : Posix.isAbsolute inDir = true.
Hypothesis inDir_directory : at_path cwd disk inDir = Some (Directory cs t).
Hypothesis tree_wf : wf_children cs.
Hypothesis onFile_returns : forall f, onFile f = None.

Local Abbreviation P := (Posix.module cwd).
Local Abbreviation FS := (fs cwd disk).
Local Abbreviation Entry := (dirent inDir).

Lemma root_to_inDir :
  lookup (root disk) (Posix.absolute_segments inDir) = Some (Directory cs t).
Proof.
  pose proof inDir_directory as H. unfold at_path in H.
  rewrite (resolve_args_absolute cwd inDir inDir_absolute) in H.
  now rewrite (segments_joined _ (absolute_segments_named inDir)) in H.
Qed.

Lemma path_below_absolute (rel : list string) :
  Posix.isAbsolute (path_below inDir rel) = true.
Proof.
  pose proof inDir_absolute as H. unfold path_below.
  destruct rel; [assumption|]. destruct inDir; [discriminate|exact H].
Qed.

Lemma filename_entry (p : list string) (x : Node) :
  In (p, x) (below cs) ->
  filename P (Entry (p, x)) = absolute_path inDir p.
Proof.
  intros Hin.
  destruct (proj2 listing_sound cs tree_wf p x Hin) as (Hne & Hn & _).
  pose proof (app_removelast_last "" Hne) as Hp.
  assert (Hq : Forall Posix.named (removelast p) /\ Posix.named (last p "")).
  { rewrite Hp in Hn. apply Forall_app in Hn. destruct Hn as [H1 H2].
    split; [assumption|now inversion H2]. }
  destruct Hq as [Hq Hl].
  unfold filename, absolute_path. simpl.
  change (Posix.resolve cwd (path_below inDir (removelast p)) (last p "")
          = "/" ++ join "/" (Posix.absolute_segments inDir ++ p)%list).
  rewrite (resolve_name cwd _ _ (path_below_absolute _) Hl).
  remember (removelast p) as q eqn:Eq. remember (last p "") as l eqn:El.
  rewrite Hp, app_assoc. do 3 f_equal.
  unfold path_below. destruct q as [|q qs].
  - now rewrite app_nil_r.
  - now rewrite absolute_segments_below by (assumption || discriminate).
Qed.

Lemma relativeFilename_entry (p : list string) (x : Node) :
  In (p, x) (below cs) ->
  relativeFilename P inDir (Entry (p, x)) = join "/" p.
Proof.
  intros Hin.
  destruct (proj2 listing_sound cs tree_wf p x Hin) as (Hne & Hn & _).
  unfold relativeFilename. rewrite (filename_entry p x Hin).
  now apply relative_below.
Qed.

Lemma at_path_entry (p : list string) (x : Node) :
  In (p, x) (below cs) -> at_path cwd disk (absolute_path inDir p) = Some x.
Proof.
  intros Hin.
  destruct (proj2 listing_sound cs tree_wf p x Hin) as (Hne & Hn & Hl & _).
  assert (Hall : Forall Posix.named (Posix.absolute_segments inDir ++ p)%list).
  { apply Forall_app. split; [apply absolute_segments_named|assumption]. }
  unfold at_path, absolute_path.
  rewrite (resolve_args_absolute cwd
             ("/" ++ join "/" (Posix.absolute_segments inDir ++ p)%list) eq_refl).
  rewrite (absolute_segments_joined _ Hall), (segments_joined _ Hall).
  rewrite lookup_app, root_to_inDir. now rewrite lookup_directory.
Qed.

Lemma stat_entry (p : list string) (x : Node) :
  In (p, x) (below cs) ->
  Archiver.stat FS (filename P (Entry (p, x))) = Normal {| mtime := modified_of x |}.
Proof.
  intros Hin. rewrite (filename_entry p x Hin). simpl. unfold Tree.stat.
  now rewrite (at_path_entry p x Hin).
Qed.

Lemma readFile_entry (p : list string) (c : list byte) (m : Z) :
  In (p, File c m) (below cs) ->
  Archiver.readFile FS (filename P (Entry (p, File c m))) = Normal c.
Proof.
  intros Hin. rewrite (filename_entry p _ Hin). simpl. unfold Tree.readFile.
  now rewrite (at_path_entry p _ Hin).
Qed.

Lemma is_dest_entry (p : list string) (x : Node) :
  In (p, x) (below cs) ->
  is_dest P outFilename (Entry (p, x))
  = String.eqb (absolute_path inDir p) outFilename.
Proof. intros Hin. unfold is_dest. now rewrite (filename_entry p x Hin). Qed.

(** What one iteration does on an entry of the tree. *)
Lemma step_entry (d : list string * Node) :
  In d (below cs) ->
  fst (step P FS inDir outFilename onFile (Entry d)) = Normal tt /\
  contribution P FS inDir outFilename onFile (Entry d)
  = if String.eqb (absolute_path inDir (fst d)) outFilename
    then [] else expected_member d.
Proof.
  destruct d as [p x]. intros Hin. simpl fst.
  rewrite <- (is_dest_entry p x Hin).
  pose proof (stat_entry p x Hin) as Hstat.
  pose proof (relativeFilename_entry p x Hin) as Hrel.
  unfold contribution.
  destruct (ArchiverProps.step_cases P FS inDir outFilename onFile (Entry (p, x)))
    as [Hd|Hd Ho|st Hd Hdir Hs|err Hd Hdir Hs|st c Hd Hdir Hf Hs Hr Hcb
       |err Hd Hdir Hf Hr|st c err Hd Hdir Hf Hs Hr Hcb];
    rewrite Hd; simpl.
  - split; reflexivity.
  - split; [reflexivity|]. unfold expected_member. simpl.
    destruct x as [c m|cs' m|k m]; [discriminate..|reflexivity].
  - split; [reflexivity|]. rewrite Hstat in Hs. inversion Hs; subst st.
    unfold dir_member, expected_member. rewrite Hrel. simpl.
    destruct x as [c m|cs' m|[] m]; try discriminate. reflexivity.
  - rewrite Hstat in Hs. discriminate.
  - split; [reflexivity|]. rewrite Hstat in Hs. inversion Hs; subst st.
    unfold file_member, expected_member. rewrite Hrel. simpl.
    destruct x as [c' m|cs' m|[] m]; try discriminate.
    rewrite (readFile_entry p c' m Hin) in Hr. inversion Hr; subst c'.
    reflexivity.
  - exfalso. unfold race in Hr. rewrite Hstat in Hr.
    destruct x as [c' m|cs' m|[] m]; try discriminate.
    now rewrite (readFile_entry p c' m Hin) in Hr.
  - rewrite onFile_returns in Hcb. discriminate.
Qed.

Lemma expected_names_nodup (l : list (list string * Node)) :
  Forall (fun d => Forall Posix.named (fst d)) l ->
  NoDup (map fst l) ->
  NoDup (map z_name (flat_map expected_member l)).
Proof.
  induction l as [|d l IH]; intros Hn Hnd; simpl; [constructor|].
  inversion Hn as [|? ? Hd Hl]; subst. inversion Hnd as [|? ? Hfresh Hrest]; subst.
  rewrite map_app. apply NoDup_app; [|now apply IH|].
  - unfold expected_member. destruct (snd d); simpl; repeat constructor; auto.
  - intros nm H1 H2. apply Hfresh.
    assert (E1 : nm = join "/" (fst d)).
    { unfold expected_member in H1.
      destruct (snd d); simpl in H1; intuition. }
    apply in_map_iff in H2. destruct H2 as (m & Em & Hm).
    apply in_flat_map in Hm. destruct Hm as (d' & Hd' & Hm).
    assert (E2 : z_name m = join "/" (fst d')).
    { unfold expected_member in Hm.
      destruct (snd d'); simpl in Hm; intuition; subst; reflexivity. }
    rewrite Forall_forall in Hl.
    assert (E : fst d = fst d').
    { apply (join_inj Posix.is_sep eq_refl).
      - now apply named_joinable.
      - apply named_joinable. now apply Hl.
      - congruence. }
    rewrite E. now apply in_map.
Qed.

(** The run on the tree, whether or not the destination is in it. *)
Lemma tree_run :
  (forall l, Permutation (order disk l) l) ->
  mkdir_result disk (Posix.dirname outFilename) = None ->
  (forall a, writeFile_result disk outFilename a = None) ->
  exists s a,
    run P FS inDir outFilename onFile = (Normal tt, s) /\
    written (log s) = Some a /\
    Permutation (members a)
      (flat_map expected_member
         (filter (fun d => negb (String.eqb (absolute_path inDir (fst d)) outFilename))
                 (below cs))) /\
    NoDup (map z_name (members a)).
Proof.
  intros Horder Hmk Hwr.
  set (es := order disk (map Entry (below cs))).
  assert (Ho : Archiver.opendir FS inDir
               = Normal {| dir_entries := es; dir_read_error := None;
                           dir_close := Some ERR_DIR_CLOSED |}).
  { simpl. unfold Tree.opendir. now rewrite inDir_directory. }
  assert (Hok : Forall (fun e => fst (step P FS inDir outFilename onFile e) = Normal tt) es).
  { apply (Permutation_Forall (Permutation_sym (Horder _))).
    apply Forall_forall. intros e He. apply in_map_iff in He.
    destruct He as (d & <- & Hd). now apply step_entry. }
  destruct (ArchiverProps.run_total P FS inDir outFilename onFile _ Ho
              eq_refl eq_refl Hok Hmk (Hwr _)) as (s & Hrun & Hz & Hw).
  exists s, (archive_of (zip s)). split; [assumption|]. split; [assumption|].
  assert (Hperm : Permutation (zip s)
            (flat_map expected_member
               (filter (fun d => negb (String.eqb (absolute_path inDir (fst d)) outFilename))
                       (below cs)))).
  { rewrite Hz. simpl. unfold es.
    rewrite (Permutation_flat_map _ (Horder _)), flat_map_map.
    rewrite (flat_map_ext_in _
               (fun d => if String.eqb (absolute_path inDir (fst d)) outFilename
                         then [] else expected_member d))
      by (intros d Hd; now apply step_entry).
    now rewrite flat_map_unless. }
  split; [exact Hperm|]. simpl.
  apply (Permutation_NoDup (Permutation_sym (Permutation_map z_name Hperm))).
  apply expected_names_nodup.
  - apply Forall_forall. intros [p x] Hd. apply filter_In in Hd.
    destruct Hd as [Hd _]. simpl.
    now destruct (proj2 listing_sound cs tree_wf p x Hd) as (_ & Hn & _).
  - apply NoDup_map_filter. exact (proj2 listing_nodup cs tree_wf).
Qed.

(** On the tree, resolving the name of a member against [inDir] never
    gives the destination. *)
Lemma tree_destination_left_out :
  (forall l, Permutation (order disk l) l) ->
  mkdir_result disk (Posix.dirname outFilename) = None ->
  (forall a, writeFile_result disk outFilename a = None) ->
  exists s a,
    run P FS inDir outFilename onFile = (Normal tt, s) /\
    written (log s) = Some a /\
    forall m, In m (members a) ->
      Posix.resolve cwd inDir (z_name m) <> outFilename.
Proof.
  intros Horder Hmk Hwr.
  destruct (tree_run Horder Hmk Hwr) as (s & a & Hrun & Hw & Hp & _).
  exists s, a. split; [assumption|]. split; [assumption|].
  intros m Hm. apply (Permutation_in _ Hp) in Hm.
  apply in_flat_map in Hm. destruct Hm as ([p x] & Hd & Hm).
  apply filter_In in Hd. destruct Hd as [Hd Hne].
  apply negb_true_iff, String.eqb_neq in Hne. simpl in Hne.
  destruct (proj2 listing_sound cs tree_wf p x Hd) as (Hnil & Hn & _).
  assert (E : z_name m = join "/" p).
  { unfold expected_member in Hm. simpl in Hm.
    destruct x; simpl in Hm; intuition; subst; reflexivity. }
  rewrite E, (resolve_below cwd inDir p inDir_absolute Hn Hnil).
  exact Hne.
Qed.

End OnDisk.

(** C2, for regular files and directories. When the tree under [inDir]
    does not contain the destination, the run completes and the archive
    written has, up to order, exactly one member for each directory and
    each regular file of the full recursive listing, named by its
    relative path: a directory without content, a file with its bytes,
    each with the node's modification time. No two members have the
    same name. Nodes of other kinds have no member. *)
Theorem zipDir_archives_tree (cwd : string) (disk : Disk)
  (inDir outFilename : string) (onFile : string -> option JsError)
  (cs : Children) (t : Z) :
  Posix.isAbsolute inDir = true ->
  at_path cwd disk inDir = Some (Directory cs t) ->
  wf_children cs ->
  (forall f, onFile f = None) ->
  (forall l, Permutation (order disk l) l) ->
  mkdir_result disk (Posix.dirname outFilename) = None ->
  (forall a, writeFile_result disk outFilename a = None) ->
  (forall d, In d (below cs) -> absolute_path inDir (fst d) <> outFilename) ->
  exists s a,
    run (Posix.module cwd) (fs cwd disk) inDir outFilename onFile
    = (Normal tt, s) /\
    written (log s) = Some a /\
    Permutation (members a) (flat_map expected_member (below cs)) /\
    NoDup (map z_name (members a)).
Proof.
  intros Habs Hdir Hwf Hcb Horder Hmk Hwr Hout.
  destruct (tree_run cwd disk inDir outFilename onFile cs t
              Habs Hdir Hwf Hcb Horder Hmk Hwr) as (s & a & Hrun & Hw & Hp & Hnd).
  exists s, a. repeat split; try assumption.
  rewrite Hp. rewrite filter_all; [reflexivity|].
  intros d Hd. apply negb_true_iff, String.eqb_neq. now apply Hout.
Qed.

End TreeProps.

(* ===================================================================== *)
(** ** The theorems at work on the sample hosts *)
(* ===================================================================== *)

Module Examples.
Import Archiver PathSegments Members Tree Samples.
Local Open Scope string_scope.

Lemma pair_eta {A B : Type} (x : A * B) : x = (fst x, snd x).
Proof. destruct x; reflexivity. Qed.

(** The scenario of the specification: [a.txt], [b] and [b/c.txt] are
    archived, and the callback sees the two files. *)
Example run_on_dist :
  let (r, s) := run_on dist "/proj/dist.zip" in
  r = Normal tt /\
  map z_name (zip s) = ["a.txt"; "b"; "b/c.txt"] /\
  map z_date (zip s) = [1000; 2000; 3000]%Z /\
  calls (log s) = ["a.txt"; "b/c.txt"].
Proof. vm_compute. repeat split. Qed.

(** An archive left in the directory by an earlier build stays out of
    the new one. *)
Example run_on_dist_with_zip :
  snd (run_on dist_with_zip "/proj/dist/out.zip")
  = snd (run_on dist "/proj/dist/out.zip").
Proof. vm_compute. reflexivity. Qed.

Lemma zipDir_skips_destination_witness :
  run posix
    (without (is_dest posix "/proj/dist/out.zip")
       (fs "/proj" (disk_of dist_with_zip)))
    "/proj/dist" "/proj/dist/out.zip" never_throws
  = run_on dist_with_zip "/proj/dist/out.zip".
Proof.
  destruct (ArchiverProps.zipDir_skips_destination posix
              (fs "/proj" (disk_of dist_with_zip))
              "/proj/dist" "/proj/dist/out.zip" never_throws
              (fst (run_on dist_with_zip "/proj/dist/out.zip"))
              (snd (run_on dist_with_zip "/proj/dist/out.zip")))
    as (_ & W & _).
  - vm_compute. reflexivity.
  - rewrite W. symmetry. apply pair_eta.
Defined.

Lemma zipDir_omits_other_kinds_witness :
  run posix (without other_kind (fs "/proj" (disk_of dist_with_link)))
    "/proj/dist" "/proj/dist.zip" never_throws
  = run_on dist_with_link "/proj/dist.zip".
Proof.
  destruct (ArchiverProps.zipDir_omits_other_kinds posix
              (fs "/proj" (disk_of dist_with_link))
              "/proj/dist" "/proj/dist.zip" never_throws
              (fst (run_on dist_with_link "/proj/dist.zip"))
              (snd (run_on dist_with_link "/proj/dist.zip")))
    as (_ & _ & W).
  - vm_compute. reflexivity.
  - rewrite W. symmetry. apply pair_eta.
Defined.


Lemma zipDir_closes_traversal_witness :
  fst (run posix (closing_with (Some EIO)) "/proj/dist" "/proj/dist.zip"
         never_throws) = Throw EIO.
Proof.
  destruct (ArchiverProps.zipDir_closes_traversal posix
              (closing_with (Some EIO))
              "/proj/dist" "/proj/dist.zip" never_throws
              {| dir_entries :=
                   listing (fs "/proj" (disk_of dist)) "/proj/dist";
                 dir_read_error := None;
                 dir_close := Some EIO |}
              (fst (run posix (closing_with (Some EIO)) "/proj/dist"
                      "/proj/dist.zip" never_throws))
              (snd (run posix (closing_with (Some EIO)) "/proj/dist"
                      "/proj/dist.zip" never_throws)))
    as (_ & W & _).
  - vm_compute. reflexivity.
  - vm_compute. reflexivity.
  - apply (W EIO); [reflexivity|]. simpl. intros E. inversion E.
Defined.

(** [close()] finding the handle closed does not fail the run. *)
Example already_closed_is_swallowed :
  dir_close_of_dist = Some ERR_DIR_CLOSED /\
  fst (run_on dist "/proj/dist.zip") = Normal tt.
Proof. vm_compute. split; reflexivity. Qed.

Lemma zipDir_twice_same_members_witness :
  exists a1 a2,
    written (log (snd (run_on dist "/proj/dist/out.zip"))) = Some a1 /\
    written (log (snd (run posix
                         (relisted second_traversal (fs "/proj" (disk_of dist)))
                         "/proj/dist" "/proj/dist/out.zip" never_throws)))
    = Some a2 /\
    Permutation (members a1) (members a2).
Proof.
  destruct (ArchiverProps.zipDir_twice_same_members posix
              (fs "/proj" (disk_of dist))
              "/proj/dist" "/proj/dist/out.zip" never_throws
              second_traversal
              (snd (run_on dist "/proj/dist/out.zip"))
              (snd (run posix
                      (relisted second_traversal (fs "/proj" (disk_of dist)))
                      "/proj/dist" "/proj/dist/out.zip" never_throws)))
    as (a1 & a2 & H1 & H2 & Hp & _).
  - vm_compute.
    eapply perm_trans; [apply perm_swap|].
    eapply perm_trans; [apply perm_skip; apply perm_swap|].
    apply perm_swap.
  - vm_compute. reflexivity.
  - vm_compute. reflexivity.
  - exists a1, a2. repeat split; assumption.
Defined.

Lemma member_invariant_on_hosts_witness :
  member_invariant Posix.is_sep posix (fs "/proj" (disk_of dist)) "/proj/dist"
    {| z_name := "b/c.txt"; z_data := Some (bytes "world");
       z_dir := false; z_date := 3000 |} /\
  (dated windows windows_fs "C:\proj\dist"
     {| z_name := "b\c.txt"; z_data := Some (bytes "world");
        z_dir := false; z_date := 3000 |} /\
   sep_free Posix.is_sep "b\c.txt" = true).
Proof.
  split.
  - destruct (HostProps.member_invariant_on_hosts posix
                (fs "/proj" (disk_of dist))
                "/proj/dist" "/proj/dist.zip" never_throws
                (fst (run_on dist "/proj/dist.zip"))
                (snd (run_on dist "/proj/dist.zip"))
                {| z_name := "b/c.txt"; z_data := Some (bytes "world");
                   z_dir := false; z_date := 3000 |})
      as (Hd & Hnull & Hp & _).
    + vm_compute. reflexivity.
    + vm_compute. right. right. left. reflexivity.
    + destruct (Hp "/proj" eq_refl) as [Hn Ht].
      split; [exact Hn|]. split; [|exact Hd].
      intros Hdir. split; [now apply Hnull|exact Ht].
  - destruct (HostProps.member_invariant_on_hosts windows windows_fs
                "C:\proj\dist" "C:\proj\dist.zip" never_throws
                (fst windows_run) (snd windows_run)
                {| z_name := "b\c.txt"; z_data := Some (bytes "world");
                   z_dir := false; z_date := 3000 |})
      as (Hd & _ & _ & Hw).
    + vm_compute. reflexivity.
    + vm_compute. right. left. reflexivity.
    + destruct (Hw "C:\proj" eq_refl) as [Hf _].
      split; [exact Hd|exact Hf].
Defined.

(** C7 as stated fails on a Windows host: the file [c.txt] in the
    directory [b] is archived under a name whose separator is a
    backslash. *)
Lemma windows_member_backslashed :
  In {| z_name := "b\c.txt"; z_data := Some (bytes "world");
        z_dir := false; z_date := 3000 |} (zip (snd windows_run)) /\
  ~ (forall m, In m (zip (snd windows_run)) ->
       member_invariant Win32.is_sep windows windows_fs "C:\proj\dist" m).
Proof.
  assert (Hin : In {| z_name := "b\c.txt"; z_data := Some (bytes "world");
                      z_dir := false; z_date := 3000 |} (zip (snd windows_run))).
  { vm_compute. right. left. reflexivity. }
  split; [exact Hin|].
  intros H. destruct (H _ Hin) as [Hn _].
  unfold well_named in Hn. vm_compute in Hn. discriminate.
Qed.

Lemma zipDir_archives_tree_witness :
  exists s a,
    run_on dist "/proj/dist.zip" = (Normal tt, s) /\
    written (log s) = Some a /\
    Permutation (members a) (flat_map expected_member (below dist)) /\
    NoDup (map z_name (members a)).
Proof.
  apply (TreeProps.zipDir_archives_tree "/proj" (disk_of dist)
           "/proj/dist" "/proj/dist.zip" never_throws dist 900).
  - reflexivity.
  - vm_compute. reflexivity.
  - simpl. repeat split; try reflexivity; simpl; intuition discriminate.
  - reflexivity.
  - intros l. apply Permutation_refl.
  - reflexivity.
  - reflexivity.
  - simpl. intros d [<-|[<-|[<-|[]]]]; vm_compute; discriminate.
Defined.

(** C2 as stated fails on a tree with a symbolic link: the link is in
    the full recursive listing and has no member. *)
Lemma symlink_not_archived :
  exists a,
    fst (run_on dist_with_link "/proj/dist.zip") = Normal tt /\
    written (log (snd (run_on dist_with_link "/proj/dist.zip"))) = Some a /\
    ~ lists_all a dist_with_link.
Proof.
  eexists. split; [vm_compute; reflexivity|]. split; [vm_compute; reflexivity|].
  intros H. destruct (H (["latest"], Other Symlink 5000)) as (m & Hm & Hn).
  - simpl. now left.
  - simpl in Hm, Hn.
    destruct Hm as [<-|[<-|[<-|[]]]]; vm_compute in Hn; discriminate.
Qed.

End Examples.

(* ===================================================================== *)
(** ** Failures, phases and order of a run of [zipDir] *)
(* ===================================================================== *)

Module ArchiverMore.
Import Archiver Phases.

Section Run.

Variable P : PathModule.
Variable FS : FileSystem.
Variable inDir : string.
Variable outFilename : string.
Variable onFile : string -> option JsError.

Local Abbreviation Run := (run P FS inDir outFilename onFile).
Local Abbreviation Step := (step P FS inDir outFilename onFile).
Local Abbreviation Loop := (loop P FS inDir outFilename onFile).
Local Abbreviation Contribution := (contribution P FS inDir outFilename onFile).
Local Abbreviation Trace := (trace P FS inDir outFilename onFile).
Local Abbreviation Filename := (filename P).
Local Abbreviation Rel := (relativeFilename P inDir).

Lemma loop_app (pre rest : list Dirent) (re ce : option JsError) :
  Forall (fun e => fst (Step e) = Normal tt) pre ->
  Loop {| dir_entries := pre ++ rest; dir_read_error := re; dir_close := ce |}
  = (fst (Loop {| dir_entries := rest; dir_read_error := re; dir_close := ce |}),
     extend {| zip := flat_map Contribution pre; log := flat_map Trace pre |}
       (snd (Loop {| dir_entries := rest; dir_read_error := re; dir_close := ce |}))).
Proof.
  induction 1 as [|e pre He _ IH]; simpl.
  - rewrite ArchiverProps.extend_initial_l. now destruct (Loop _).
  - rewrite ArchiverProps.loop_cons, IH. unfold contribution, trace.
    destruct (Step e) as [[u|x] d]; simpl in *; [|discriminate].
    f_equal. unfold extend; simpl. now rewrite !app_assoc.
Qed.

Lemma written_no_write (l : list Event) :
  forallb is_read l = true -> written l = None.
Proof.
  induction l as [|ev l IH]; simpl; [reflexivity|].
  intros H. apply andb_true_iff in H. destruct H as [Hev Hl].
  destruct ev; try discriminate; now apply IH.
Qed.

Lemma trace_reads (e : Dirent) : forallb is_read (Trace e) = true.
Proof.
  unfold trace. destruct (ArchiverProps.step_cases P FS inDir outFilename onFile e);
    reflexivity.
Qed.

Lemma traces_read (es : list Dirent) :
  forallb is_read (flat_map Trace es) = true.
Proof.
  induction es as [|e es IH]; simpl; [reflexivity|].
  now rewrite forallb_app, trace_reads, IH.
Qed.

(** X1. [writeFile] is attempted only after the whole traversal has
    been archived without any error: the traversal opened and did not
    throw, every iteration completed, [close()] did not fail, and
    [mkdir] succeeded. The archive handed to it holds what every entry
    contributes, in traversal order; and the run completes exactly when
    the write succeeds. A partial archive is never written. *)
Theorem written_archive_is_complete r s a :
  Run = (r, s) ->
  written (log s) = Some a ->
  exists d,
    opendir FS inDir = Normal d /\
    dir_read_error d = None /\
    close_quiet d = true /\
    Forall (fun e => fst (Step e) = Normal tt) (dir_entries d) /\
    mkdir FS (dirname P outFilename) = None /\
    a = archive_of (flat_map Contribution (dir_entries d)) /\
    (r = Normal tt <-> writeFile FS outFilename a = None).
Proof.
  intros Hrun Hw.
  pose proof (ArchiverProps.run_cases P FS inDir outFilename onFile) as Hc.
  rewrite Hrun in Hc.
  inversion Hc as
    [ err Ho
    | d r' s' err Ho Hl Hcl Hcode
    | d s' err Ho Hl Hq
    | d s' err Ho Hl Hq Hmk
    | d s' err Ho Hl Hq Hmk Hwr
    | d s' Ho Hl Hq Hmk Hwr ]; subst; simpl in Hw; try discriminate;
    destruct d as [es re ce];
    apply ArchiverProps.loop_prefix in Hl;
    destruct Hl as (n & Hz & Hlg & Hn);
    rewrite Hlg, ArchiverProps.written_app,
      (written_no_write _ (traces_read _)) in Hw;
    simpl in Hw; try discriminate;
    inversion Hw; subst a;
    destruct (Hn eq_refl) as (Hall & Hre & Hok);
    rewrite Hall in Hz;
    (exists {| dir_entries := es; dir_read_error := re; dir_close := ce |});
    simpl; rewrite Hz in *;
    (repeat split; try assumption; try discriminate; try congruence).
Qed.

(** X2. The first iteration that throws ends the loop. [close()] is
    then called and the run throws: the error of the iteration, or the
    rejection of [close()] when there is one with a code other than
    [ERR_DIR_CLOSED]. The members and actions are those of the entries
    before the failing one and the actions of the failing iteration; no
    later entry is touched, and nothing is created or written. *)
Theorem zipDir_aborts_at_first_failure d pre e post err :
  opendir FS inDir = Normal d ->
  dir_entries d = pre ++ e :: post ->
  Forall (fun x => fst (Step x) = Normal tt) pre ->
  fst (Step e) = Throw err ->
  Run = (Throw (thrown_after_close d err),
         {| zip := flat_map Contribution pre;
            log := flat_map Trace pre ++ Trace e ++ [EvClose] |}) /\
  (close_quiet d = true -> thrown_after_close d err = err) /\
  Contribution e = [] /\
  written (log (snd Run)) = None.
Proof.
  intros Ho Hes Hpre He.
  assert (Hce : Contribution e = []).
  { unfold contribution.
    destruct (ArchiverProps.step_cases P FS inDir outFilename onFile e);
      simpl in *; try discriminate; reflexivity. }
  assert (Hrun : Run = (Throw (thrown_after_close d err),
            {| zip := flat_map Contribution pre;
               log := flat_map Trace pre ++ Trace e ++ [EvClose] |})).
  { rewrite ArchiverProps.run_unfold, Ho.
    destruct d as [es re ce]. simpl in Hes. subst es.
    rewrite (loop_app pre (e :: post) re ce Hpre), ArchiverProps.loop_cons.
    unfold trace, contribution in *.
    destruct (Step e) as [[u|x] se] eqn:Hstep; simpl in He; [discriminate|].
    inversion He; subst x. cbn [fst snd].
    rewrite ArchiverProps.close_entries_eq.
    unfold thrown_after_close, extend. cbn [zip log dir_close].
    simpl in Hce. rewrite Hce, app_nil_r, <- app_assoc.
    destruct ce as [c|]; [|reflexivity].
    destruct (not_ERR_DIR_CLOSED c); reflexivity. }
  split; [exact Hrun|]. split; [|split; [exact Hce|]].
  - unfold close_quiet, thrown_after_close.
    destruct (dir_close d) as [c|]; [|reflexivity].
    destruct (not_ERR_DIR_CLOSED c); [discriminate|reflexivity].
  - rewrite Hrun. cbn [snd log].
    rewrite ArchiverProps.written_app, (written_no_write _ (traces_read _)).
    rewrite ArchiverProps.written_app, (written_no_write _ (trace_reads _)).
    reflexivity.
Qed.

Lemma trace_events (e : Dirent) (ev : Event) :
  In ev (Trace e) ->
  is_dest P outFilename e = false /\
  ((ev = EvStat (Filename e) /\ (isDirectory e || isFile e) = true) \/
   (ev = EvReadFile (Filename e) /\ isFile e = true /\ isDirectory e = false) \/
   (ev = EvOnFile (Rel e) /\ isFile e = true /\ isDirectory e = false)).
Proof.
  unfold trace.
  destruct (ArchiverProps.step_cases P FS inDir outFilename onFile e)
    as [Hd|Hd Ho|st Hd Hdir Hs|err Hd Hdir Hs|st c Hd Hdir Hf Hs Hr Hcb
       |err Hd Hdir Hf Hr|st c err Hd Hdir Hf Hs Hr Hcb];
    simpl; try tauto;
    rewrite ?Hdir, ?Hf; simpl; intuition (subst; auto).
Qed.

(** The log of a run whose traversal opened: the actions of a prefix
    of the traversal, [close()], and what follows. *)
Lemma run_log d r s :
  opendir FS inDir = Normal d ->
  Run = (r, s) ->
  exists n writes,
    log s = flat_map Trace (firstn n (dir_entries d)) ++ EvClose :: writes /\
    (writes = [] \/
     writes = [EvMkdir (dirname P outFilename)] \/
     writes = [EvMkdir (dirname P outFilename);
               EvWriteFile outFilename (archive_of (zip s))]).
Proof.
  intros Ho Hrun.
  pose proof (ArchiverProps.run_cases P FS inDir outFilename onFile) as Hc.
  rewrite Hrun in Hc.
  inversion Hc as
    [ err Ho'
    | d' r' s' err Ho' Hl Hcl Hcode
    | d' s' err Ho' Hl Hq
    | d' s' err Ho' Hl Hq Hmk
    | d' s' err Ho' Hl Hq Hmk Hwr
    | d' s' Ho' Hl Hq Hmk Hwr ]; subst; rewrite Ho in Ho';
    try discriminate; inversion Ho'; subst d';
    destruct d as [es re ce]; apply ArchiverProps.loop_prefix in Hl;
    destruct Hl as (n & Hz & Hlg & Hn); simpl;
    exists n; eexists; rewrite Hlg; (split; [reflexivity|]); tauto.
Qed.

(** X3. [stat] and [readFile] are only ever applied to the resolved
    path of an entry of the traversal that is archived: never to the
    destination, never to an entry that is neither a file nor a
    directory; and [readFile] only to file entries. *)
Theorem zipDir_reads_only_archived_entries r s p :
  Run = (r, s) ->
  (In (EvStat p) (log s) ->
     p <> outFilename /\
     exists e, In e (listing FS inDir) /\ p = Filename e /\
               archived P outFilename e = true) /\
  (In (EvReadFile p) (log s) ->
     p <> outFilename /\
     exists e, In e (listing FS inDir) /\ p = Filename e /\
               isFile e = true /\ isDirectory e = false).
Proof.
  intros Hrun.
  assert (Hin : forall ev, is_read ev = true -> In ev (log s) ->
            exists e, In e (listing FS inDir) /\ In ev (Trace e)).
  { intros ev Hev Hlog. unfold listing.
    destruct (opendir FS inDir) as [d|err] eqn:Ho.
    - destruct (run_log d r s Ho Hrun) as (n & writes & Hl & Hw).
      rewrite Hl in Hlog. apply in_app_or in Hlog. destruct Hlog as [Hlog|Hlog].
      + apply in_flat_map in Hlog. destruct Hlog as (e & He & Ht).
        exists e. split; [now apply ArchiverProps.in_firstn in He|assumption].
      + exfalso. destruct Hlog as [E|Hlog]; [subst ev; discriminate|].
        destruct Hw as [ -> | [ -> | -> ] ]; simpl in Hlog;
          intuition (subst; discriminate).
    - pose proof (ArchiverProps.run_cases P FS inDir outFilename onFile) as Hc.
      rewrite Hrun in Hc.
      inversion Hc; subst; try congruence. destruct Hlog. }
  split; intros Hp.
  - destruct (Hin (EvStat p) eq_refl Hp) as (e & He & Ht).
    apply trace_events in Ht.
    destruct Ht as (Hd & [[E Hk]|[[E _]|[E _]]]); try discriminate.
    inversion E; subst p. split.
    + now apply ArchiverProps.is_dest_false.
    + exists e. unfold archived. rewrite Hd, Hk. auto.
  - destruct (Hin (EvReadFile p) eq_refl Hp) as (e & He & Ht).
    apply trace_events in Ht.
    destruct Ht as (Hd & [[E _]|[[E [Hf Hdir]]|[E _]]]); try discriminate.
    inversion E; subst p. split.
    + now apply ArchiverProps.is_dest_false.
    + exists e. auto.
Qed.

(** X4. A run whose traversal opened works in phases. First come the
    reads and callbacks of the loop, then the one [close()], and only
    then the writes: nothing, or [mkdir] of the directory of the
    destination, or that [mkdir] followed by the one [writeFile], of the
    archive built, at the destination. Nothing is read after the first
    write. A run whose traversal did not open does nothing at all. *)
Theorem zipDir_reads_then_closes_then_writes r s :
  Run = (r, s) ->
  (exists err, opendir FS inDir = Throw err /\ r = Throw err /\ s = initial) \/
  (exists reads writes,
     log s = reads ++ EvClose :: writes /\
     forallb is_read reads = true /\
     (writes = [] \/
      writes = [EvMkdir (dirname P outFilename)] \/
      writes = [EvMkdir (dirname P outFilename);
                EvWriteFile outFilename (archive_of (zip s))])).
Proof.
  intros Hrun. destruct (opendir FS inDir) as [d|err] eqn:Ho.
  - right. destruct (run_log d r s Ho Hrun) as (n & writes & Hl & Hw).
    exists (flat_map Trace (firstn n (dir_entries d))), writes.
    split; [assumption|]. split; [apply traces_read|assumption].
  - left. exists err. split; [reflexivity|].
    pose proof (ArchiverProps.run_cases P FS inDir outFilename onFile) as Hc.
    rewrite Hrun in Hc. inversion Hc; subst; try congruence.
    split; [congruence|reflexivity].
Qed.



End Run.

End ArchiverMore.

(* ===================================================================== *)
(** ** Properties of the hooks *)
(* ===================================================================== *)

Module PluginProps.
Import Config Archiver Plugin.
Local Open Scope string_scope.

Section Hooks.

Variable isBuiltin : string -> bool.
Variable H : Host.
Variable o : AwsLambdaPluginOptions.

Local Abbreviation Config := (config isBuiltin).
Local Abbreviation ConfigResolved := (configResolved H o).
Local Abbreviation CloseBundle := (closeBundle H).
Local Abbreviation Build := (build H o).

Lemma entry_truthy_false (e : InputOption) :
  entry_truthy e = false <-> e = EntryOne "".
Proof.
  destruct e as [p|ps|m]; simpl; try (split; discriminate).
  rewrite negb_false_iff, String.eqb_eq. split; congruence.
Qed.

Lemma configResolved_disabled (c : Closure) (cfg : ResolvedConfig) :
  enabled c = false -> ConfigResolved c cfg = (Normal tt, c, []).
Proof. intros E. unfold configResolved. now rewrite E. Qed.

Lemma closeBundle_disabled (c : Closure) :
  enabled c = false -> CloseBundle c = (Normal tt, []).
Proof. intros E. unfold closeBundle. now rewrite E. Qed.

Lemma config_keeps_disabled (c : Closure) lib ro :
  enabled c = false -> enabled (fst (Config c lib ro)) = false.
Proof.
  intros E. unfold config. destruct lib as [l|]; [|reflexivity].
  destruct (entry_truthy (entry l)); [exact E|reflexivity].
Qed.

(** X6. [config] returns nothing exactly when no library entry is
    configured ([lib] absent or [false], or an empty entry string). It
    then disables the plugin for good: whatever the closure was,
    [configResolved] leaves it as it is and removes nothing,
    [closeBundle] reports and writes nothing, and a later [config] with
    an entry does not enable the plugin again. *)
Theorem no_entry_disables_plugin (c : Closure) (lib : option LibraryOptions)
  (rollupOptions : option RollupOptions) :
  (snd (Config c lib rollupOptions) = None <->
     lib = None \/ exists l, lib = Some l /\ entry l = EntryOne "") /\
  (snd (Config c lib rollupOptions) = None ->
     let c' := fst (Config c lib rollupOptions) in
     (forall cfg, ConfigResolved c' cfg = (Normal tt, c', [])) /\
     CloseBundle c' = (Normal tt, []) /\
     (forall lib2 ro2, enabled (fst (Config c' lib2 ro2)) = false)).
Proof.
  assert (Hdis : snd (Config c lib rollupOptions) = None ->
                 enabled (fst (Config c lib rollupOptions)) = false).
  { unfold config. destruct lib as [l|]; [|reflexivity].
    destruct (entry_truthy (entry l)); [discriminate|reflexivity]. }
  split.
  - unfold config. destruct lib as [l|].
    + destruct (entry_truthy (entry l)) eqn:E; simpl.
      * split; [discriminate|]. intros [Hn|(l' & Hl & He)]; [discriminate|].
        inversion Hl; subst l'. apply entry_truthy_false in He. congruence.
      * split; [|reflexivity]. intros _. right. exists l.
        split; [reflexivity|now apply entry_truthy_false].
    + simpl. split; [now left|reflexivity].
  - intros Hn. specialize (Hdis Hn). simpl. repeat split.
    + intros cfg. now apply configResolved_disabled.
    + now apply closeBundle_disabled.
    + intros lib2 ro2. now apply config_keeps_disabled.
Qed.

(** X7. With [outFilename: false] no hook touches the disk or reports
    anything: [configResolved] removes nothing and completes, the
    [closeBundle] that follows it does nothing, and so does a whole
    build. *)
Theorem outFilename_false_disables_zipping (c : Closure) (cfg : ResolvedConfig) :
  outFilename o = Some OutDisabled ->
  snd (ConfigResolved c cfg) = [] /\
  fst (fst (ConfigResolved c cfg)) = Normal tt /\
  CloseBundle (snd (fst (ConfigResolved c cfg))) = (Normal tt, []) /\
  Build cfg = (Normal tt, []).
Proof.
  intros Ho.
  assert (Hfresh : ConfigResolved fresh cfg
                   = (Normal tt, located H cfg NoArchive fresh, [])).
  { unfold configResolved. simpl. now rewrite Ho. }
  unfold build. rewrite Hfresh. simpl.
  unfold configResolved. destruct (enabled c) eqn:E; simpl.
  - rewrite Ho. simpl. unfold closeBundle. simpl. rewrite E. simpl. tauto.
  - rewrite (closeBundle_disabled c E). tauto.
Qed.

(** X8. [configResolved] removes at most one path: the archive
    destination it has just computed and stored, and only when
    [emptyOutDir] is not [false]. When that removal fails, the hook
    fails with its error; otherwise the hook completes. *)
Theorem configResolved_removes_only_destination (c : Closure)
  (cfg : ResolvedConfig) r c' acts :
  ConfigResolved c cfg = (r, c', acts) ->
  (build_emptyOutDir cfg = Some false -> acts = []) /\
  ((acts = [] /\ r = Normal tt) \/
   (exists out,
      acts = [Rm out] /\
      absOutFilename c' = ArchiveAt out /\
      build_emptyOutDir cfg <> Some false /\
      r = match rm H out with Some e => Throw e | None => Normal tt end)).
Proof.
  unfold configResolved. destruct (enabled c); simpl.
  2:{ intros E. inversion E; subst. split; [reflexivity|now left]. }
  destruct (outFilename o) as [[f|]|];
    destruct (build_emptyOutDir cfg) as [[|]|]; simpl;
    intros E; inversion E; subst; clear E;
    (split; [try reflexivity; discriminate|]);
    try (left; split; reflexivity);
    right; eexists; repeat split; discriminate.
Qed.

Lemma consistent_located (cfg : ResolvedConfig) (c : Closure) (given : option string) :
  consistent H
    (located H cfg
       (ArchiveAt (resolve3 H (config_root cfg) (build_outDir cfg)
                     (destination_name H given cfg))) c).
Proof. unfold consistent. simpl. exists cfg, given. repeat split. Qed.

(** X9. However the hooks are called, starting from the fresh closure,
    a stored archive destination always comes with the root and the
    input directory of the same resolved configuration: the three paths
    are assigned together. [closeBundle] therefore never reads an
    unassigned path. *)
Theorem reachable_closure_consistent (c : Closure) :
  reachable isBuiltin H o c ->
  consistent H c /\
  (forall out, absOutFilename c = ArchiveAt out ->
     root c <> None /\ absInDir c <> None).
Proof.
  intros Hr.
  assert (Hc : consistent H c).
  { induction Hr as [|c lib ro Hr IH|c cfg Hr IH].
    - exact I.
    - unfold config. destruct lib as [l|]; [|exact IH].
      destruct (entry_truthy (entry l)); exact IH.
    - unfold configResolved. destruct (enabled c); [|exact IH]. simpl.
      destruct (outFilename o) as [[f|]|].
      + destruct (build_emptyOutDir cfg) as [[|]|];
          exact (consistent_located cfg c (Some f)).
      + exact I.
      + destruct (build_emptyOutDir cfg) as [[|]|];
          exact (consistent_located cfg c None). }
  split; [exact Hc|].
  intros out Hout. unfold consistent in Hc. rewrite Hout in Hc.
  destruct Hc as (cfg & given & H1 & H2 & _). rewrite H1, H2.
  split; discriminate.
Qed.

Lemma normal_run_calls (P : PathModule) (FS : FileSystem)
  (inDir out : string) (onFile : string -> option JsError) (s : State) :
  run P FS inDir out onFile = (Normal tt, s) ->
  calls (log s) = map z_name (file_members (zip s)).
Proof.
  intros Hrun.
  destruct (ArchiverProps.run_shape _ _ _ _ _ _ _ Hrun)
    as (n & tail & Hz & Hl & Ht & Hn).
  destruct (Hn eq_refl) as (Hall & Hok & _). rewrite Hall in Hz, Hl.
  destruct (ArchiverProps.normal_steps_calls _ _ _ _ _ _ Hok) as [H1 _].
  now rewrite Hl, ArchiverProps.calls_app, Ht, app_nil_r, Hz.
Qed.

(** X10. A [closeBundle] that completes has either done nothing, or
    reported the two opening messages, run [zipDir] once from the
    stored input directory to the stored destination, and written one
    archive there; what it handed to [this.info] is then the two
    messages followed by the name of every file member of that archive,
    in order. *)
Theorem closeBundle_reports_what_it_archives (c : Closure) (acts : list Action) :
  CloseBundle c = (Normal tt, acts) ->
  acts = [] \/
  exists r d out s a,
    root c = Some r /\ absInDir c = Some d /\
    absOutFilename c = ArchiveAt out /\
    acts = [Info zipping_message;
            Info (filename_message (relative (host_path H) r out));
            Zip d out (Normal tt, s)] /\
    run (host_path H) (host_fs H) d out (info H) = (Normal tt, s) /\
    archives acts = [(out, a)] /\
    reported acts
    = zipping_message
      :: filename_message (relative (host_path H) r out)
      :: map z_name (file_members (members a)).
Proof.
  unfold closeBundle. destruct (enabled c); simpl; [|intros E; left; congruence].
  destruct (absOutFilename c) as [| |out] eqn:Hout; try (intros E; left; congruence).
  destruct (String.eqb out ""); [intros E; left; congruence|].
  destruct (info H zipping_message); [discriminate|].
  destruct (root c) as [r|]; [|discriminate].
  destruct (info H (filename_message (relative (host_path H) r out)));
    [discriminate|].
  destruct (absInDir c) as [d|]; [|discriminate].
  destruct (run (host_path H) (host_fs H) d out (info H)) as [rz s] eqn:Hrun.
  simpl. intros E. inversion E; subst rz acts. right.
  exists r, d, out, s, (archive_of (zip s)).
  pose proof (ArchiverProps.written_normal _ _ _ _ _ _ Hrun) as Hw.
  pose proof (normal_run_calls _ _ _ _ _ _ Hrun) as Hc.
  repeat split; simpl.
  - exact Hrun.
  - now rewrite Hw.
  - now rewrite Hc, app_nil_r.
Qed.

End Hooks.

End PluginProps.

(* ===================================================================== *)
(** ** Where the archive goes on a POSIX host *)
(* ===================================================================== *)

Module PosixHostProps.
Import Config Archiver PathSegments PathProps PosixProps Plugin.
Local Open Scope string_scope.

Lemma length_append (a b : string) :
  String.length (a ++ b) = String.length a + String.length b.
Proof. induction a as [|c a IH]; simpl; [reflexivity|now rewrite IH]. Qed.

Lemma append_assoc (a b c : string) : (a ++ b) ++ c = a ++ b ++ c.
Proof. induction a as [|x a IH]; simpl; [reflexivity|now rewrite IH]. Qed.

Lemma split_slash (a b : string) :
  split Posix.is_sep (a ++ "/" ++ b)
  = (split Posix.is_sep a ++ split Posix.is_sep b)%list.
Proof.
  change (a ++ "/" ++ b) with (a ++ String "/" b).
  now apply split_app_sep.
Qed.

Lemma normalize_empties (b : bool) (stack Z rest : list string) :
  Forall (fun s => s = "") Z ->
  normalize b stack (Z ++ rest)%list = normalize b stack rest.
Proof.
  induction 1 as [|z Z Hz _ IH]; simpl; [reflexivity|].
  subst z. simpl. exact IH.
Qed.

(** The last non-empty element of a list of segments splits it in
    three. *)
Lemma last_segment_split (l : list string) :
  filter nonempty l <> [] ->
  exists Y Z,
    l = (Y ++ [last (filter nonempty l) ""] ++ Z)%list /\
    Forall (fun s => s = "") Z.
Proof.
  induction l as [|x l IH]; simpl; [intros Hn; now elim Hn|].
  destruct (filter nonempty l) as [|y ys] eqn:E.
  - destruct (nonempty x) eqn:Hx; [|intros Hn; now elim Hn].
    intros _. exists [], l. split; [reflexivity|].
    clear - E. induction l as [|z l IH]; [constructor|].
    simpl in E. destruct (nonempty z) eqn:Hz; [discriminate|].
    constructor; [|now apply IH].
    unfold nonempty in Hz. apply negb_false_iff in Hz.
    now apply String.eqb_eq in Hz.
  - intros _. destruct IH as (Y & Z & Hl & HZ); [discriminate|].
    exists (x :: Y), Z. split; [|assumption].
    destruct (nonempty x); simpl; now rewrite Hl at 1.
Qed.

Lemma plain_zip (b : string) : plain (b ++ ".zip") = true.
Proof.
  destruct b as [|c [|d [|e b]]]; try reflexivity.
  - unfold plain, nonempty. simpl.
    destruct (Ascii.eqb c "."); reflexivity.
  - unfold plain, nonempty. simpl.
    destruct (Ascii.eqb c "."); [|reflexivity].
    destruct (Ascii.eqb d "."); reflexivity.
  - unfold plain, nonempty. simpl.
    destruct (Ascii.eqb c "."); [|reflexivity].
    destruct (Ascii.eqb d "."); reflexivity.
Qed.

Lemma not_own_zip (b : string) : b <> b ++ ".zip".
Proof.
  intros E. apply (f_equal String.length) in E.
  rewrite length_append in E. simpl in E. lia.
Qed.

Section Cwd.

Variable cwd : string.

Local Abbreviation Resolve := (Posix.resolve cwd).
Local Abbreviation ResolveArgs := (Posix.resolve_args cwd).

(** [path.resolve(a, b)] for an absolute [a], on segments. *)
Lemma resolve_raw (a b : string) :
  Posix.isAbsolute a = true ->
  Resolve a b = "/" ++ join "/" (normalize false [] (PosixHost.raw2 a b)).
Proof.
  intros Ha. pose proof (isAbsolute_nonempty a Ha) as Hne.
  unfold Posix.resolve, Posix.resolve_args, PosixHost.raw2.
  cbn [rev app Posix.resolve_loop].
  destruct (String.eqb b "") eqn:Eb.
  - rewrite Hne, Ha. cbn [negb].
    change (a ++ "/" ++ "") with (a ++ "/").
    now rewrite split_trailing, normalize_trailing.
  - destruct (Posix.isAbsolute b) eqn:Hb; cbn [negb].
    + change (b ++ "/" ++ "") with (b ++ "/").
      now rewrite split_trailing, normalize_trailing.
    + rewrite Hne, Ha. cbn [negb].
      change (a ++ "/" ++ b ++ "/" ++ "") with (a ++ "/" ++ (b ++ "/")).
      rewrite split_slash, split_trailing, app_assoc.
      now rewrite normalize_trailing.
Qed.

(** [path.resolve(a, b, c)] for an absolute [a], on segments. *)
Lemma resolve3_raw (a b c : string) :
  Posix.isAbsolute a = true ->
  ResolveArgs [a; b; c]
  = "/" ++ join "/"
      (normalize false []
         (if String.eqb c "" then PosixHost.raw2 a b
          else if Posix.isAbsolute c then split Posix.is_sep c
          else (PosixHost.raw2 a b ++ split Posix.is_sep c)%list)).
Proof.
  intros Ha. pose proof (isAbsolute_nonempty a Ha) as Hne.
  destruct (String.eqb c "") eqn:Ec.
  - rewrite <- (resolve_raw a b Ha).
    unfold Posix.resolve, Posix.resolve_args.
    cbn [rev app Posix.resolve_loop]. now rewrite Ec.
  - unfold Posix.resolve_args, PosixHost.raw2.
    cbn [rev app Posix.resolve_loop]. rewrite Ec.
    destruct (Posix.isAbsolute c) eqn:Hc; cbn [negb].
    + change (c ++ "/" ++ "") with (c ++ "/").
      now rewrite split_trailing, normalize_trailing.
    + destruct (String.eqb b "") eqn:Eb.
      * rewrite Hne, Ha. cbn [negb].
        change (a ++ "/" ++ c ++ "/" ++ "") with (a ++ "/" ++ (c ++ "/")).
        rewrite split_slash, split_trailing, app_assoc.
        now rewrite normalize_trailing.
      * destruct (Posix.isAbsolute b) eqn:Hb; cbn [negb].
        -- change (b ++ "/" ++ c ++ "/" ++ "") with (b ++ "/" ++ (c ++ "/")).
           rewrite split_slash, split_trailing, app_assoc.
           now rewrite normalize_trailing.
        -- rewrite Hne, Ha. cbn [negb].
           change (a ++ "/" ++ b ++ "/" ++ c ++ "/" ++ "")
             with (a ++ "/" ++ (b ++ "/" ++ (c ++ "/"))).
           rewrite !split_slash, split_trailing, !app_assoc.
           now rewrite normalize_trailing.
Qed.

Lemma raw_named (a b : string) :
  Forall Posix.named (normalize false [] (PosixHost.raw2 a b)).
Proof.
  apply normalize_keeps; [now intros seg [Hp _]|constructor|].
  assert (Hs : Forall (fun seg => sep_free Posix.is_sep seg = true)
                 (PosixHost.raw2 a b)).
  { unfold PosixHost.raw2.
    destruct (String.eqb b ""); [apply split_pieces|].
    destruct (Posix.isAbsolute b); [apply split_pieces|].
    apply Forall_app. split; apply split_pieces. }
  induction Hs; constructor; [intros Hp; split; assumption|assumption].
Qed.

(** Resolving three paths is resolving the third against the
    resolution of the first two. *)
Lemma resolve3_nested (a b c : string) :
  Posix.isAbsolute a = true ->
  ResolveArgs [a; b; c] = Resolve (Resolve a b) c.
Proof.
  intros Ha. rewrite (resolve3_raw a b c Ha), (resolve_raw a b Ha).
  set (segs := normalize false [] (PosixHost.raw2 a b)).
  pose proof (raw_named a b) as Hn. fold segs in Hn.
  rewrite (resolve_raw ("/" ++ join "/" segs) c eq_refl).
  unfold PosixHost.raw2.
  pose proof (absolute_segments_joined segs Hn) as Hs.
  unfold Posix.absolute_segments in Hs.
  destruct (String.eqb c ""); [now rewrite Hs|].
  destruct (Posix.isAbsolute c); [reflexivity|].
  rewrite !normalize_app, Hs. reflexivity.
Qed.

Lemma normalize_push (bb : bool) (stack rest : list string) (seg : string) :
  plain seg = true ->
  normalize bb stack (seg :: rest) = normalize bb (seg :: stack) rest.
Proof.
  intros Hp. destruct (plain_spec seg Hp) as (E1 & E2 & E3).
  simpl. now rewrite E1, E2, E3.
Qed.

Lemma normalize_pop (bb : bool) (stack rest : list string) (top : string) :
  plain top = true ->
  normalize bb (top :: stack) (".." :: rest) = normalize bb stack rest.
Proof.
  intros Hp. destruct (plain_spec top Hp) as (_ & _ & E3).
  simpl. now rewrite E3.
Qed.

(** The segments of an output directory whose last segment is a name:
    those of its parent, then the name. *)
Lemma raw_outDir (root outDir : string) :
  plain (PosixHost.basename outDir) = true ->
  exists W Z,
    PosixHost.raw2 root outDir
    = (W ++ [PosixHost.basename outDir] ++ Z)%list /\
    Forall (fun s => s = "") Z /\
    Forall (fun seg => sep_free Posix.is_sep seg = true) W /\
    sep_free Posix.is_sep (PosixHost.basename outDir) = true.
Proof.
  intros Hp. unfold PosixHost.basename, Posix.segments in *.
  assert (Hne : filter nonempty (split Posix.is_sep outDir) <> []).
  { intros E. rewrite E in Hp. discriminate. }
  destruct (last_segment_split _ Hne) as (Y & Z & Hs & HZ).
  pose proof (split_pieces Posix.is_sep outDir) as Hfree.
  rewrite Hs in Hfree. apply Forall_app in Hfree. destruct Hfree as [HY Hfree].
  apply Forall_app in Hfree. destruct Hfree as [Hb _].
  inversion Hb as [|? ? Hb' _]; subst.
  assert (Hout : String.eqb outDir "" = false).
  { destruct outDir; [now elim Hne|reflexivity]. }
  unfold PosixHost.raw2. rewrite Hout.
  destruct (Posix.isAbsolute outDir).
  - exists Y, Z. repeat split; assumption.
  - exists (split Posix.is_sep root ++ Y)%list, Z.
    rewrite Hs at 1. rewrite <- app_assoc. repeat split; try assumption.
    apply Forall_app. split; [apply split_pieces|assumption].
Qed.

Lemma sep_free_named (W : list string) :
  Forall (fun seg => sep_free Posix.is_sep seg = true) W ->
  Forall Posix.named (normalize false [] W).
Proof.
  intros Hs. apply normalize_keeps; [now intros seg [Hp _]|constructor|].
  induction Hs; constructor; [intros Hp; split; assumption|assumption].
Qed.

(** The output directory and the default destination, on segments. *)
Lemma default_destination (root outDir : string) :
  Posix.isAbsolute root = true ->
  plain (PosixHost.basename outDir) = true ->
  exists S,
    Forall Posix.named (S ++ [PosixHost.basename outDir])%list /\
    Resolve root outDir
    = "/" ++ join "/" (S ++ [PosixHost.basename outDir])%list /\
    ResolveArgs [root; outDir; "../" ++ PosixHost.basename outDir ++ ".zip"]
    = "/" ++ join "/" (S ++ [(PosixHost.basename outDir ++ ".zip")%string])%list.
Proof.
  intros Ha Hp. set (b := PosixHost.basename outDir) in *.
  destruct (raw_outDir root outDir Hp) as (W & Z & Hraw & HZ & HW & Hb).
  fold b in Hraw, Hb.
  exists (normalize false [] W). split; [|split].
  - apply Forall_app. split; [now apply sep_free_named|].
    constructor; [split; assumption|constructor].
  - rewrite (resolve_raw root outDir Ha), Hraw.
    rewrite normalize_app. cbn [app]. rewrite (normalize_push _ _ _ _ Hp).
    rewrite <- (app_nil_r Z), (normalize_empties _ _ _ _ HZ). simpl.
    now rewrite rev_involutive.
  - rewrite (resolve3_raw root outDir _ Ha).
    change (String.eqb ("../" ++ b ++ ".zip") "") with false.
    change (Posix.isAbsolute ("../" ++ b ++ ".zip")) with false. cbv iota.
    change ("../" ++ b ++ ".zip") with (".." ++ "/" ++ (b ++ ".zip")).
    rewrite split_slash.
    assert (Hbz : sep_free Posix.is_sep (b ++ ".zip") = true)
      by (rewrite sep_free_app, Hb; reflexivity).
    rewrite (split_sep_free _ _ Hbz).
    change (split Posix.is_sep "..") with [".."].
    rewrite Hraw, <- !app_assoc, normalize_app. cbn [app].
    rewrite (normalize_push _ _ _ _ Hp).
    rewrite (normalize_empties _ _ _ _ HZ).
    rewrite (normalize_pop _ _ _ _ Hp).
    rewrite (normalize_push _ _ _ _ (plain_zip b)). simpl.
    now rewrite rev_involutive.
Qed.

End Cwd.

End PosixHostProps.

(* ===================================================================== *)
(** ** A build on a POSIX disk *)
(* ===================================================================== *)

Module BuildProps.
Import Config Archiver PathSegments PathProps PosixProps Tree TreeMore Plugin.
Import PosixHostProps.
Local Open Scope string_scope.

Section Host.

Variable cwd : string.
Variable FS : FileSystem.
Variable rm : string -> option JsError.
Variable info : string -> option JsError.
Variable o : AwsLambdaPluginOptions.

Local Abbreviation Host := (PosixHost.host cwd FS rm info).

Lemma configResolved_enabled (c : Closure) (cfg : ResolvedConfig)
  (given : option string) :
  enabled c = true ->
  outFilename o = match given with Some f => Some (OutPath f) | None => None end ->
  snd (fst (configResolved Host o c cfg))
  = located Host cfg
      (ArchiveAt (Posix.resolve_args cwd
                    [config_root cfg; build_outDir cfg;
                     destination_name Host given cfg])) c.
Proof.
  intros He Ho. unfold configResolved. rewrite He, Ho. simpl.
  destruct given as [f|]; destruct (build_emptyOutDir cfg) as [[|]|];
    reflexivity.
Qed.

(** X11. On a POSIX host with an absolute root, an [outFilename] given
    as a string is resolved against the output directory, not against
    the root: the destination is the resolution of [outFilename]
    against the stored input directory. An absolute [outFilename] is
    the destination, normalised, wherever the output directory is. *)
Theorem outFilename_resolved_from_outDir (c : Closure) (cfg : ResolvedConfig)
  (f : string) :
  enabled c = true ->
  outFilename o = Some (OutPath f) ->
  Posix.isAbsolute (config_root cfg) = true ->
  let c' := snd (fst (configResolved Host o c cfg)) in
  absInDir c'
  = Some (Posix.resolve cwd (config_root cfg) (build_outDir cfg)) /\
  absOutFilename c'
  = ArchiveAt (Posix.resolve cwd
                 (Posix.resolve cwd (config_root cfg) (build_outDir cfg)) f) /\
  (Posix.isAbsolute f = true ->
   absOutFilename c'
   = ArchiveAt ("/" ++ join "/" (Posix.absolute_segments f))).
Proof.
  intros He Ho Ha. simpl.
  rewrite (configResolved_enabled c cfg (Some f) He Ho). simpl.
  rewrite (resolve3_nested cwd _ _ f Ha).
  split; [reflexivity|]. split; [reflexivity|].
  intros Hf. f_equal.
  rewrite (resolve_raw cwd (config_root cfg) (build_outDir cfg) Ha).
  rewrite (resolve_raw cwd
             ("/" ++ join "/" (normalize false []
                (PosixHost.raw2 (config_root cfg) (build_outDir cfg)))) f eq_refl).
  unfold PosixHost.raw2 at 1. now rewrite (isAbsolute_nonempty f Hf), Hf.
Qed.

(** X12. On a POSIX host with an absolute root, when [outFilename] is
    not set and the last segment [b] of the output directory is a name,
    the destination is beside the output directory and named after it:
    if the output directory resolves to [/S/b], the destination is
    [/S/b.zip]. *)
Theorem default_archive_beside_outDir (c : Closure) (cfg : ResolvedConfig) :
  enabled c = true ->
  outFilename o = None ->
  Posix.isAbsolute (config_root cfg) = true ->
  plain (PosixHost.basename (build_outDir cfg)) = true ->
  let c' := snd (fst (configResolved Host o c cfg)) in
  let b := PosixHost.basename (build_outDir cfg) in
  exists S,
    Forall Posix.named (S ++ [b])%list /\
    absInDir c' = Some ("/" ++ join "/" (S ++ [b])%list) /\
    absOutFilename c'
    = ArchiveAt ("/" ++ join "/" (S ++ [(b ++ ".zip")%string])%list).
Proof.
  intros He Ho Ha Hp. simpl.
  rewrite (configResolved_enabled c cfg None He Ho).
  destruct (default_destination cwd _ _ Ha Hp) as (S & Hn & H1 & H2).
  exists S. split; [assumption|]. split.
  - change (Some (Posix.resolve cwd (config_root cfg) (build_outDir cfg))
            = Some ("/" ++ join "/"
                      (S ++ [PosixHost.basename (build_outDir cfg)])%list)).
    now rewrite H1.
  - change (ArchiveAt
              (Posix.resolve_args cwd
                 [config_root cfg; build_outDir cfg;
                  "../" ++ PosixHost.basename (build_outDir cfg) ++ ".zip"])
            = ArchiveAt
                ("/" ++ join "/"
                   (S ++ [(PosixHost.basename (build_outDir cfg) ++ ".zip")%string])%list)).
    now rewrite H2.
Qed.

End Host.

Section OnDisk.

Variable cwd : string.
Variable disk : Disk.
Variable rm : string -> option JsError.
Variable info : string -> option JsError.
Variable o : AwsLambdaPluginOptions.
Variable cfg : ResolvedConfig.
Variable cs : Children.
Variable t : Z.
Variable given : option string.

Local Abbreviation Host := (PosixHost.host cwd (fs cwd disk) rm info).
Local Abbreviation InDir :=
  (Posix.resolve cwd (config_root cfg) (build_outDir cfg)).
Local Abbreviation Out :=
  (Posix.resolve_args cwd
     [config_root cfg; build_outDir cfg; destination_name Host given cfg]).

Hypothesis outFilename_given :
  outFilename o = match given with Some f => Some (OutPath f) | None => None end.
Hypothesis root_absolute : Posix.isAbsolute (config_root cfg) = true.
Hypothesis outDir_directory : at_path cwd disk InDir = Some (Directory cs t).
Hypothesis tree_wf : wf_children cs.
Hypothesis info_returns : forall m, info m = None.
Hypothesis rm_succeeds : forall p, rm p = None.
Hypothesis any_order : forall l, Permutation (order disk l) l.
Hypothesis mkdir_succeeds : forall p, mkdir_result disk p = None.
Hypothesis writeFile_succeeds : forall p a, writeFile_result disk p a = None.

Lemma inDir_absolute : Posix.isAbsolute InDir = true.
Proof. now rewrite (resolve_raw cwd _ _ root_absolute). Qed.

Lemma out_nonempty : String.eqb Out "" = false.
Proof. now rewrite (resolve3_raw cwd _ _ _ root_absolute). Qed.

Lemma configResolved_fresh :
  configResolved Host o fresh cfg
  = (Normal tt, located Host cfg (ArchiveAt Out) fresh,
     match build_emptyOutDir cfg with
     | Some false => []
     | _ => [Rm Out]
     end).
Proof.
  unfold configResolved. cbn [enabled fresh negb].
  rewrite outFilename_given.
  destruct given as [f|]; destruct (build_emptyOutDir cfg) as [[|]|];
    cbn [Plugin.rm PosixHost.host]; rewrite ?rm_succeeds; reflexivity.
Qed.

(** A build on the tree, wherever the destination is. *)
Lemma build_on_tree :
  exists acts a,
    build Host o cfg = (Normal tt, acts) /\
    archives acts = [(Out, a)] /\
    removed acts = match build_emptyOutDir cfg with
                   | Some false => []
                   | _ => [Out]
                   end /\
    Permutation (members a)
      (flat_map expected_member
         (filter (fun d => negb (String.eqb (absolute_path InDir (fst d)) Out))
                 (below cs))) /\
    NoDup (map z_name (members a)) /\
    reported acts
    = zipping_message
      :: filename_message (Posix.relative cwd (config_root cfg) Out)
      :: map z_name (file_members (members a)).
Proof.
  destruct (TreeProps.tree_run cwd disk InDir Out info cs t
              inDir_absolute outDir_directory tree_wf info_returns any_order
              (mkdir_succeeds _) (writeFile_succeeds _))
    as (s & a & Hrun & Hw & Hperm & Hnd).
  pose proof (PluginProps.normal_run_calls _ _ _ _ _ _ Hrun) as Hcalls.
  pose proof (ArchiverProps.written_normal _ _ _ _ _ _ Hrun) as Hw'.
  assert (Ea : a = archive_of (zip s)) by congruence.
  assert (Hclose :
            closeBundle Host (located Host cfg (ArchiveAt Out) fresh)
            = (Normal tt,
               [Info zipping_message;
                Info (filename_message (Posix.relative cwd (config_root cfg) Out));
                Zip InDir Out (Normal tt, s)])).
  { unfold closeBundle.
    cbn [enabled located fresh negb absOutFilename root absInDir].
    rewrite out_nonempty.
    cbn [Plugin.info PosixHost.host host_path host_fs Posix.module
         relative resolve].
    rewrite !info_returns, Hrun. reflexivity. }
  unfold build. rewrite configResolved_fresh, Hclose.
  eexists. exists a. split; [reflexivity|].
  assert (Harch : archives [Info zipping_message;
                    Info (filename_message (Posix.relative cwd (config_root cfg) Out));
                    Zip InDir Out (Normal tt, s)] = [(Out, a)]).
  { cbn [archives snd]. now rewrite Hw. }
  assert (Hrep : reported [Info zipping_message;
                   Info (filename_message (Posix.relative cwd (config_root cfg) Out));
                   Zip InDir Out (Normal tt, s)]
                 = zipping_message
                   :: filename_message (Posix.relative cwd (config_root cfg) Out)
                   :: map z_name (file_members (members a))).
  { cbn [reported snd]. rewrite Hcalls, app_nil_r, Ea. reflexivity. }
  destruct (build_emptyOutDir cfg) as [[|]|]; cbn [app archives removed reported];
    repeat split; try assumption; try reflexivity.
Qed.

End OnDisk.

Lemma named_zip (b : string) : Posix.named b -> Posix.named (b ++ ".zip").
Proof.
  intros [_ Hs]. split; [apply plain_zip|].
  rewrite (sep_free_app Posix.is_sep), Hs. reflexivity.
Qed.

Lemma expected_member_name (d : list string * Node) (m : ZipObject) :
  In m (expected_member d) -> z_name m = join "/" (fst d).
Proof.
  unfold expected_member. destruct (snd d); simpl; intuition; subst; reflexivity.
Qed.

(** X13. A build with the default [outFilename] on a POSIX disk, when
    the last segment [b] of the output directory is a name and the
    output directory is the tree [cs]: the build completes and writes
    one archive, beside the output directory and named [b.zip]; its
    members are, up to order, one for every directory and regular file
    of the tree, under distinct names, so the guard of [zipDir] skips
    nothing; and what is reported is the two opening messages and the
    name of every file member. *)
Theorem default_build_archives_outDir (cwd : string) (disk : Disk)
  (rm info : string -> option JsError) (o : AwsLambdaPluginOptions)
  (cfg : ResolvedConfig) (cs : Children) (t : Z) :
  outFilename o = None ->
  Posix.isAbsolute (config_root cfg) = true ->
  plain (PosixHost.basename (build_outDir cfg)) = true ->
  at_path cwd disk (Posix.resolve cwd (config_root cfg) (build_outDir cfg))
  = Some (Directory cs t) ->
  wf_children cs ->
  (forall m, info m = None) ->
  (forall p, rm p = None) ->
  (forall l, Permutation (order disk l) l) ->
  (forall p, mkdir_result disk p = None) ->
  (forall p a, writeFile_result disk p a = None) ->
  let b := PosixHost.basename (build_outDir cfg) in
  exists S acts a,
    Posix.resolve cwd (config_root cfg) (build_outDir cfg)
    = "/" ++ join "/" (S ++ [b])%list /\
    build (PosixHost.host cwd (fs cwd disk) rm info) o cfg = (Normal tt, acts) /\
    archives acts = [("/" ++ join "/" (S ++ [(b ++ ".zip")%string])%list, a)] /\
    Permutation (members a) (flat_map expected_member (below cs)) /\
    NoDup (map z_name (members a)) /\
    reported acts
    = zipping_message
      :: filename_message
           (Posix.relative cwd (config_root cfg)
              ("/" ++ join "/" (S ++ [(b ++ ".zip")%string])%list))
      :: map z_name (file_members (members a)).
Proof.
  intros Ho Ha Hp Hdir Hwf Hinfo Hrm Horder Hmk Hwr b.
  destruct (build_on_tree cwd disk rm info o cfg cs t None
              Ho Ha Hdir Hwf Hinfo Hrm Horder Hmk Hwr)
    as (acts & a & Hb & Harch & _ & Hperm & Hnd & Hrep).
  destruct (default_destination cwd _ _ Ha Hp) as (S & Hn & H1 & H2).
  fold b in Hn, H1, H2.
  cbn [destination_name Plugin.basename PosixHost.host] in Harch, Hperm, Hrep.
  fold b in Harch, Hperm, Hrep.
  rewrite H2 in Harch, Hperm, Hrep. rewrite H1 in Hperm.
  exists S, acts, a. repeat split; try assumption.
  rewrite Hperm. rewrite TreeProps.filter_all; [reflexivity|].
  intros [p x] Hd. apply negb_true_iff, String.eqb_neq. cbn [fst].
  destruct (proj2 TreeProps.listing_sound cs Hwf p x Hd) as (Hne & Hnp & _).
  unfold absolute_path. rewrite (absolute_segments_joined _ Hn).
  apply Forall_app in Hn. destruct Hn as [HS Hb1].
  inversion Hb1 as [|? ? Hbn _]; subst.
  intros E. inversion E as [E'].
  apply (join_inj Posix.is_sep eq_refl) in E'.
  - rewrite <- app_assoc in E'. apply app_inv_head in E'.
    simpl in E'. injection E' as Eb Ep. exact (not_own_zip b Eb).
  - apply named_joinable. repeat (apply Forall_app; split); assumption.
  - apply named_joinable. apply Forall_app. split; [assumption|].
    constructor; [now apply named_zip|constructor].
Qed.

Lemma is_child_spec (f : string) (p : list string) (x : Node) :
  is_child f (p, x) = true <-> p = [f].
Proof.
  unfold is_child. simpl. destruct p as [|y [|z p]]; try (split; discriminate).
  rewrite String.eqb_eq. split; congruence.
Qed.

(** X14. A build whose [outFilename] is a plain file name [f], as in
    the demo package, writes its archive into the output directory
    itself. On a POSIX disk where the output directory is the tree
    [cs], the build completes, the archive is written at [f] in the
    output directory, and its members are, up to order, one for every
    directory and regular file of the tree except the child named [f]:
    an archive left there by an earlier build is not archived, and no
    member is named [f]. *)
Theorem build_leaves_previous_archive_out (cwd : string) (disk : Disk)
  (rm info : string -> option JsError) (o : AwsLambdaPluginOptions)
  (cfg : ResolvedConfig) (cs : Children) (t : Z) (f : string) :
  outFilename o = Some (OutPath f) ->
  Posix.named f ->
  Posix.isAbsolute (config_root cfg) = true ->
  at_path cwd disk (Posix.resolve cwd (config_root cfg) (build_outDir cfg))
  = Some (Directory cs t) ->
  wf_children cs ->
  (forall m, info m = None) ->
  (forall p, rm p = None) ->
  (forall l, Permutation (order disk l) l) ->
  (forall p, mkdir_result disk p = None) ->
  (forall p a, writeFile_result disk p a = None) ->
  let inDir := Posix.resolve cwd (config_root cfg) (build_outDir cfg) in
  exists acts a,
    build (PosixHost.host cwd (fs cwd disk) rm info) o cfg = (Normal tt, acts) /\
    archives acts = [(absolute_path inDir [f], a)] /\
    Permutation (members a)
      (flat_map expected_member
         (filter (fun d => negb (is_child f d)) (below cs))) /\
    (forall m, In m (members a) -> z_name m <> f).
Proof.
  intros Ho Hf Ha Hdir Hwf Hinfo Hrm Horder Hmk Hwr inDir.
  destruct (build_on_tree cwd disk rm info o cfg cs t (Some f)
              Ho Ha Hdir Hwf Hinfo Hrm Horder Hmk Hwr)
    as (acts & a & Hb & Harch & _ & Hperm & _ & _).
  cbn [destination_name] in Harch, Hperm.
  assert (Hout : Posix.resolve_args cwd [config_root cfg; build_outDir cfg; f]
                 = absolute_path inDir [f]).
  { rewrite (resolve3_nested cwd _ _ f Ha). fold inDir.
    unfold absolute_path.
    apply resolve_name; [|assumption].
    unfold inDir. now rewrite (resolve_raw cwd _ _ Ha). }
  rewrite Hout in Harch, Hperm. fold inDir in Hperm.
  assert (Hfilter :
            filter (fun d => negb (String.eqb (absolute_path inDir (fst d))
                                     (absolute_path inDir [f]))) (below cs)
            = filter (fun d => negb (is_child f d)) (below cs)).
  { apply filter_ext_in. intros [p x] Hd. f_equal. simpl fst.
    destruct (proj2 TreeProps.listing_sound cs Hwf p x Hd) as (_ & Hnp & _).
    destruct (String.eqb_spec (absolute_path inDir p) (absolute_path inDir [f]))
      as [E|E]; symmetry.
    - apply is_child_spec. unfold absolute_path in E. inversion E as [E'].
      apply (join_inj Posix.is_sep eq_refl) in E'.
      + now apply app_inv_head in E'.
      + apply named_joinable, Forall_app.
        split; [apply absolute_segments_named|assumption].
      + apply named_joinable, Forall_app.
        split; [apply absolute_segments_named|].
        constructor; [assumption|constructor].
    - destruct (is_child f (p, x)) eqn:Ec; [|reflexivity].
      apply is_child_spec in Ec. subst p. now elim E. }
  rewrite Hfilter in Hperm.
  exists acts, a. repeat split; try assumption.
  intros m Hm Hname. apply (Permutation_in _ Hperm) in Hm.
  apply in_flat_map in Hm. destruct Hm as ([p x] & Hd & Hm).
  apply filter_In in Hd. destruct Hd as [Hd Hc].
  apply expected_member_name in Hm. simpl in Hm.
  destruct (proj2 TreeProps.listing_sound cs Hwf p x Hd) as (_ & Hnp & _).
  assert (Ep : p = [f]).
  { apply (join_inj Posix.is_sep eq_refl).
    - now apply named_joinable.
    - apply named_joinable. constructor; [assumption|constructor].
    - simpl. congruence. }
  apply negb_true_iff in Hc.
  rewrite (proj2 (is_child_spec f p x) Ep) in Hc. discriminate.
Qed.

(** X15. On a POSIX disk, the names of the members archived from a
    tree stay inside: no name is absolute, and no segment of a name is
    empty, [.] or [..], whether or not the destination is in the tree.
    Unpacking the archive cannot write outside the directory it is
    unpacked in. *)
Theorem archive_names_stay_inside (cwd : string) (disk : Disk)
  (inDir outFilename : string) (onFile : string -> option JsError)
  (cs : Children) (t : Z) :
  Posix.isAbsolute inDir = true ->
  at_path cwd disk inDir = Some (Directory cs t) ->
  wf_children cs ->
  (forall f, onFile f = None) ->
  (forall l, Permutation (order disk l) l) ->
  mkdir_result disk (Posix.dirname outFilename) = None ->
  (forall a, writeFile_result disk outFilename a = None) ->
  exists s a,
    run (Posix.module cwd) (fs cwd disk) inDir outFilename onFile
    = (Normal tt, s) /\
    written (log s) = Some a /\
    forall m, In m (members a) ->
      Posix.isAbsolute (z_name m) = false /\
      Forall (fun seg => plain seg = true) (split Posix.is_sep (z_name m)).
Proof.
  intros Habs Hdir Hwf Hcb Horder Hmk Hwr.
  destruct (TreeProps.tree_run cwd disk inDir outFilename onFile cs t
              Habs Hdir Hwf Hcb Horder Hmk Hwr)
    as (s & a & Hrun & Hw & Hperm & _).
  exists s, a. split; [assumption|]. split; [assumption|].
  intros m Hm. apply (Permutation_in _ Hperm) in Hm.
  apply in_flat_map in Hm. destruct Hm as ([p x] & Hd & Hm).
  apply filter_In in Hd. destruct Hd as [Hd _].
  apply expected_member_name in Hm. simpl in Hm.
  destruct (proj2 TreeProps.listing_sound cs Hwf p x Hd) as (Hne & Hnp & _).
  pose proof (named_joinable p Hnp) as Hj.
  rewrite Hm. split.
  - destruct p as [|seg rest]; [now elim Hne|].
    inversion Hj as [|? ? [Hne' Hsf] _]; subst.
    destruct seg as [|c r]; [discriminate|].
    simpl in Hsf. apply andb_true_iff in Hsf. destruct Hsf as [Hc _].
    apply negb_true_iff in Hc. destruct rest; simpl; exact Hc.
  - rewrite (split_join Posix.is_sep eq_refl p Hj Hne).
    now apply named_plain.
Qed.

End BuildProps.

(* ===================================================================== *)
(** ** File names of the default rule *)
(* ===================================================================== *)

Module FormatProps.
Import Config Formats.
Local Open Scope string_scope.

Lemma defaultFileName_ext (format name : string) :
  defaultFileName format name
  = name ++ (if module_format format then ".mjs" else ".js").
Proof.
  unfold defaultFileName, module_format.
  destruct (_ || _); reflexivity.
Qed.

Lemma list_of_append (a b : string) :
  list_ascii_of_string (a ++ b)
  = (list_ascii_of_string a ++ list_ascii_of_string b)%list.
Proof. induction a as [|c a IH]; simpl; [reflexivity|now rewrite IH]. Qed.

Lemma list_of_inj (a b : string) :
  list_ascii_of_string a = list_ascii_of_string b -> a = b.
Proof.
  intros E. rewrite <- (string_of_list_ascii_of_string a),
    <- (string_of_list_ascii_of_string b). now rewrite E.
Qed.

Lemma append_inv_tail (a b ext : string) : a ++ ext = b ++ ext -> a = b.
Proof.
  intros E. apply list_of_inj.
  apply (f_equal list_ascii_of_string) in E. rewrite !list_of_append in E.
  now apply app_inv_tail in E.
Qed.

Lemma snoc3 (l : list ascii) (a b c : ascii) :
  (l ++ [a; b; c] = ((l ++ [a]) ++ [b]) ++ [c])%list.
Proof. now rewrite <- !app_assoc. Qed.

Lemma snoc4 (l : list ascii) (a b c d : ascii) :
  (l ++ [a; b; c; d] = (((l ++ [a]) ++ [b]) ++ [c]) ++ [d])%list.
Proof. now rewrite <- !app_assoc. Qed.

Lemma mjs_not_js (a b : string) : a ++ ".mjs" <> b ++ ".js".
Proof.
  intros E. apply (f_equal list_ascii_of_string) in E.
  rewrite !list_of_append in E.
  cbn [list_ascii_of_string] in E. rewrite snoc4, snoc3 in E.
  apply app_inj_tail in E. destruct E as [E _].
  apply app_inj_tail in E. destruct E as [E _].
  apply app_inj_tail in E. destruct E as [_ E]. discriminate.
Qed.

(** X16. Under the default file name rule two outputs get the same
    file name exactly when they have the same entry name and their
    formats are both among es, esm and module or both outside: an es
    and a cjs build of one entry never overwrite each other, a cjs and
    an umd build of one entry do. *)
Theorem defaultFileName_same_file (f1 n1 f2 n2 : string) :
  defaultFileName f1 n1 = defaultFileName f2 n2 <->
  n1 = n2 /\ module_format f1 = module_format f2.
Proof.
  rewrite !defaultFileName_ext. split.
  - destruct (module_format f1), (module_format f2); intros E.
    + split; [now apply append_inv_tail in E|reflexivity].
    + now apply mjs_not_js in E.
    + symmetry in E. now apply mjs_not_js in E.
    + split; [now apply append_inv_tail in E|reflexivity].
  - intros [-> ->]. reflexivity.
Qed.

End FormatProps.

(* ===================================================================== *)
(** ** The further theorems at work on the sample hosts *)
(* ===================================================================== *)

Module MoreExamples.
Import Config Archiver PathSegments Members Tree Plugin Phases Samples Scenarios.
Local Open Scope string_scope.

Lemma pair_eta' {A B : Type} (x : A * B) : x = (fst x, snd x).
Proof. destruct x; reflexivity. Qed.

Lemma triple_eta {A B C : Type} (x : A * B * C) :
  x = (fst (fst x), snd (fst x), snd x).
Proof. destruct x as [[a b] c]; reflexivity. Qed.

(** The demo package: only the bundle goes into [foo.zip], and the
    build reports it. *)
Example demo_build :
  exists a,
    build Demo.host Demo.options Demo.resolved
    = (Normal tt, demo_acts) /\
    archives demo_acts = [(demo_archive, a)] /\
    map z_name (members a) = ["index.mjs"] /\
    removed demo_acts = [].
Proof. eexists. vm_compute. repeat split. Qed.

Lemma written_archive_is_complete_witness :
  exists d,
    Archiver.opendir (fs "/proj" (disk_of dist)) "/proj/dist" = Normal d /\
    close_quiet d = true.
Proof.
  destruct (ArchiverMore.written_archive_is_complete posix
              (fs "/proj" (disk_of dist)) "/proj/dist" "/proj/dist.zip"
              never_throws
              (fst (run_on dist "/proj/dist.zip"))
              (snd (run_on dist "/proj/dist.zip"))
              (archive_of (zip (snd (run_on dist "/proj/dist.zip")))))
    as (d & Ho & _ & Hc & _).
  - apply pair_eta'.
  - vm_compute. reflexivity.
  - exists d. split; assumption.
Defined.

Lemma zipDir_aborts_at_first_failure_witness :
  (fst failing_run = Throw ECB /\ written (log (snd failing_run)) = None) /\
  (fst loud_run = Throw EIO /\ written (log (snd loud_run)) = None).
Proof.
  split.
  - destruct (ArchiverMore.zipDir_aborts_at_first_failure posix link_fs
                "/proj/dist" "/proj/dist.zip" failing_callback link_dir
                (firstn 1 (dir_entries link_dir)) a_txt
                (skipn 2 (dir_entries link_dir)) ECB)
      as (W & _ & _ & Hw).
    + vm_compute. reflexivity.
    + vm_compute. reflexivity.
    + vm_compute. repeat constructor.
    + vm_compute. reflexivity.
    + split; [|exact Hw]. unfold failing_run. rewrite W. reflexivity.
  - destruct (ArchiverMore.zipDir_aborts_at_first_failure posix
                (closing (Some EIO) link_fs)
                "/proj/dist" "/proj/dist.zip" failing_callback loud_dir
                (firstn 1 (dir_entries link_dir)) a_txt
                (skipn 2 (dir_entries link_dir)) ECB)
      as (W & _ & _ & Hw).
    + vm_compute. reflexivity.
    + vm_compute. reflexivity.
    + vm_compute. repeat constructor.
    + vm_compute. reflexivity.
    + split; [|exact Hw]. unfold loud_run. rewrite W. reflexivity.
Defined.

Lemma zipDir_reads_only_archived_entries_witness :
  "/proj/dist/a.txt" <> "/proj/dist/out.zip" /\
  exists e,
    In e (listing (fs "/proj" (disk_of dist_with_zip)) "/proj/dist") /\
    "/proj/dist/a.txt" = filename posix e /\
    archived posix "/proj/dist/out.zip" e = true.
Proof.
  destruct (ArchiverMore.zipDir_reads_only_archived_entries posix
              (fs "/proj" (disk_of dist_with_zip))
              "/proj/dist" "/proj/dist/out.zip" never_throws
              (fst (run_on dist_with_zip "/proj/dist/out.zip"))
              (snd (run_on dist_with_zip "/proj/dist/out.zip"))
              "/proj/dist/a.txt")
    as (W & _).
  - apply pair_eta'.
  - apply W. vm_compute. left. reflexivity.
Defined.

Lemma zipDir_reads_then_closes_then_writes_witness :
  exists reads writes,
    log (snd (run_on dist "/proj/dist.zip")) = (reads ++ EvClose :: writes)%list /\
    forallb is_read reads = true.
Proof.
  destruct (ArchiverMore.zipDir_reads_then_closes_then_writes posix
              (fs "/proj" (disk_of dist)) "/proj/dist" "/proj/dist.zip"
              never_throws
              (fst (run_on dist "/proj/dist.zip"))
              (snd (run_on dist "/proj/dist.zip")))
    as [(err & Ho & _)|(reads & writes & Hl & Hr & _)].
  - apply pair_eta'.
  - vm_compute in Ho. discriminate Ho.
  - exists reads, writes. split; assumption.
Defined.


Lemma no_entry_disables_plugin_witness :
  closeBundle Demo.host (fst (config fake_builtin fresh None None))
  = (Normal tt, []).
Proof.
  destruct (PluginProps.no_entry_disables_plugin fake_builtin Demo.host
              Demo.options fresh None None) as (W1 & W2).
  destruct (W2 (proj2 W1 (or_introl eq_refl))) as (_ & W & _).
  exact W.
Defined.

Lemma outFilename_false_disables_zipping_witness :
  build Demo.host no_zip_options Demo.resolved = (Normal tt, []).
Proof.
  apply (PluginProps.outFilename_false_disables_zipping Demo.host
           no_zip_options fresh Demo.resolved).
  reflexivity.
Defined.

Lemma configResolved_removes_only_destination_witness :
  snd (configResolved Demo.host Demo.options fresh Demo.resolved) = [].
Proof.
  destruct (PluginProps.configResolved_removes_only_destination Demo.host
              Demo.options fresh Demo.resolved
              (fst (fst (configResolved Demo.host Demo.options fresh
                           Demo.resolved)))
              demo_closure
              (snd (configResolved Demo.host Demo.options fresh
                      Demo.resolved)))
    as (W & _).
  - apply triple_eta.
  - apply W. reflexivity.
Defined.

Lemma reachable_closure_consistent_witness :
  Plugin.root demo_closure <> None /\ absInDir demo_closure <> None.
Proof.
  destruct (PluginProps.reachable_closure_consistent fake_builtin Demo.host
              Demo.options demo_closure) as (_ & W).
  - apply reach_configResolved, reach_fresh.
  - apply (W demo_archive). vm_compute. reflexivity.
Defined.

Lemma closeBundle_reports_what_it_archives_witness :
  exists a,
    archives demo_acts = [(demo_archive, a)] /\
    reported demo_acts
    = zipping_message
      :: filename_message
           (Posix.relative Demo.cwd Demo.cwd demo_archive)
      :: map z_name (file_members (members a)).
Proof.
  destruct (PluginProps.closeBundle_reports_what_it_archives Demo.host
              demo_closure demo_acts)
    as [W|(r & d & out & s & a & Hr & _ & Ho & _ & _ & Ha & Hrep)].
  - vm_compute. reflexivity.
  - vm_compute in W. discriminate W.
  - vm_compute in Hr, Ho. injection Hr as <-. injection Ho as <-.
    exists a. split; assumption.
Defined.

Lemma outFilename_resolved_from_outDir_witness :
  absOutFilename demo_closure
  = ArchiveAt (Posix.resolve Demo.cwd
                 (Posix.resolve Demo.cwd Demo.cwd "../dist/lambda")
                 "foo.zip").
Proof.
  destruct (BuildProps.outFilename_resolved_from_outDir Demo.cwd
              (fs Demo.cwd Demo.disk) (fun _ => None) (fun _ => None)
              Demo.options fresh Demo.resolved "foo.zip")
    as (_ & W & _).
  - reflexivity.
  - reflexivity.
  - reflexivity.
  - exact W.
Defined.

Lemma default_archive_beside_outDir_witness :
  exists S,
    absOutFilename
      (snd (fst (configResolved Demo.host default_options fresh
                   Demo.resolved)))
    = ArchiveAt ("/" ++ join "/" (S ++ ["lambda.zip"])%list).
Proof.
  destruct (BuildProps.default_archive_beside_outDir Demo.cwd
              (fs Demo.cwd Demo.disk) (fun _ => None) (fun _ => None)
              default_options fresh Demo.resolved)
    as (S & _ & _ & W).
  - reflexivity.
  - reflexivity.
  - reflexivity.
  - vm_compute. reflexivity.
  - exists S. exact W.
Defined.

Lemma default_build_archives_outDir_witness :
  exists S acts a,
    build Demo.host default_options Demo.resolved = (Normal tt, acts) /\
    archives acts = [("/" ++ join "/" (S ++ ["lambda.zip"])%list, a)] /\
    Permutation (members a) (flat_map expected_member (below Demo.lambda_dir)).
Proof.
  destruct (BuildProps.default_build_archives_outDir Demo.cwd Demo.disk
              (fun _ => None) (fun _ => None) default_options Demo.resolved
              Demo.lambda_dir 50)
    as (S & acts & a & _ & Hb & Ha & Hp & _).
  - reflexivity.
  - reflexivity.
  - vm_compute. reflexivity.
  - vm_compute. reflexivity.
  - simpl. repeat split; try reflexivity; simpl; intuition discriminate.
  - reflexivity.
  - reflexivity.
  - intros l. apply Permutation_refl.
  - reflexivity.
  - reflexivity.
  - exists S, acts, a. repeat split; assumption.
Defined.

Lemma build_leaves_previous_archive_out_witness :
  exists acts a,
    build Demo.host Demo.options Demo.resolved = (Normal tt, acts) /\
    archives acts
    = [(absolute_path (Posix.resolve Demo.cwd Demo.cwd "../dist/lambda")
          ["foo.zip"], a)] /\
    forall m, In m (members a) -> z_name m <> "foo.zip".
Proof.
  destruct (BuildProps.build_leaves_previous_archive_out Demo.cwd Demo.disk
              (fun _ => None) (fun _ => None) Demo.options Demo.resolved
              Demo.lambda_dir 50 "foo.zip")
    as (acts & a & Hb & Ha & _ & Hn).
  - reflexivity.
  - split; reflexivity.
  - reflexivity.
  - vm_compute. reflexivity.
  - simpl. repeat split; try reflexivity; simpl; intuition discriminate.
  - reflexivity.
  - reflexivity.
  - intros l. apply Permutation_refl.
  - reflexivity.
  - reflexivity.
  - exists acts, a. repeat split; assumption.
Defined.

Lemma archive_names_stay_inside_witness :
  exists s a,
    run_on dist "/proj/dist.zip" = (Normal tt, s) /\
    written (log s) = Some a /\
    forall m, In m (members a) -> Posix.isAbsolute (z_name m) = false.
Proof.
  destruct (BuildProps.archive_names_stay_inside "/proj" (disk_of dist)
              "/proj/dist" "/proj/dist.zip" never_throws dist 900)
    as (s & a & Hr & Hw & Hm).
  - reflexivity.
  - vm_compute. reflexivity.
  - simpl. repeat split; try reflexivity; simpl; intuition discriminate.
  - reflexivity.
  - intros l. apply Permutation_refl.
  - reflexivity.
  - reflexivity.
  - exists s, a. split; [exact Hr|]. split; [exact Hw|].
    intros m Hin. apply (Hm m Hin).
Defined.

End MoreExamples.
